(** * GPT-4B-BE: recovery parser and gift re-ranking, embedded and verified

    Shallow embedding of
    - [generateJSON] of [fact-extraction/lib/llm-client.js] (the recovery
      parser), and
    - [rerankGifts] and [generateGiftRationale] of [services/llm.service.js]
      (the re-ranking engine and the rationale generator),
    - [extractSearchKeywords], [extractKeywordsFallback],
      [extractPreferencesFromMemo] and [processLLMChat] of the same file, and
    - [performRerankingAndGenerateRationale] and [removeDuplicateGifts] of the
      gift recommendation service, which calls the two above.

    JavaScript strings are sequences of UTF-16 code units; every string
    operation of the source ([length], [substring], [indexOf], [trim], the
    regular expressions) works on code units, so [jsstring] is [list N]. *)

From Stdlib Require Import ZArith List Lia Bool String Ascii DecimalPos.
From stdpp Require Import base list gmap.

Local Open Scope nat_scope.

(** ** JavaScript string primitives *)

Module JS.

Definition jsstring : Type := list N.

(** An ASCII literal as a JavaScript string. *)
Definition lit (s : string) : jsstring :=
  map N_of_ascii (list_ascii_of_string s).

(** An ASCII literal in which an apostrophe stands for a double quote. *)
Definition litq (s : string) : jsstring :=
  map (λ c, if (c =? 39)%N then 34%N else c) (lit s).

(** [\s] of a regular expression, which is also what [trim] strips:
    WhiteSpace and LineTerminator of ECMAScript. *)
Definition isSpace (c : N) : bool :=
  ((9 <=? c) && (c <=? 13) || (c =? 32) || (c =? 160) || (c =? 5760)
   || (8192 <=? c) && (c <=? 8202) || (c =? 8232) || (c =? 8233)
   || (c =? 8239) || (c =? 8287) || (c =? 12288) || (c =? 65279))%N.

(** LineTerminator: what [$] of a multiline regular expression stops at. *)
Definition isLineTerminator (c : N) : bool :=
  ((c =? 10) || (c =? 13) || (c =? 8232) || (c =? 8233))%N.

(** [\d]. *)
Definition isDigit (c : N) : bool := ((48 <=? c) && (c <=? 57))%N.

Fixpoint trimStart (s : jsstring) : jsstring :=
  match s with
  | c :: r => if isSpace c then trimStart r else s
  | [] => []
  end.

Definition trimEnd (s : jsstring) : jsstring := rev (trimStart (rev s)).

Definition trim (s : jsstring) : jsstring := trimEnd (trimStart s).

Definition eqb (a b : jsstring) : bool := bool_decide (a = b).

Fixpoint startsWith (p s : jsstring) : bool :=
  match p, s with
  | [], _ => true
  | a :: p', b :: s' => (a =? b)%N && startsWith p' s'
  | _ :: _, [] => false
  end.

(** [s.indexOf(p)]: the first position where [p] occurs. *)
Fixpoint indexOf (p s : jsstring) : option nat :=
  if startsWith p s then Some 0
  else match s with
       | [] => None
       | _ :: r => S <$> indexOf p r
       end.

(** [s.lastIndexOf(p)]: the last position where [p] occurs. *)
Fixpoint lastIndexOf (p s : jsstring) : option nat :=
  match s with
  | [] => if startsWith p [] then Some 0 else None
  | _ :: r =>
      match lastIndexOf p r with
      | Some i => Some (S i)
      | None => if startsWith p s then Some 0 else None
      end
  end.

Definition includes (s p : jsstring) : bool :=
  match indexOf p s with Some _ => true | None => false end.

(** [s.substring(a, b)] for [a <= b]. *)
Definition substring (a b : nat) (s : jsstring) : jsstring :=
  take (b - a) (drop a s).

(** First and last position of one code unit. *)
Fixpoint indexOfChar (c : N) (s : jsstring) : option nat :=
  match s with
  | [] => None
  | d :: r => if (c =? d)%N then Some 0 else S <$> indexOfChar c r
  end.

Fixpoint lastIndexOfChar (c : N) (s : jsstring) : option nat :=
  match s with
  | [] => None
  | d :: r =>
      match lastIndexOfChar c r with
      | Some i => Some (S i)
      | None => if (c =? d)%N then Some 0 else None
      end
  end.

(** Number of occurrences of one code unit: [(s.match(/c/g) || []).length]. *)
Definition countChar (c : N) (s : jsstring) : nat :=
  length (filter (λ d, d = c) s).

(** [s.split(sep)] for a separator class of single code units, without the
    merging of adjacent separators. *)
Fixpoint splitChar (sep : N → bool) (s : jsstring) : list jsstring :=
  match s with
  | [] => [[]]
  | c :: r =>
      if sep c then [] :: splitChar sep r
      else match splitChar sep r with
           | w :: ws => (c :: w) :: ws
           | [] => [[c]]
           end
  end.

(** [s.split(/[sep]+/)]: runs of separators count once, so no empty piece
    appears between two separators; an empty piece remains at either end
    when the string starts or ends with a separator. *)
Fixpoint splitRuns (sep : N → bool) (s : jsstring) : list jsstring :=
  match s with
  | [] => [[]]
  | c :: r =>
      if sep c then
        match r with
        | d :: _ => if sep d then splitRuns sep r else [] :: splitRuns sep r
        | [] => [[]; []]
        end
      else match splitRuns sep r with
           | w :: ws => (c :: w) :: ws
           | [] => [[c]]
           end
  end.

(** [s.replace(/marker\n?/g, "")]: every occurrence of [marker], with the
    line feed that follows it when there is one, is removed.  [skip] counts
    the code units of the current match still to be dropped. *)
Fixpoint removeMarker (marker : jsstring) (skip : nat) (s : jsstring) : jsstring :=
  match s with
  | [] => []
  | c :: r =>
      match skip with
      | S k => removeMarker marker k r
      | 0 =>
          if startsWith marker s then
            let n := length marker in
            let nl := match drop n s with 10%N :: _ => 1 | _ => 0 end in
            removeMarker marker (n + nl - 1) r
          else c :: removeMarker marker 0 r
      end
  end.

End JS.


(** ** JSON values, [JSON.stringify] and a reference [JSON.parse] *)

Module JSON.
Import JS.

(** A number is kept as the decimal [m * 10^e] that its shortest
    serialization denotes; [m] has no trailing zero when it is not [0].
    Object members are kept in the order of the text. *)
#[warnings="-register-all"]
Inductive json : Type :=
| JNull
| JBool (b : bool)
| JNum (m e : Z)
| JStr (s : jsstring)
| JArr (l : list json)
| JObj (kv : list (jsstring * json)).

(** Truthiness of a parsed value, as [if (v)] and [a && b] see it. *)
Definition truthy (v : json) : bool :=
  match v with
  | JNull => false
  | JBool b => b
  | JNum m _ => negb (m =? 0)%Z
  | JStr s => match s with [] => false | _ => true end
  | JArr _ | JObj _ => true
  end.

(** [o[k]] of a parsed value: [None] is [undefined]. *)
Fixpoint getMember (k : jsstring) (kv : list (jsstring * json)) : option json :=
  match kv with
  | [] => None
  | (k', v) :: r => if eqb k k' then Some v else getMember k r
  end.

(** [o[k] = v]: an existing key keeps its place. *)
Fixpoint setMember (k : jsstring) (v : json) (kv : list (jsstring * json))
  : list (jsstring * json) :=
  match kv with
  | [] => [(k, v)]
  | (k', v') :: r => if eqb k k' then (k, v) :: r else (k', v') :: setMember k v r
  end.

(** *** Numbers *)

Fixpoint stripZeros (fuel : nat) (m e : Z) : Z * Z :=
  match fuel with
  | 0 => (m, e)
  | S f =>
      if (m =? 0)%Z then (0, 0)%Z
      else if (m mod 10 =? 0)%Z then stripZeros f (m / 10)%Z (e + 1)%Z
      else (m, e)
  end.

Definition normNum (m e : Z) : Z * Z :=
  stripZeros (S (Z.to_nat (Z.log2 (Z.abs m)))) m e.

Fixpoint uintChars (d : Decimal.uint) : jsstring :=
  match d with
  | Decimal.Nil => []
  | Decimal.D0 r => 48%N :: uintChars r
  | Decimal.D1 r => 49%N :: uintChars r
  | Decimal.D2 r => 50%N :: uintChars r
  | Decimal.D3 r => 51%N :: uintChars r
  | Decimal.D4 r => 52%N :: uintChars r
  | Decimal.D5 r => 53%N :: uintChars r
  | Decimal.D6 r => 54%N :: uintChars r
  | Decimal.D7 r => 55%N :: uintChars r
  | Decimal.D8 r => 56%N :: uintChars r
  | Decimal.D9 r => 57%N :: uintChars r
  end.

Definition natChars (n : N) : jsstring := uintChars (N.to_uint n).

Definition digitsVal (ds : jsstring) : N :=
  fold_left (λ acc c, 10 * acc + (c - 48))%N ds 0%N.

(** [Number::toString] on the decimal [m * 10^e]. *)
Definition numChars (m e : Z) : jsstring :=
  let '(m, e) := normNum m e in
  if (m =? 0)%Z then [48%N]
  else
    let ds := natChars (Z.to_N (Z.abs m)) in
    let k := Z.of_nat (length ds) in
    let n := (k + e)%Z in
    let sign := if (m <? 0)%Z then [45%N] else [] in
    sign ++
    (if (k <=? n)%Z && (n <=? 21)%Z then
       ds ++ replicate (Z.to_nat (n - k)) 48%N
     else if (0 <? n)%Z && (n <=? 21)%Z then
       take (Z.to_nat n) ds ++ 46%N :: drop (Z.to_nat n) ds
     else if (-6 <? n)%Z && (n <=? 0)%Z then
       48%N :: 46%N :: replicate (Z.to_nat (- n)) 48%N ++ ds
     else
       let ex := (n - 1)%Z in
       let es := (if (ex <? 0)%Z then 45%N else 43%N) :: natChars (Z.to_N (Z.abs ex)) in
       match ds with
       | [d] => d :: 101%N :: es
       | d :: r => d :: 46%N :: r ++ 101%N :: es
       | [] => []
       end).

(** *** Strings *)

Definition hexChar (n : N) : N :=
  if (n <? 10)%N then (48 + n)%N else (87 + n)%N.

Definition unicodeEscape (c : N) : jsstring :=
  [92; 117; hexChar (c / 4096); hexChar (c / 256 mod 16);
   hexChar (c / 16 mod 16); hexChar (c mod 16)]%N.

Definition isHighSurrogate (c : N) : bool := ((55296 <=? c) && (c <=? 56319))%N.
Definition isLowSurrogate (c : N) : bool := ((56320 <=? c) && (c <=? 57343))%N.

(** [QuoteJSONString] without the enclosing quotes. *)
Fixpoint quoteChars (s : jsstring) : jsstring :=
  match s with
  | [] => []
  | c :: r =>
      if (c =? 8)%N then 92%N :: 98%N :: quoteChars r
      else if (c =? 9)%N then 92%N :: 116%N :: quoteChars r
      else if (c =? 10)%N then 92%N :: 110%N :: quoteChars r
      else if (c =? 12)%N then 92%N :: 102%N :: quoteChars r
      else if (c =? 13)%N then 92%N :: 114%N :: quoteChars r
      else if (c =? 34)%N then 92%N :: 34%N :: quoteChars r
      else if (c =? 92)%N then 92%N :: 92%N :: quoteChars r
      else if (c <? 32)%N then unicodeEscape c ++ quoteChars r
      else if isHighSurrogate c then
        match r with
        | d :: r' =>
            if isLowSurrogate d then c :: d :: quoteChars r'
            else unicodeEscape c ++ quoteChars r
        | [] => unicodeEscape c
        end
      else if isLowSurrogate c then unicodeEscape c ++ quoteChars r
      else c :: quoteChars r
  end.

Definition quote (s : jsstring) : jsstring := 34%N :: quoteChars s ++ [34%N].

(** *** [JSON.stringify(v)], the compact serialization *)

(** [pieces.join(",")]. *)
Fixpoint joinComma (pieces : list jsstring) : jsstring :=
  match pieces with
  | [] => []
  | [p] => p
  | p :: r => p ++ 44%N :: joinComma r
  end.

Fixpoint stringify (v : json) : jsstring :=
  match v with
  | JNull => lit "null"
  | JBool true => lit "true"
  | JBool false => lit "false"
  | JNum m e => numChars m e
  | JStr s => quote s
  | JArr l => 91%N :: joinComma (map stringify l) ++ [93%N]
  | JObj kv =>
      123%N ::
      joinComma (map (λ p, quote (fst p) ++ 58%N :: stringify (snd p)) kv)
      ++ [125%N]
  end.

(** *** A reference [JSON.parse]

    The grammar of ECMA-404, which is what the host's [JSON.parse] accepts:
    a recursive-descent parser whose fuel [2 * length + 2] is never
    exhausted, since two nested calls consume at least one code unit.  A
    member read twice keeps the place of its first occurrence and the value
    of the last one.  A numeral is read as the decimal it writes; a host
    reads it as the nearest binary64 number, which is the same number for
    the short numerals of the examples below. *)

Definition isJsonWs (c : N) : bool :=
  ((c =? 9) || (c =? 10) || (c =? 13) || (c =? 32))%N.

Fixpoint skipWs (s : jsstring) : jsstring :=
  match s with
  | c :: r => if isJsonWs c then skipWs r else s
  | [] => []
  end.

Definition hexVal (c : N) : option N :=
  if isDigit c then Some (c - 48)%N
  else if ((97 <=? c) && (c <=? 102))%N then Some (c - 87)%N
  else if ((65 <=? c) && (c <=? 70))%N then Some (c - 55)%N
  else None.

Definition consTo (c : N) (x : option (jsstring * jsstring))
  : option (jsstring * jsstring) :=
  match x with
  | Some (w, t) => Some (c :: w, t)
  | None => None
  end.

(** The characters of a string literal, after its opening quote. *)
Fixpoint lexString (s : jsstring) : option (jsstring * jsstring) :=
  match s with
  | [] => None
  | c :: r =>
      if (c =? 34)%N then Some ([], r)
      else if (c =? 92)%N then
        match r with
        | [] => None
        | d :: r1 =>
            if (d =? 34)%N then consTo 34%N (lexString r1)
            else if (d =? 92)%N then consTo 92%N (lexString r1)
            else if (d =? 47)%N then consTo 47%N (lexString r1)
            else if (d =? 98)%N then consTo 8%N (lexString r1)
            else if (d =? 102)%N then consTo 12%N (lexString r1)
            else if (d =? 110)%N then consTo 10%N (lexString r1)
            else if (d =? 114)%N then consTo 13%N (lexString r1)
            else if (d =? 116)%N then consTo 9%N (lexString r1)
            else if (d =? 117)%N then
              match r1 with
              | h1 :: h2 :: h3 :: h4 :: r2 =>
                  match hexVal h1, hexVal h2, hexVal h3, hexVal h4 with
                  | Some a, Some b, Some c', Some d' =>
                      consTo (4096 * a + 256 * b + 16 * c' + d')%N (lexString r2)
                  | _, _, _, _ => None
                  end
              | _ => None
              end
            else None
        end
      else if (c <? 32)%N then None
      else consTo c (lexString r)
  end.

Fixpoint spanDigits (s : jsstring) : jsstring * jsstring :=
  match s with
  | c :: r =>
      if isDigit c then let '(d, t) := spanDigits r in (c :: d, t)
      else ([], s)
  | [] => ([], [])
  end.

(** A number literal: an optional minus sign, then [0] or a digit run that
    does not start with [0], then an optional fraction (a dot and at least
    one digit) and an optional exponent ([e] or [E], an optional sign and at
    least one digit). *)
Definition lexNumber (s : jsstring) : option (json * jsstring) :=
  let '(neg, s1) :=
    match s with
    | c :: r => if (c =? 45)%N then (true, r) else (false, s)
    | [] => (false, s)
    end in
  match s1 with
  | [] => None
  | c :: r =>
      if negb (isDigit c) then None
      else
        let '(ip, s2) := if (c =? 48)%N then ([48%N], r) else spanDigits s1 in
        let frac :=
          match s2 with
          | d :: r2 =>
              if (d =? 46)%N then
                let '(fd, s3) := spanDigits r2 in
                match fd with [] => None | _ => Some (fd, s3) end
              else Some ([], s2)
          | [] => Some ([], s2)
          end in
        match frac with
        | None => None
        | Some (fd, s3) =>
            let expo :=
              match s3 with
              | x :: r3 =>
                  if ((x =? 101) || (x =? 69))%N then
                    let '(eneg, r4) :=
                      match r3 with
                      | g :: t =>
                          if (g =? 43)%N then (false, t)
                          else if (g =? 45)%N then (true, t)
                          else (false, r3)
                      | [] => (false, r3)
                      end in
                    let '(ed, s4) := spanDigits r4 in
                    match ed with
                    | [] => None
                    | _ =>
                        let v := Z.of_N (digitsVal ed) in
                        Some (if eneg : bool then (- v)%Z else v, s4)
                    end
                  else Some (0%Z, s3)
              | [] => Some (0%Z, s3)
              end in
            match expo with
            | None => None
            | Some (ex, s4) =>
                let mag := Z.of_N (digitsVal (ip ++ fd)) in
                let m := if neg : bool then (- mag)%Z else mag in
                let '(m', e') := normNum m (ex - Z.of_nat (length fd))%Z in
                Some (JNum m' e', s4)
            end
        end
  end.

Fixpoint parseValue (fuel : nat) (s : jsstring) : option (json * jsstring) :=
  match fuel with
  | 0 => None
  | S f =>
      match skipWs s with
      | [] => None
      | c :: r =>
          if (c =? 34)%N then
            match lexString r with
            | Some (w, t) => Some (JStr w, t)
            | None => None
            end
          else if (c =? 91)%N then
            match skipWs r with
            | d :: t =>
                if (d =? 93)%N then Some (JArr [], t)
                else match parseElements f r with
                     | Some (l, t') => Some (JArr l, t')
                     | None => None
                     end
            | [] => None
            end
          else if (c =? 123)%N then
            match skipWs r with
            | d :: t =>
                if (d =? 125)%N then Some (JObj [], t)
                else match parseMembers f r with
                     | Some (kv, t') =>
                         Some (JObj (fold_left (λ o p, setMember (fst p) (snd p) o) kv []), t')
                     | None => None
                     end
            | [] => None
            end
          else if startsWith (lit "null") (c :: r) then Some (JNull, drop 4 (c :: r))
          else if startsWith (lit "true") (c :: r) then Some (JBool true, drop 4 (c :: r))
          else if startsWith (lit "false") (c :: r) then Some (JBool false, drop 5 (c :: r))
          else lexNumber (c :: r)
      end
  end
with parseElements (fuel : nat) (s : jsstring) : option (list json * jsstring) :=
  match fuel with
  | 0 => None
  | S f =>
      match parseValue f s with
      | None => None
      | Some (v, t) =>
          match skipWs t with
          | c :: t' =>
              if (c =? 93)%N then Some ([v], t')
              else if (c =? 44)%N then
                match parseElements f t' with
                | Some (l, t'') => Some (v :: l, t'')
                | None => None
                end
              else None
          | [] => None
          end
      end
  end
with parseMembers (fuel : nat) (s : jsstring)
  : option (list (jsstring * json) * jsstring) :=
  match fuel with
  | 0 => None
  | S f =>
      match skipWs s with
      | q :: r =>
          if negb (q =? 34)%N then None
          else
            match lexString r with
            | None => None
            | Some (k, t) =>
                match skipWs t with
                | c :: t1 =>
                    if negb (c =? 58)%N then None
                    else
                      match parseValue f t1 with
                      | None => None
                      | Some (v, t2) =>
                          match skipWs t2 with
                          | d :: t3 =>
                              if (d =? 125)%N then Some ([(k, v)], t3)
                              else if (d =? 44)%N then
                                match parseMembers f t3 with
                                | Some (kv, t4) => Some ((k, v) :: kv, t4)
                                | None => None
                                end
                              else None
                          | [] => None
                          end
                      end
                | [] => None
                end
            end
      | [] => None
      end
  end.

(** [JSON.parse(s)]: [None] is the [SyntaxError]. *)
Definition parse (s : jsstring) : option json :=
  match parseValue (2 * length s + 2) s with
  | Some (v, t) => match skipWs t with [] => Some v | _ => None end
  | None => None
  end.

End JSON.

Import JS JSON.

(** ** The host

    [String.prototype.toLowerCase] (Unicode case mapping) and [JSON.parse]
    belong to the JavaScript host, not to the repository: the embedding takes
    them as an interface, and every theorem holds for every host.  [refHost]
    below is the instance that closed examples run on. *)

Class Host : Type := {
  toLowerCase : jsstring → jsstring;
  JSON_parse : jsstring → option json
}.

(** Lower-casing of Basic Latin; other code units (Hangul among them, which
    has no case) are left as they are. *)
Definition lowerLatin (s : jsstring) : jsstring :=
  map (λ c, if ((65 <=? c) && (c <=? 90))%N then (c + 32)%N else c) s.

Definition refHost : Host :=
  {| toLowerCase := lowerLatin; JSON_parse := JSON.parse |}.

(** What a call does in the end: it returns, it throws, or it never comes
    back. *)
Inductive error : Type :=
| ApiKeyNotConfigured   (* "OPENAI_API_KEY is not configured" *)
| BackendFailure        (* the error of [generateText], passed on *)
| JsonParseFailed.      (* "JSON 파싱 실패: ..." *)

Inductive outcome (A : Type) : Type :=
| Return (a : A)
| Throw (e : error)
| Hang.

Arguments Return {A} a.
Arguments Throw {A} e.
Arguments Hang {A}.

(** ** fact-extraction/lib/llm-client.js: [generateJSON] *)

Module LlmClient.

(** What [await generateText(prompt, options)] gives. *)
Inductive reply : Type :=
| ReplyError
| ReplyText (text : jsstring).

Definition fence : jsstring := [96; 96; 96]%N.

(** Group 1 of [text.match(/```(?:json)?\s*([\s\S]*?)```/)].  The match can
    only start at the first fence of the text: a fence that starts one or two
    code units later is followed by the same closing fences. *)
Definition fenceMatch (text : jsstring) : option jsstring :=
  match indexOf fence text with
  | None => None
  | Some i =>
      let r := drop (i + 3) text in
      let r := if startsWith (lit "json") r then drop 4 r else r in
      let r := trimStart r in
      match indexOf fence r with
      | Some j => Some (take j r)
      | None => None
      end
  end.

(** [text.match(/(o[\s\S]*c)/)]: from the first [o] to the last [c] after
    it. *)
Definition greedyMatch (o c : N) (text : jsstring) : option jsstring :=
  match indexOfChar o text with
  | None => None
  | Some i =>
      match lastIndexOfChar c (drop (S i) text) with
      | None => None
      | Some j => Some (take (j + 2) (drop i text))
      end
  end.

Definition objectMatch : jsstring → option jsstring := greedyMatch 123 125.
Definition arrayMatch : jsstring → option jsstring := greedyMatch 91 93.

(** Lines 76-91: the candidate text. *)
Definition extractCandidate (text : jsstring) : jsstring :=
  match fenceMatch text with
  | Some inner => trim inner
  | None =>
      match objectMatch text with
      | Some o => o
      | None =>
          match arrayMatch text with
          | Some a => a
          | None => text
          end
      end
  end.

(** [\s*[\}\]]] at the head of [s]. *)
Fixpoint closerAhead (s : jsstring) : bool :=
  match s with
  | [] => false
  | c :: r => if isSpace c then closerAhead r else ((c =? 125) || (c =? 93))%N
  end.

(** [s.replace(/,(\s*[\}\]])/g, '$1')].  What a match keeps (white space and
    one closing bracket) holds no comma, so scanning on right after the
    dropped comma finds the same matches as scanning on after the match. *)
Fixpoint stripTrailingCommas (s : jsstring) : jsstring :=
  match s with
  | [] => []
  | c :: r =>
      if (c =? 44)%N && closerAhead r then stripTrailingCommas r
      else c :: stripTrailingCommas r
  end.

(** [\s*$] under the [m] flag at the head of [s]: the end of the text or a
    line terminator is reached through white space only. *)
Fixpoint lineEndAhead (s : jsstring) : bool :=
  match s with
  | [] => true
  | c :: r =>
      if isLineTerminator c then true
      else if isSpace c then lineEndAhead r
      else false
  end.

(** [/c\s*,\s*$/m] matches somewhere in [s]. *)
Fixpoint closerCommaLineEnd (c : N) (s : jsstring) : bool :=
  match s with
  | [] => false
  | d :: r =>
      ((d =? c)%N &&
       match trimStart r with
       | x :: t => (x =? 44)%N && lineEndAhead t
       | [] => false
       end)
      || closerCommaLineEnd c r
  end.

(** [\s*c] at the head of [s]: the number of white-space code units before
    [c]. *)
Fixpoint spacesThen (c : N) (s : jsstring) : option nat :=
  match s with
  | [] => None
  | d :: r =>
      if (d =? c)%N then Some 0
      else if isSpace d then S <$> spacesThen c r
      else None
  end.

(** The [while ((match = pattern.exec(testStr)) !== null)] loop of a global
    pattern [/c1\s*c2/g]: [pos] is the position of the head of [s] in the
    text.  Two matches never overlap, since a match holds [c1] once, at its
    start. *)
Fixpoint scanPairs (c1 c2 : N) (pos : nat) (s : jsstring) (lastSafePos : Z) : Z :=
  match s with
  | [] => lastSafePos
  | d :: r =>
      let lastSafePos' :=
        if (d =? c1)%N then
          match spacesThen c2 r with
          | Some n =>
              if (Z.of_nat pos >? lastSafePos)%Z then Z.of_nat (pos + n + 1)
              else lastSafePos
          | None => lastSafePos
          end
        else lastSafePos in
      scanPairs c1 c2 (S pos) r lastSafePos'
  end.

(** What one recovery strategy does: it returns a truthy value, it returns
    [null] (or a falsy value) or throws, which both hand over to the next
    strategy, or it loops for ever. *)
Inductive attempt : Type :=
| Recovered (v : json)
| GiveUp
| Loops.

(** Lines 106-141.  The first and the third pattern have no [g] flag:
    [exec] then starts from position 0 at every call, so the [while] loop
    never ends once such a pattern matches. *)
Definition strategy1 `{Host} (jsonStr : jsstring) : attempt :=
  if closerCommaLineEnd 125 jsonStr then Loops
  else
    let p2 := scanPairs 125 93 0 jsonStr (-1) in
    if closerCommaLineEnd 93 jsonStr then Loops
    else
      let lastSafePos := scanPairs 93 125 0 jsonStr p2 in
      if (Z.of_nat (length jsonStr) <? 2 * lastSafePos)%Z then
        let fixedJson := stripTrailingCommas (take (Z.to_nat lastSafePos + 1) jsonStr) in
        let openBraces := countChar 123 fixedJson in
        let closeBraces := countChar 125 fixedJson in
        let openBrackets := countChar 91 fixedJson in
        let closeBrackets := countChar 93 fixedJson in
        let fixedJson :=
          fixedJson ++ replicate (openBrackets - closeBrackets) 93%N
                    ++ replicate (openBraces - closeBraces) 125%N in
        match JSON_parse fixedJson with
        | Some v => if truthy v then Recovered v else GiveUp
        | None => GiveUp
        end
      else GiveUp.

Definition knownKeys : list jsstring :=
  [lit "business_cards"; lit "events"; lit "memos"; lit "gifts"; lit "chats"].

(** [/"(business_cards|events|memos|gifts|chats)"\s*:\s*\[/] at the head of
    [s]: the key and the text after the opening bracket. *)
Definition keyAt (s : jsstring) : option (jsstring * jsstring) :=
  match s with
  | 34%N :: r =>
      match list_find (λ k, startsWith k r = true) knownKeys with
      | None => None
      | Some (_, k) =>
          match drop (length k) r with
          | 34%N :: r1 =>
              match trimStart r1 with
              | 58%N :: r2 =>
                  match trimStart r2 with
                  | 91%N :: r3 => Some (k, r3)
                  | _ => None
                  end
              | _ => None
              end
          | _ => None
          end
      end
  | _ => None
  end.

(** Lines 153-159: the position, from the head of [s], of the bracket that
    brings [depth] back to 0. *)
Fixpoint matchClose (depth : nat) (s : jsstring) : option nat :=
  match s with
  | [] => None
  | c :: r =>
      if (c =? 91)%N then S <$> matchClose (S depth) r
      else if (c =? 93)%N then
        match depth with
        | 0 | 1 => Some 0
        | S d => S <$> matchClose d r
        end
      else S <$> matchClose depth r
  end.

(** Lines 161-178, for one key: the array text that is parsed. *)
Definition salvageText (arr : jsstring) : option jsstring :=
  match matchClose 1 arr with
  | Some endIdx => Some (stripTrailingCommas (91%N :: take endIdx arr ++ [93%N]))
  | None =>
      match lastIndexOf (lit "},") arr with
      | Some (S lastComplete) =>
          Some (stripTrailingCommas (91%N :: take (S lastComplete + 1) arr ++ [93%N]))
      | _ => None
      end
  end.

(** The [while ((match = keyPattern.exec(jsonStr)) !== null)] loop: every
    position where the key pattern matches, from left to right. *)
Fixpoint salvageKeys `{Host} (s : jsstring) (result : list (jsstring * json))
  : list (jsstring * json) :=
  match s with
  | [] => result
  | _ :: r =>
      let result' :=
        match keyAt s with
        | Some (key, arr) =>
            match salvageText arr with
            | Some arrStr =>
                match JSON_parse arrStr with
                | Some v => setMember key v result
                | None => result
                end
            | None => result
            end
        | None => result
        end in
      salvageKeys r result'
  end.

(** Lines 143-185. *)
Definition strategy2 `{Host} (jsonStr : jsstring) : attempt :=
  match salvageKeys jsonStr [] with
  | [] => GiveUp
  | result => Recovered (JObj result)
  end.

(** Lines 72-203. *)
Definition generateJSON `{Host} (r : reply) : outcome json :=
  match r with
  | ReplyError => Throw BackendFailure
  | ReplyText text =>
      let jsonStr := stripTrailingCommas (extractCandidate text) in
      match JSON_parse jsonStr with
      | Some v => Return v
      | None =>
          match strategy1 jsonStr with
          | Loops => Hang
          | Recovered v => Return v
          | GiveUp =>
              match strategy2 jsonStr with
              | Recovered v => Return v
              | _ => Throw JsonParseFailed
              end
          end
      end
  end.

End LlmClient.

(** ** services/llm.service.js: [rerankGifts] and [generateGiftRationale] *)

Module LlmService.

(** A field that is absent, [undefined] or [""] is falsy in the source, and
    every such field is read through [x || fallback]: the empty string
    stands for all three. *)
Record Metadata : Type := {
  meta_name : jsstring;
  meta_product_name : jsstring;
  meta_category : jsstring;
  meta_unified_text : jsstring;
  meta_productId : jsstring;
  meta_id : jsstring
}.

(** [gift.metadata || {}]: a gift without metadata has every field empty. *)
Record Gift : Type := {
  gift_id : jsstring;
  gift_name : jsstring;
  gift_document : jsstring;
  gift_metadata : Metadata
}.

Record OriginalData : Type := {
  rank : jsstring;
  gender : jsstring;
  memo : jsstring;
  addMemo : jsstring
}.

Record PreferenceItem : Type := {
  item : jsstring;
  evidence : list jsstring
}.

Record PreferenceProfile : Type := {
  likes : list PreferenceItem;
  dislikes : list PreferenceItem;
  uncertain : list PreferenceItem
}.

#[global] Instance Metadata_eq_dec : EqDecision Metadata.
Proof. solve_decision. Defined.

#[global] Instance Gift_eq_dec : EqDecision Gift.
Proof. solve_decision. Defined.

(** What [await axios.post(...)] and the reading of its reply give: the
    request fails (network, authentication, timeout, or a reply without a
    text content), the reply has no choice, or
    [response.data.choices[0].message.content]. *)
Inductive completion : Type :=
| RequestFailed
| NoChoices
| Content (content : jsstring).

(** [a || b] on strings. *)
Definition orElse (a b : jsstring) : jsstring :=
  match a with [] => b | _ => a end.

Definition nonEmpty (s : jsstring) : bool :=
  match s with [] => false | _ => true end.

(** ["정보없음"] *)
Definition NO_INFO : jsstring := [51221; 48372; 50630; 51020]%N.
(** ["추천 선물"] *)
Definition RECOMMENDED_GIFT : jsstring := [52628; 52380; 32; 49440; 47932]%N.
(** ["선물"] *)
Definition GIFT_WORD : jsstring := [49440; 47932]%N.
(** ["에 맞춰 "] *)
Definition FITTING : jsstring := [50640; 32; 47582; 52656; 32]%N.
(** ["을(를) 추천드립니다."] *)
Definition IS_RECOMMENDED : jsstring :=
  [51012; 40; 47484; 41; 32; 52628; 52380; 46300; 47549; 45768; 45796; 46]%N.
(** ["에 맞춰 추천드립니다."] *)
Definition FITTING_RECOMMENDED : jsstring :=
  [50640; 32; 47582; 52656; 32; 52628; 52380; 46300; 47549; 45768; 45796; 46]%N.

(** The markers of [/```json\n?/g] and [/```\n?/g]. *)
Definition fenceJsonMarker : jsstring := [96; 96; 96; 106; 115; 111; 110]%N.
Definition fenceMarker : jsstring := [96; 96; 96]%N.

(** [maxGiftsForRerank], and the 30 of line 376. *)
Definition maxGiftsForRerank : nat := 30.

(** [arr.slice(0, e)]: a negative end counts from the end of the array. *)
Definition sliceTo {A} (e : Z) (l : list A) : list A :=
  if (e <? 0)%Z then take (length l - Z.to_nat (- e)) l
  else take (Z.to_nat e) l.

(** [preferenceProfile && preferenceProfile.likes &&
    Array.isArray(preferenceProfile.likes) && preferenceProfile.likes.length > 0] *)
Definition hasLikes (preferenceProfile : option PreferenceProfile) : bool :=
  match preferenceProfile with
  | Some p => match likes p with [] => false | _ => true end
  | None => false
  end.

Section WithHost.
Context `{Host}.

(** *** Pre-filter (lines 324-381) *)

(** Lines 338-348. *)
Definition likesRelated (likesItems : list jsstring) (gift : Gift) : bool :=
  let metadata := gift_metadata gift in
  let name := toLowerCase (orElse (meta_name metadata) (meta_product_name metadata)) in
  let category := toLowerCase (meta_category metadata) in
  let document := toLowerCase (orElse (gift_document gift) (meta_unified_text metadata)) in
  let searchText := name ++ 32%N :: category ++ 32%N :: document in
  existsb (λ likeItem,
             includes searchText likeItem || includes name likeItem
             || includes category likeItem) likesItems.

(** [for (let i = 0; i < gifts.length; i++) if (p(gifts[i])) out.push(i)]:
    the positions of [gifts] whose gift satisfies [p], in order. *)
Definition indicesWhere (p : Gift → bool) (gifts : list Gift) : list nat :=
  filter (λ i, from_option p false (gifts !! i) = true) (seq 0 (length gifts)).

(** [filteredIndices]. *)
Definition prefilterIndices (gifts : list Gift)
    (preferenceProfile : option PreferenceProfile) : list nat :=
  if hasLikes preferenceProfile then
    let likesItems :=
      filter (λ s, nonEmpty s = true)
        (map (λ l, trim (toLowerCase (item l)))
             (match preferenceProfile with Some p => likes p | None => [] end)) in
    let likesRelatedGifts := indicesWhere (likesRelated likesItems) gifts in
    let otherGifts := indicesWhere (λ g, negb (likesRelated likesItems g)) gifts in
    let likesToInclude := min (length likesRelatedGifts) maxGiftsForRerank in
    let othersToInclude := maxGiftsForRerank - likesToInclude in
    take likesToInclude likesRelatedGifts ++ take othersToInclude otherGifts
  else if 30 <? length gifts then take 30 (seq 0 (length gifts))
  else seq 0 (length gifts).

(** [filteredIndices.map(idx => gifts[idx])]; every index is a position of
    [gifts] (lemma [prefilterIndices_lt]), so no entry is [undefined]. *)
Definition prefilterGifts (gifts : list Gift)
    (preferenceProfile : option PreferenceProfile) : list Gift :=
  omap (λ idx, gifts !! idx) (prefilterIndices gifts preferenceProfile).

(** *** The fallback of lines 716-719 (and 725, 733, 761, 786)

    [filteredGifts.slice(0, topN).map(g => gifts[filteredIndices[
    filteredGifts.indexOf(g)]]).filter(Boolean)].  [indexOf] compares
    object identities; on values it finds the first equal gift, and the gift
    it leads back to is equal to [g] either way. *)
Definition indexOfGift (g : Gift) (l : list Gift) : option nat :=
  fst <$> list_find (λ x, x = g) l.

Definition fallbackTopN (gifts filteredGifts : list Gift)
    (filteredIndices : list nat) (topN : nat) : list Gift :=
  omap (λ g, idx ← indexOfGift g filteredGifts;
             i ← filteredIndices !! idx;
             gifts !! i)
       (take topN filteredGifts).

(** *** Reading the ranking (lines 690-750) *)

(** [[\d\s,]*\]] at the head of [s]: the length of the run before the
    closing bracket. *)
Fixpoint digitRun (s : jsstring) : option nat :=
  match s with
  | [] => None
  | c :: r =>
      if (c =? 93)%N then Some 0
      else if isDigit c || isSpace c || (c =? 44)%N then S <$> digitRun r
      else None
  end.

(** [s.match(/\[[\d\s,]*\]/)]. *)
Fixpoint digitArrayMatch (s : jsstring) : option jsstring :=
  match s with
  | [] => None
  | c :: r =>
      if (c =? 91)%N then
        match digitRun r with
        | Some n => Some (take (n + 2) s)
        | None => digitArrayMatch r
        end
      else digitArrayMatch r
  end.

(** Lines 690 and 696-701 (and 1257, 1261-1264):
    [content.trim().replace(/```json\n?/g, "").replace(/```\n?/g, "").trim()].
    The [replace(/^\[/, "[")] and [replace(/\]$/, "]")] of lines 699-700 put
    back what they take. *)
Definition cleanReply (content : jsstring) : jsstring :=
  let result := trim content in
  trim (removeMarker fenceMarker 0 (removeMarker fenceJsonMarker 0 result)).

(** Lines 696-707. *)
Definition cleanRanking (content : jsstring) : jsstring :=
  let cleanedResult := cleanReply content in
  match digitArrayMatch cleanedResult with
  | Some a => a
  | None => cleanedResult
  end.

(** [parseInt(s, 10)]; [None] is [NaN]. *)
Definition parseInt10 (s : jsstring) : option Z :=
  let s := trimStart s in
  let '(neg, s) :=
    match s with
    | c :: r =>
        if (c =? 45)%N then (true, r)
        else if (c =? 43)%N then (false, r)
        else (false, s)
    | [] => (false, s)
    end in
  match spanDigits s with
  | ([], _) => None
  | (ds, _) =>
      let v := Z.of_N (digitsVal ds) in
      Some (if neg : bool then (- v)%Z else v)
  end.

(** The integer that the number [m * 10^e] is, when it is one. *)
Definition numToInt (m e : Z) : option Z :=
  if (0 <=? e)%Z then Some (m * 10 ^ e)%Z
  else if (m mod 10 ^ (- e) =? 0)%Z then Some (m / 10 ^ (- e))%Z
  else None.

(** Lines 741-747, for one element. *)
Definition toValidIndex (len : nat) (idx : json) : option nat :=
  let numIdx :=
    match idx with
    | JStr s => parseInt10 s
    | JNum m e => numToInt m e
    | _ => None
    end in
  match numIdx with
  | Some z => if ((0 <=? z) && (z <? Z.of_nat len))%Z then Some (Z.to_nat z) else None
  | None => None
  end.

(** Lines 768-775. *)
Fixpoint uniqueLoop (seen : gset nat) (l : list nat) : list nat :=
  match l with
  | [] => []
  | idx :: r =>
      if bool_decide (idx ∈ seen) then uniqueLoop seen r
      else idx :: uniqueLoop ({[idx]} ∪ seen) r
  end.

(** *** De-duplication (lines 796-820, 999-1050 and 1066-1117)

    The three loops are the same computation on [productId] and
    [productName]. *)

Definition productId (gift : Gift) : jsstring :=
  orElse (gift_id gift)
    (orElse (meta_productId (gift_metadata gift)) (meta_id (gift_metadata gift))).

Definition productName (gift : Gift) : jsstring :=
  toLowerCase
    (trim (orElse (meta_name (gift_metadata gift))
             (orElse (meta_product_name (gift_metadata gift)) (gift_name gift)))).

Fixpoint dedupLoop (seenProductIds seenProductNames : gset jsstring)
    (l : list Gift) : list Gift :=
  match l with
  | [] => []
  | gift :: r =>
      let pid := productId gift in
      let pname := productName gift in
      let dupId := nonEmpty pid && bool_decide (pid ∈ seenProductIds) in
      let seenProductIds' :=
        if nonEmpty pid && negb dupId then {[pid]} ∪ seenProductIds
        else seenProductIds in
      let dupName :=
        negb dupId && nonEmpty pname && bool_decide (pname ∈ seenProductNames) in
      let seenProductNames' :=
        if negb dupId && nonEmpty pname && negb dupName
        then {[pname]} ∪ seenProductNames
        else seenProductNames in
      if dupId || dupName then dedupLoop seenProductIds' seenProductNames' r
      else gift :: dedupLoop seenProductIds' seenProductNames' r
  end.

Definition dedupGifts (l : list Gift) : list Gift := dedupLoop ∅ ∅ l.

(** [for (const idx of indices) { const gift = gifts[idx]; ... }]: reading a
    field of [undefined] throws, which is [None]. *)
Definition dedupIndices (gifts : list Gift) (indices : list nat)
  : option (list Gift) :=
  dedupGifts <$> mapM (λ idx, gifts !! idx) indices.

(** *** Memo coverage (lines 826-996) *)

(** [s.split(/[,，\s]+/).map(k => k.trim()).filter(k => k && k.length > 0)] *)
Definition keywords (s : jsstring) : list jsstring :=
  filter (λ k, nonEmpty k = true)
    (map trim (splitRuns (λ c, (c =? 44)%N || (c =? 65292)%N || isSpace c) s)).

(** Lines 853-869. *)
Definition memoRelated (kws : list jsstring) (gift : Gift) : bool :=
  let metadata := gift_metadata gift in
  let name := orElse (meta_name metadata) (meta_product_name metadata) in
  let category := meta_category metadata in
  let document := orElse (gift_document gift) (meta_unified_text metadata) in
  let searchText := toLowerCase (name ++ 32%N :: category ++ 32%N :: document) in
  existsb (λ keyword, nonEmpty keyword && includes searchText (toLowerCase keyword)) kws.

(** [uniqueIndices.filter((idx) => related.includes(idx)).length] *)
Definition countIn (related indices : list nat) : nat :=
  length (filter (λ idx, idx ∈ related) indices).

(** Lines 903-917, step 1: a memo-related gift is forced in when the
    ranking has none. *)
Definition forceMemo (memoRelatedGifts uniqueIndices : list nat) : list nat :=
  if (countIn memoRelatedGifts uniqueIndices =? 0) && (0 <? length memoRelatedGifts) then
    let availableMemoGifts := filter (λ idx, idx ∉ uniqueIndices) memoRelatedGifts in
    match availableMemoGifts with
    | a :: _ => [a]
    | [] => take 1 memoRelatedGifts
    end
  else [].

(** Lines 919-938, step 2: the same for the additional memo. *)
Definition forceAddMemo (addMemoRelatedGifts uniqueIndices finalIndices : list nat)
  : list nat :=
  if (countIn addMemoRelatedGifts uniqueIndices =? 0)
     && (0 <? length addMemoRelatedGifts) then
    let availableAddMemoGifts :=
      filter (λ idx, (idx ∉ finalIndices) ∧ (idx ∉ uniqueIndices)) addMemoRelatedGifts in
    match availableAddMemoGifts with
    | a :: _ => finalIndices ++ [a]
    | [] =>
        let existingAddMemoGifts :=
          filter (λ idx, idx ∈ uniqueIndices) addMemoRelatedGifts in
        finalIndices ++ take 1 existingAddMemoGifts
    end
  else finalIndices.

(** Lines 945-961. *)
Definition rankedMemoGifts (memoRelatedGifts uniqueIndices finalIndices : list nat)
  : list nat :=
  filter (λ idx, (idx ∈ memoRelatedGifts) ∧ (idx ∉ finalIndices)) uniqueIndices.

Definition rankedAddMemoGifts
    (memoRelatedGifts addMemoRelatedGifts uniqueIndices finalIndices : list nat)
  : list nat :=
  filter (λ idx, (idx ∈ addMemoRelatedGifts) ∧ (idx ∉ memoRelatedGifts)
                 ∧ (idx ∉ finalIndices)) uniqueIndices.

Definition rankedOtherGifts
    (memoRelatedGifts addMemoRelatedGifts uniqueIndices finalIndices : list nat)
  : list nat :=
  filter (λ idx, (idx ∉ memoRelatedGifts) ∧ (idx ∉ addMemoRelatedGifts)
                 ∧ (idx ∉ finalIndices)) uniqueIndices.

(** Lines 964-970 and 971-977: the first ranked gift of a kind is kept when
    [finalIndices] has none of that kind. *)
Definition ensureFrom (related ranked finalIndices : list nat) : list nat :=
  if (countIn related finalIndices =? 0) && (0 <? length ranked)
  then finalIndices ++ take 1 ranked
  else finalIndices.

(** Lines 900-987: [finalIndices]. *)
Definition coverageIndices (memoRelatedGifts addMemoRelatedGifts uniqueIndices : list nat)
    (topN : nat) : list nat :=
  let finalIndices := forceMemo memoRelatedGifts uniqueIndices in
  let finalIndices := forceAddMemo addMemoRelatedGifts uniqueIndices finalIndices in
  let rankedMemo := rankedMemoGifts memoRelatedGifts uniqueIndices finalIndices in
  let rankedAddMemo :=
    rankedAddMemoGifts memoRelatedGifts addMemoRelatedGifts uniqueIndices finalIndices in
  let rankedOther :=
    rankedOtherGifts memoRelatedGifts addMemoRelatedGifts uniqueIndices finalIndices in
  let finalIndices := ensureFrom memoRelatedGifts rankedMemo finalIndices in
  let finalIndices := ensureFrom addMemoRelatedGifts rankedAddMemo finalIndices in
  let remainingSlots := (Z.of_nat topN - Z.of_nat (length finalIndices))%Z in
  let candidates :=
    filter (λ idx, idx ∉ finalIndices)
      (drop 1 rankedMemo ++ drop 1 rankedAddMemo ++ rankedOther) in
  finalIndices ++ sliceTo remainingSlots candidates.

(** *** [rerankGifts] (lines 304-1137)

    [apiKey] is [process.env.OPENAI_API_KEY] being set; [backend] is what the
    one request of the call gives.  The prompt is text for the backend only
    and is not modelled: the theorems hold for every reply. *)

(** Lines 826-1063. *)
Definition coverageApplies (originalData : OriginalData) : bool :=
  let memo := trim (memo originalData) in
  let addMemo := trim (addMemo originalData) in
  nonEmpty memo && nonEmpty addMemo
  && negb (eqb memo NO_INFO) && negb (eqb addMemo NO_INFO).

(** Lines 692-790: the model's ranking as positions of [gifts].  [None]
    stands for each of the five places that return the fallback: the text
    does not parse, the value is not an array, the array is empty, no index
    is valid, no index is left. *)
Definition readRanking (filteredIndices : list nat) (filteredLength topN : nat)
    (content : jsstring) : option (list nat) :=
  match JSON_parse (cleanRanking content) with
  | Some (JArr rankedIndices) =>
      match rankedIndices with
      | [] => None
      | _ =>
          let validIndices :=
            take topN (omap (toValidIndex filteredLength) rankedIndices) in
          let originalIndices :=
            omap (λ filteredIdx, filteredIndices !! filteredIdx) validIndices in
          match validIndices with
          | [] => None
          | _ =>
              match uniqueLoop ∅ originalIndices with
              | [] => None
              | uniqueIndices => Some uniqueIndices
              end
          end
      end
  | _ => None
  end.

Definition rerankGifts (apiKey : bool) (gifts : list Gift) (personaString : jsstring)
    (originalData : OriginalData) (topN : nat)
    (preferenceProfile : option PreferenceProfile) (backend : completion)
  : outcome (list Gift) :=
  if negb apiKey then Throw ApiKeyNotConfigured
  else if length gifts =? 0 then Return []
  else if length gifts <=? topN then Return gifts
  else
    let filteredIndices := prefilterIndices gifts preferenceProfile in
    let filteredGifts := prefilterGifts gifts preferenceProfile in
    (* the [catch] of lines 1130-1136 *)
    let catchAll := Return (take topN gifts) in
    match backend with
    | RequestFailed | NoChoices => catchAll
    | Content content =>
        match readRanking filteredIndices (length filteredGifts) topN content with
        | None => Return (fallbackTopN gifts filteredGifts filteredIndices topN)
        | Some uniqueIndices =>
            let rankedGifts := omap (λ idx, gifts !! idx) uniqueIndices in
            if hasLikes preferenceProfile then
              Return (dedupGifts (take topN rankedGifts))
            else if coverageApplies originalData then
              let memoKeywords := keywords (trim (memo originalData)) in
              let addMemoKeywords := keywords (trim (addMemo originalData)) in
              let memoRelatedGifts := indicesWhere (memoRelated memoKeywords) gifts in
              let addMemoRelatedGifts :=
                indicesWhere (memoRelated addMemoKeywords) gifts in
              let finalIndices :=
                coverageIndices memoRelatedGifts addMemoRelatedGifts uniqueIndices topN in
              match dedupIndices gifts (take topN finalIndices) with
              | Some finalGifts => Return finalGifts
              | None => catchAll
              end
            else
              match dedupIndices gifts uniqueIndices with
              | Some finalGifts => Return finalGifts
              | None => catchAll
              end
        end
    end.

(** *** [generateGiftRationale] (lines 1146-1301) *)

(** The returned [{title, description}]; a parsed reply may hold any JSON
    value in either field. *)
Record Rationale : Type := {
  title : json;
  description : json
}.

(** [rationale.title]: [None] is [undefined]; reading a field of [null]
    throws. *)
Definition field (k : jsstring) (v : json) : option json :=
  match v with
  | JObj kv => getMember k kv
  | _ => None
  end.

Definition isTruthy (v : option json) : bool :=
  match v with Some x => truthy x | None => false end.

(** Lines 1279-1290. *)
Definition fallbackRationale (gift : Gift) (personaString : jsstring)
    (originalData : OriginalData) : Rationale :=
  let metadata := gift_metadata gift in
  let giftName := orElse (orElse (meta_name metadata) (meta_product_name metadata)) GIFT_WORD in
  let category := meta_category metadata in
  let fallbackTitle :=
    if nonEmpty (addMemo originalData) && negb (eqb (addMemo originalData) NO_INFO)
    then default [] (head (splitChar (λ c, (c =? 95)%N) (addMemo originalData)))
    else orElse category RECOMMENDED_GIFT in
  let fallbackDesc := personaString ++ FITTING ++ giftName ++ IS_RECOMMENDED in
  {| title := JStr fallbackTitle; description := JStr fallbackDesc |}.

(** Lines 1294-1299. *)
Definition errorRationale (gift : Gift) (personaString : jsstring) : Rationale :=
  {| title := JStr (orElse (meta_category (gift_metadata gift)) RECOMMENDED_GIFT);
     description := JStr (personaString ++ FITTING_RECOMMENDED) |}.

(** Line 1268: [rationale.title && rationale.description]. *)
Definition validRationale (rationale : json) : bool :=
  isTruthy (field (lit "title") rationale)
  && isTruthy (field (lit "description") rationale).

Definition generateGiftRationale (apiKey : bool) (gift : Gift)
    (personaString : jsstring) (originalData : OriginalData) (backend : completion)
  : outcome Rationale :=
  if negb apiKey then Throw ApiKeyNotConfigured
  else
    match backend with
    | RequestFailed => Return (errorRationale gift personaString)
    | NoChoices => Return (fallbackRationale gift personaString originalData)
    | Content content =>
        match JSON_parse (cleanReply content) with
        | Some rationale =>
            if validRationale rationale
            then Return {| title := default JNull (field (lit "title") rationale);
                           description := default JNull (field (lit "description") rationale) |}
            else Return (fallbackRationale gift personaString originalData)
        | None => Return (fallbackRationale gift personaString originalData)
        end
    end.

End WithHost.

End LlmService.

(** * Specification vocabulary

    The predicates the theorems are stated with. *)

Import LlmClient LlmService.

Section Vocabulary.
Context `{Host}.

(** [res] is the pool read at the positions [idxs], in that order. *)
Definition selects (gifts : list Gift) (idxs : list nat) (res : list Gift) : Prop :=
  Forall2 (λ i g, gifts !! i = Some g) idxs res.

(** Two candidates are the same gift for the de-duplication rule: they share
    a non-empty product id, or a non-empty normalized name. *)
Definition sameGift (g h : Gift) : Prop :=
  (productId g ≠ [] ∧ productId g = productId h)
  ∨ (productName g ≠ [] ∧ productName g = productName h).

Definition noTwoSame (l : list Gift) : Prop :=
  ∀ i j g h, i ≠ j → l !! i = Some g → l !! j = Some h → ¬ sameGift g h.

Fixpoint allDistinct (l : list Gift) : Prop :=
  match l with
  | [] => True
  | g :: r => (∀ h, h ∈ r → ¬ sameGift g h) ∧ allDistinct r
  end.

(** [x] sits in one of the first two slots of [F]. *)
Definition early (F : list nat) (x : nat) : Prop := ∃ p, p < 2 ∧ F !! p = Some x.

(** The model's ranking is usable: the reply parses to a non-empty array
    that holds a valid index. *)
Definition rankingUsable (gifts : list Gift) (topN : nat)
    (profile : option PreferenceProfile) (backend : completion) : Prop :=
  match backend with
  | Content content =>
      is_Some (readRanking (prefilterIndices gifts profile)
                 (length (prefilterGifts gifts profile)) topN content)
  | _ => False
  end.

(** What [rerankGifts] returns on a usable ranking [uniqueIndices]. *)
Definition rankedResult (gifts : list Gift) (originalData : OriginalData) (topN : nat)
    (preferenceProfile : option PreferenceProfile) (uniqueIndices : list nat)
  : list Gift :=
  if hasLikes preferenceProfile then
    dedupGifts (take topN (omap (λ idx, gifts !! idx) uniqueIndices))
  else if coverageApplies originalData then
    dedupGifts
      (omap (λ idx, gifts !! idx)
         (take topN
            (coverageIndices
               (indicesWhere (memoRelated (keywords (trim (memo originalData)))) gifts)
               (indicesWhere (memoRelated (keywords (trim (addMemo originalData)))) gifts)
               uniqueIndices topN)))
  else dedupGifts (omap (λ idx, gifts !! idx) uniqueIndices).

End Vocabulary.

(** A character that is no backtick, comma, brace or bracket. *)
Definition plainChar (c : N) : bool :=
  negb ((c =? 96) || (c =? 44) || (c =? 91) || (c =? 93) || (c =? 123) || (c =? 125))%N.

Definition plainString (s : jsstring) : bool := forallb plainChar s.

(** Every string of the value, key or not, is plain. *)
Fixpoint plainValue (v : json) : bool :=
  match v with
  | JStr s => plainString s
  | JArr l => forallb plainValue l
  | JObj kv => forallb (λ p, plainString (fst p) && plainValue (snd p)) kv
  | _ => true
  end.

Fixpoint objectFree (v : json) : bool :=
  match v with
  | JObj _ => false
  | JArr l => forallb objectFree l
  | _ => true
  end.

(** The value is an object, or holds no object at all. *)
Definition extractable (v : json) : bool :=
  match v with
  | JObj _ => true
  | _ => objectFree v
  end.

(** The text is an object, or an array without an opening brace, or has
    neither an opening brace nor an opening bracket. *)
Definition wholeCandidate (t : jsstring) : Prop :=
  (∃ body, t = 123%N :: body ++ [125%N])
  ∨ ((123%N ∉ t) ∧ ∃ body, t = 91%N :: body ++ [93%N])
  ∨ ((123%N ∉ t) ∧ 91%N ∉ t).

(** The characters a number is written with. *)
Definition numChar (c : N) : bool :=
  isDigit c || (c =? 45)%N || (c =? 43)%N || (c =? 46)%N || (c =? 101)%N.

(** The text starts with a character that is neither white space nor a
    closing brace or bracket. *)
Definition goodStart (s : jsstring) : Prop :=
  ∃ c r, s = c :: r ∧ isSpace c = false ∧ c ≠ 125%N ∧ c ≠ 93%N.

(** No comma of [s] is dropped, whatever follows [s]. *)
Definition commaSafe (s : jsstring) : Prop :=
  ∀ r, stripTrailingCommas (s ++ r) = s ++ stripTrailingCommas r.

(** The text holds two code fences, one after the other. *)
Definition fenced (t : jsstring) : Prop :=
  ∃ a b c, t = a ++ fence ++ b ++ fence ++ c.

(** The text holds the code unit [o] and, somewhere after it, [c]. *)
Definition pairIn (o c : N) (t : jsstring) : Prop :=
  ∃ a b d, t = a ++ o :: b ++ c :: d.

(** The text holds a comma that only white space separates from a closing
    brace or bracket. *)
Definition danglingComma (t : jsstring) : Prop :=
  ∃ a w c d,
    t = a ++ 44%N :: w ++ c :: d
    ∧ forallb isSpace w = true ∧ (c = 125%N ∨ c = 93%N).

(** The first-brace-to-last-brace and first-bracket-to-last-bracket spans of
    lines 83-90 do not cut the serialization of [v]: [v] is an object; or an
    array whose text has no opening brace before a closing one; or a string
    whose text has neither such a pair of braces nor such a pair of
    brackets; or a number, a boolean or [null]. *)
Definition spanWhole (v : json) : Prop :=
  match v with
  | JObj _ => True
  | JArr _ => ¬ pairIn 123 125 (stringify v)
  | JStr _ => (¬ pairIn 123 125 (stringify v)) ∧ ¬ pairIn 91 93 (stringify v)
  | _ => True
  end.

(** * Example data

    The pool of the specification's example, and the inputs of the closed
    examples at the end of the file. *)

Definition mkGift (id name category : string) : Gift :=
  {| gift_id := lit id; gift_name := []; gift_document := [];
     gift_metadata :=
       {| meta_name := lit name; meta_product_name := [];
          meta_category := lit category; meta_unified_text := [];
          meta_productId := []; meta_id := [] |} |}.

Definition golfClubs : Gift := mkGift "g1" "Golf Clubs" "sport".
Definition wineSet : Gift := mkGift "g2" "Wine Set" "drink".
Definition golfBag : Gift := mkGift "g3" "Golf Bag" "sport".
Definition candleSet : Gift := mkGift "g4" "Candle Set" "home".
Definition backSupport : Gift := mkGift "g5" "Back Support" "health".

Definition pool5 : list Gift := [golfClubs; wineSet; golfBag; candleSet; backSupport].

(** The same product listed twice, and a different product under the same
    name. *)
Definition wineSetAgain : Gift := mkGift "g2" "Wine Set (2 bottles)" "drink".
Definition wineSetCopy : Gift := mkGift "g9" " wine set" "gift".

Definition noMemo : OriginalData :=
  {| rank := []; gender := []; memo := []; addMemo := [] |}.

Definition wineAndCandle : OriginalData :=
  {| rank := []; gender := []; memo := lit "wine"; addMemo := lit "candle" |}.

Definition birthday : OriginalData :=
  {| rank := []; gender := []; memo := lit "wine"; addMemo := lit "birthday_party" |}.

Definition likesGolf : option PreferenceProfile :=
  Some {| likes := [ {| item := lit "golf"; evidence := [lit "plays golf"] |} ];
          dislikes := [ {| item := lit "candle"; evidence := [] |} ];
          uncertain := [] |}.

Definition persona : jsstring := lit "A manager who enjoys golf".

(** A serialized array of three objects, and a serialized object with a
    known key. *)
Definition threeObjects : json :=
  JArr [JObj [(lit "a", JNum 1 0)]; JObj [(lit "b", JNum 2 0)];
        JObj [(lit "c", JNum 3 0)]].

Definition giftsObject : json := JObj [(lit "gifts", threeObjects)].

Definition commaBrace : json := JStr (lit "a,}").

Definition plainObject : json :=
  JObj [(lit "title", JStr (lit "wine lover"));
        (lit "scores", JArr [JNum 1 0; JNum 25 (-1); JBool true; JNull])].

(** An object and an array whose strings hold commas, braces, brackets and
    one code fence. *)
Definition helloWorld : json :=
  JObj [(lit "title", JStr (lit "Hello, world {x} [y] ```"));
        (lit "tags", JArr [JStr (lit "a, b"); JNum 1 0])].

Definition commaArray : json := JArr [JStr (lit "a, b }"); JNum 1 0].

(** * services/llm.service.js: the other entry points

    [extractSearchKeywords] with its fallback [extractKeywordsFallback],
    [extractPreferencesFromMemo], and [processLLMChat] with the two providers
    it dispatches to. *)

Module LlmServiceMore.

(** *** [extractKeywordsFallback] (lines 1428-1468) *)

(** [" 선물"] *)
Definition GIFT_SUFFIX : jsstring := [32; 49440; 47932]%N.
(** ["선물 추천"] *)
Definition DEFAULT_KEYWORD : jsstring := [49440; 47932; 32; 52628; 52380]%N.

(** The alternatives of the two patterns of lines 1441-1442:
    [좋아함|좋아해|즐김|즐겨|좋아하|관심] and [있음|있어|없음|없어]. *)
Definition likeWords : list jsstring :=
  [[51339; 50500; 54632]; [51339; 50500; 54644]; [51600; 44608];
   [51600; 44200]; [51339; 50500; 54616]; [44288; 49900]]%N.

Definition haveWords : list jsstring :=
  [[51080; 51020]; [51080; 50612]; [50630; 51020]; [50630; 50612]]%N.

(** ["생일", "승진", "감사", "결혼", "출산", "졸업", "취업"] *)
Definition occasions : list jsstring :=
  [[49373; 51068]; [49849; 51652]; [44048; 49324]; [44208; 54844];
   [52636; 49328]; [51320; 50629]; [52712; 50629]]%N.

(** [(w1|w2|...)] at the head of [s]: the length of the first alternative
    that matches. *)
Definition wordAt (words : list jsstring) (s : jsstring) : option nat :=
  (λ p, length (snd p)) <$> list_find (λ w, startsWith w s = true) words.

(** [\s*(w1|w2|...)] at the head of [s]: the length of the match.  No
    alternative starts with white space, so the match can only take the whole
    run of white space. *)
Fixpoint spacesThenWord (words : list jsstring) (s : jsstring) : option nat :=
  match s with
  | c :: r => if isSpace c then S <$> spacesThenWord words r else wordAt words s
  | [] => wordAt words []
  end.

(** [p?\s*(w1|w2|...)] at the head of [s]: the particle is taken when the
    rest matches after it, and left out otherwise. *)
Definition particleWord (particle : N) (words : list jsstring) (s : jsstring)
  : option nat :=
  match s with
  | c :: r =>
      if (c =? particle)%N then
        match spacesThenWord words r with
        | Some n => Some (S n)
        | None => spacesThenWord words s
        end
      else spacesThenWord words s
  | [] => spacesThenWord words s
  end.

(** [s.replace(/pattern/g, "")] for a pattern that matches no empty text:
    [matchAt] gives the length of the match at the head of a text, and
    [skip] counts the code units of the current match still to be
    dropped. *)
Fixpoint removeAll (matchAt : jsstring → option nat) (skip : nat) (s : jsstring)
  : jsstring :=
  match s with
  | [] => []
  | c :: r =>
      match skip with
      | S k => removeAll matchAt k r
      | 0 =>
          match matchAt s with
          | Some (S n) => removeAll matchAt n r
          | _ => c :: removeAll matchAt 0 r
          end
      end
  end.

(** Lines 1440-1443. *)
Definition cleanMemo (memo : jsstring) : jsstring :=
  trim (removeAll (particleWord 51060 haveWords) 0
          (removeAll (particleWord 47484 likeWords) 0 memo)).

Definition extractKeywordsFallback (personaData : OriginalData) (userQuery : jsstring)
  : list jsstring :=
  let memo := memo personaData in
  let addMemo := addMemo personaData in
  let keywords := [] in
  let keywords :=
    if nonEmpty userQuery && nonEmpty (trim userQuery)
    then keywords ++ [trim userQuery] else keywords in
  let keywords :=
    if nonEmpty memo && nonEmpty (trim memo) then
      let cleaned := cleanMemo memo in
      if nonEmpty cleaned then keywords ++ [cleaned ++ GIFT_SUFFIX] else keywords
    else keywords in
  let keywords :=
    if nonEmpty addMemo && nonEmpty (trim addMemo) then
      match list_find (λ occasion, includes addMemo occasion = true) occasions with
      | Some (_, occasion) => keywords ++ [occasion ++ GIFT_SUFFIX]
      | None => keywords
      end
    else keywords in
  if length keywords =? 0 then [DEFAULT_KEYWORD] else keywords.

Section WithHost.
Context `{Host}.

(** *** [extractSearchKeywords] (lines 1313-1420) *)

(** Lines 1405-1407: [typeof k === "string" && k.trim() !== ""]. *)
Definition keywordOf (k : json) : option jsstring :=
  match k with
  | JStr s => if nonEmpty (trim s) then Some s else None
  | _ => None
  end.

Definition extractSearchKeywords (apiKey : bool) (personaData : OriginalData)
    (userQuery : jsstring) (backend : completion) : list jsstring :=
  if negb apiKey then extractKeywordsFallback personaData userQuery
  else
    match backend with
    | RequestFailed | NoChoices => extractKeywordsFallback personaData userQuery
    | Content content =>
        let cleanedResult := cleanReply content in
        let cleanedResult :=
          match arrayMatch cleanedResult with
          | Some a => a
          | None => cleanedResult
          end in
        match JSON_parse cleanedResult with
        | Some (JArr (k :: ks)) => omap keywordOf (k :: ks)
        | _ => extractKeywordsFallback personaData userQuery
        end
    end.

(** *** [extractPreferencesFromMemo] (lines 1474-1577) *)

(** A normalized entry; [weight] is the decimal [m * 10^e], as in [JNum]. *)
Record Preference : Type := {
  pref_item : jsstring;
  pref_evidence : list jsstring;
  pref_weight : Z * Z
}.

Record Preferences : Type := {
  pref_likes : list Preference;
  pref_dislikes : list Preference;
  pref_uncertain : list Preference
}.

(** [{ likes: [], dislikes: [], uncertain: [] }] *)
Definition noPreferences : Preferences :=
  {| pref_likes := []; pref_dislikes := []; pref_uncertain := [] |}.

(** ["[object Object]"] *)
Definition OBJECT_OBJECT : jsstring :=
  [91; 111; 98; 106; 101; 99; 116; 32; 79; 98; 106; 101; 99; 116; 93]%N.

(** [String(v)] of a parsed value: an array is its elements joined by
    commas, [null] among them being the empty string. *)
Fixpoint toString (v : json) : jsstring :=
  match v with
  | JNull => lit "null"
  | JBool true => lit "true"
  | JBool false => lit "false"
  | JNum m e => numChars m e
  | JStr s => s
  | JArr l =>
      joinComma (map (λ x, match x with JNull => [] | _ => toString x end) l)
  | JObj _ => OBJECT_OBJECT
  end.

(** [v.k] of a parsed value that is not [null]: a primitive or an array has
    no such member. *)
Definition member (k : string) (v : json) : option json :=
  match v with
  | JObj kv => getMember (lit k) kv
  | _ => None
  end.

(** [normalizeItem] (lines 1545-1557).  The outer [None] is the [TypeError]
    of [item.item] on [null], whose [typeof] is ['object']; the inner [None]
    is the [null] that is returned. *)
Definition normalizeItem (item : json) : option (option Preference) :=
  match item with
  | JStr s =>
      Some (Some {| pref_item := s; pref_evidence := [s]; pref_weight := (7, -1)%Z |})
  | JNull => None
  | JObj _ | JArr _ =>
      match member "item" item with
      | Some it =>
          if truthy it then
            Some (Some
              {| pref_item := toString it;
                 pref_evidence :=
                   match member "evidence" item with
                   | Some (JArr l) => map toString l
                   | Some e => [if truthy e then toString e else []]
                   | None => [[]]
                   end;
                 pref_weight :=
                   match member "weight" item with
                   | Some (JNum m e) => (m, e)
                   | _ => (7, -1)%Z
                   end |})
          else Some None
      | None => Some None
      end
  | JBool _ | JNum _ _ => Some None
  end.

(** [normalizeArray] (lines 1559-1562). *)
Definition normalizeArray (arr : json) : option (list Preference) :=
  match arr with
  | JArr l =>
      items ← mapM normalizeItem l;
      Some (filter (λ p, nonEmpty (trim (pref_item p)) = true) (omap id items))
  | _ => Some []
  end.

(** [parsed.k || []]; reading a member of [null] throws, which is [None]. *)
Definition memberOrEmpty (k : string) (parsed : json) : option json :=
  match parsed with
  | JNull => None
  | _ =>
      match member k parsed with
      | Some v => Some (if truthy v then v else JArr [])
      | None => Some (JArr [])
      end
  end.

(** Lines 1564-1568; [None] is an exception, which the [catch] of line 1572
    turns into the empty preferences. *)
Definition normalizeParsed (parsed : json) : option Preferences :=
  likes ← memberOrEmpty "likes" parsed ≫= normalizeArray;
  dislikes ← memberOrEmpty "dislikes" parsed ≫= normalizeArray;
  uncertain ← memberOrEmpty "uncertain" parsed ≫= normalizeArray;
  Some {| pref_likes := likes; pref_dislikes := dislikes; pref_uncertain := uncertain |}.

Definition extractPreferencesFromMemo (apiKey : bool) (backend : completion)
  : Preferences :=
  if negb apiKey then noPreferences
  else
    match backend with
    | RequestFailed | NoChoices => noPreferences
    | Content content =>
        match JSON_parse (cleanReply content) with
        | Some parsed => default noPreferences (normalizeParsed parsed)
        | None => noPreferences
        end
    end.

End WithHost.

(** *** [processLLMChat] (lines 11-130) *)

Record Message : Type := {
  msg_role : jsstring;
  msg_content : jsstring
}.

(** The mock reply of line 1583. *)
Definition mockLLMResponse : jsstring :=
  [50504; 45397; 54616; 49464; 50836; 33; 32; 71; 80; 84; 45; 52; 98; 51077;
   45768; 45796; 46; 32; 50612; 46523; 44172; 32; 46020; 50752; 46300; 47540;
   44620; 50836; 63; 32]%N
  ++ lit "(This is a mock response. Please configure LLM API keys in .env file)".

(** Lines 39-49: the messages as OpenAI takes them. *)
Definition formatForGPT (messages : list Message) : list Message :=
  map (λ msg,
         {| msg_role := if eqb (msg_role msg) (lit "model") then lit "assistant"
                        else msg_role msg;
            msg_content := msg_content msg |}) messages.

(** Lines 97-107: the messages as Gemini takes them, [parts] holding the one
    text. *)
Definition formatForGemini (messages : list Message) : list Message :=
  map (λ msg,
         {| msg_role := if eqb (msg_role msg) (lit "assistant")
                           || eqb (msg_role msg) (lit "system")
                        then lit "model" else lit "user";
            msg_content := msg_content msg |}) messages.

(** What a provider answers to the request it is sent: the request fails, the
    reply holds no choice (no candidate), or the first one holds a text, as
    the two APIs give it.  A first choice without the [message] or [content]
    object makes the read throw, which is a failed request. *)
Definition provider : Type := list Message → completion.

(** The message of the error that leaves [processWithGPT]; [processLLMChat]
    replaces it. *)
Inductive chatResult : Type :=
| ChatText (text : jsstring)
| ChatError (message : jsstring).

(** Lines 31-84.  Every error of the request is thrown again with a message
    of its own, which [gptError] stands for. *)
Definition processWithGPT (openaiKey : bool) (openai : provider)
    (gptError : jsstring) (messages : list Message) : chatResult :=
  if negb openaiKey then ChatText mockLLMResponse
  else
    match openai (formatForGPT messages) with
    | Content text => ChatText text
    | NoChoices => ChatError (lit "OpenAI API Error: OpenAI API returned no choices")
    | RequestFailed => ChatError gptError
    end.

(** Lines 89-130. *)
Definition processWithGemini (geminiKey : bool) (gemini : provider)
    (messages : list Message) : chatResult :=
  if negb geminiKey then ChatText mockLLMResponse
  else
    match gemini (formatForGemini messages) with
    | Content text => ChatText text
    | NoChoices | RequestFailed => ChatText mockLLMResponse
    end.

(** Lines 11-26. *)
Definition processLLMChat (openaiKey geminiKey : bool) (openai gemini : provider)
    (gptError : jsstring) (messages : list Message) (providerName : jsstring)
  : chatResult :=
  let inner :=
    if eqb providerName (lit "gpt") then
      processWithGPT openaiKey openai gptError messages
    else if eqb providerName (lit "gemini") then
      processWithGemini geminiKey gemini messages
    else ChatError (lit "Unsupported LLM provider: " ++ providerName
                    ++ lit ". Supported providers: 'gpt', 'gemini'.") in
  match inner with
  | ChatText text => ChatText text
  | ChatError _ => ChatError (lit "LLM processing failed")
  end.

End LlmServiceMore.

(** * The gift recommendation service (src/unnamed/part_002), which calls
    [rerankGifts] and [generateGiftRationale] *)

Module GiftRecommend.

(** [GIFT_CONFIG.RERANK_THRESHOLD] and [GIFT_CONFIG.DEFAULT_TOP_N] of
    config/gift.config.js. *)
Definition RERANK_THRESHOLD : nat := 3.
Definition DEFAULT_TOP_N : nat := 3.

(** [" > "] *)
Definition CATEGORY_SEPARATOR : jsstring := [32; 62; 32]%N.
(** [" 검색 결과로 추천드립니다."] *)
Definition SEARCH_RESULT : jsstring :=
  [32; 44160; 49353; 32; 44208; 44284; 47196; 32; 52628; 52380; 46300; 47549;
   45768; 45796; 46]%N.
(** ["추천 선물입니다."] *)
Definition IS_RECOMMENDED_GIFT : jsstring :=
  [52628; 52380; 32; 49440; 47932; 51077; 45768; 45796; 46]%N.
(** ["ID 중복: "] and ["이름 중복: "] *)
Definition ID_DUPLICATE : jsstring := [73; 68; 32; 51473; 48373; 58; 32]%N.
Definition NAME_DUPLICATE : jsstring := [51060; 47492; 32; 51473; 48373; 58; 32]%N.

Record RationaleCard : Type := {
  card_id : nat;
  card_title : json;
  card_description : json
}.

Record Duplicate : Type := {
  dup_gift : Gift;
  dup_reason : jsstring
}.

(** [s.split(sep)[0]]: the text before the first [sep], all of it when there
    is none. *)
Definition beforeFirst (sep s : jsstring) : jsstring :=
  match indexOf sep s with
  | Some i => take i s
  | None => s
  end.

(** The card of lines 122-128, 134-140 and 166-172. *)
Definition fallbackCard (searchQuery fallbackDesc : jsstring) (idx : nat) (gift : Gift)
  : RationaleCard :=
  {| card_id := idx + 1;
     card_title :=
       JStr (orElse (beforeFirst CATEGORY_SEPARATOR (meta_category (gift_metadata gift)))
               RECOMMENDED_GIFT);
     card_description :=
       JStr (if nonEmpty searchQuery then 34%N :: searchQuery ++ 34%N :: SEARCH_RESULT
             else orElse fallbackDesc IS_RECOMMENDED_GIFT) |}.

Section WithHost.
Context `{Host}.

(** Lines 149-174, the callback of one gift: [None] is a promise that never
    settles; the [catch] of the callback leaves no other failure. *)
Definition rationaleCard (apiKey : bool) (personaString : jsstring)
    (personaData : OriginalData) (searchQuery fallbackDesc : jsstring)
    (rationaleBackend : nat → completion) (idx : nat) (gift : Gift)
  : option RationaleCard :=
  match generateGiftRationale apiKey gift personaString personaData
          (rationaleBackend idx) with
  | Return rationale =>
      Some {| card_id := idx + 1;
              card_title := title rationale;
              card_description := description rationale |}
  | Throw _ => Some (fallbackCard searchQuery fallbackDesc idx gift)
  | Hang => None
  end.

(** Lines 88-179.  [rerankBackend] answers the request of [rerankGifts],
    [rationaleBackend idx] the request made for the gift at position
    [idx]. *)
Definition performRerankingAndGenerateRationale (apiKey : bool)
    (allGifts : list Gift) (personaString : jsstring) (personaData : OriginalData)
    (preferenceProfile : option PreferenceProfile) (topN : nat)
    (searchQuery fallbackDesc : jsstring)
    (rerankBackend : completion) (rationaleBackend : nat → completion)
  : outcome (list Gift * list RationaleCard) :=
  if RERANK_THRESHOLD <? length allGifts then
    match rerankGifts apiKey allGifts personaString personaData topN
            preferenceProfile rerankBackend with
    | Return recommendedGifts =>
        match mapM id (imap (rationaleCard apiKey personaString personaData
                               searchQuery fallbackDesc rationaleBackend)
                         recommendedGifts) with
        | Some rationaleCards => Return (recommendedGifts, rationaleCards)
        | None => Hang
        end
    | Throw _ =>
        let recommendedGifts := take topN allGifts in
        Return (recommendedGifts,
                imap (fallbackCard searchQuery fallbackDesc) recommendedGifts)
    | Hang => Hang
    end
  else
    Return (allGifts, imap (fallbackCard searchQuery fallbackDesc) allGifts).

(** [removeDuplicateGifts] (lines 214-274): the loop, from the two sets of
    what has been seen. *)
Fixpoint removeLoop (seenProductIds seenProductNames : gset jsstring)
    (gifts : list Gift) : list Gift * list Duplicate :=
  match gifts with
  | [] => ([], [])
  | gift :: r =>
      let pid := productId gift in
      let pname := productName gift in
      let dupId := nonEmpty pid && bool_decide (pid ∈ seenProductIds) in
      let seenProductIds' :=
        if nonEmpty pid && negb dupId then {[pid]} ∪ seenProductIds
        else seenProductIds in
      let dupName :=
        negb dupId && nonEmpty pname && bool_decide (pname ∈ seenProductNames) in
      let seenProductNames' :=
        if negb dupId && nonEmpty pname && negb dupName
        then {[pname]} ∪ seenProductNames
        else seenProductNames in
      let '(uniqueGifts, duplicates) :=
        removeLoop seenProductIds' seenProductNames' r in
      if dupId then
        (uniqueGifts,
         {| dup_gift := gift; dup_reason := ID_DUPLICATE ++ pid |} :: duplicates)
      else if dupName then
        (uniqueGifts,
         {| dup_gift := gift; dup_reason := NAME_DUPLICATE ++ pname |} :: duplicates)
      else (gift :: uniqueGifts, duplicates)
  end.

Definition removeDuplicateGifts (gifts : list Gift) : list Gift * list Duplicate :=
  removeLoop ∅ ∅ gifts.

End WithHost.

End GiftRecommend.

(** * Vocabulary of the theorems on the services above *)

Import LlmServiceMore GiftRecommend.

(** [d] reports the gift at some position of [l] as a duplicate of an earlier
    gift of [l], with the reason that is given. *)
Definition duplicateOf `{Host} (l : list Gift) (d : Duplicate) : Prop :=
  ∃ i j g,
    i < j ∧ l !! i = Some g ∧ l !! j = Some (dup_gift d)
    ∧ ((dup_reason d = ID_DUPLICATE ++ productId (dup_gift d)
        ∧ productId g ≠ [] ∧ productId g = productId (dup_gift d))
       ∨ (dup_reason d = NAME_DUPLICATE ++ productName (dup_gift d)
          ∧ productName g ≠ [] ∧ productName g = productName (dup_gift d))).

(** The text holds a code unit that is not white space. *)
Definition nonBlank (s : jsstring) : Prop := trim s ≠ [].

(** [likesItems] of line 330 of [rerankGifts]. *)
Definition likesItemsOf `{Host} (preferenceProfile : option PreferenceProfile)
  : list jsstring :=
  filter (λ s, nonEmpty s = true)
    (map (λ l, trim (toLowerCase (item l)))
       (match preferenceProfile with Some p => likes p | None => [] end)).

(** A bracketed list of indices as the pattern of line 704 takes it: digits,
    white space and commas between the brackets. *)
Definition indexListBody (body : jsstring) : bool :=
  forallb (λ c, isDigit c || isSpace c || (c =? 44)%N) body.

Definition indexList (body : jsstring) : jsstring := 91%N :: body ++ [93%N].

(** The first code units of the words that lines 1441-1442 take out of the
    memo: 좋, 즐, 관, 있, 없. *)
Definition memoTrigger (c : N) : bool :=
  ((c =? 51339) || (c =? 51600) || (c =? 44288) || (c =? 51080) || (c =? 50630))%N.

(** The value that a host reads from the numeral of the index [i]. *)
Definition indexValue (i : nat) : json :=
  let '(m, e) := normNum (Z.of_nat i) 0 in JNum m e.

(** * [rerankGifts]: lemmas and theorems *)

Section ServiceFacts.
Context `{Host}.

Lemma NoDup_take {A} (l : list A) (n : nat) : NoDup l → NoDup (take n l).
Proof. intros Hl. eapply sublist_NoDup; [done | apply sublist_take]. Qed.

Lemma NoDup_drop {A} (l : list A) (n : nat) : NoDup l → NoDup (drop n l).
Proof. intros Hl. eapply sublist_NoDup; [done | apply sublist_drop]. Qed.

Lemma elem_of_take_1 {A} (l : list A) (n : nat) (x : A) : x ∈ take n l → x ∈ l.
Proof. rewrite elem_of_take. intros (i & Hi & _). by eapply list_elem_of_lookup_2. Qed.

Lemma elem_of_indicesWhere (p : Gift → bool) (gifts : list Gift) (i : nat) :
  i ∈ indicesWhere p gifts ↔ ∃ g, gifts !! i = Some g ∧ p g = true.
Proof.
  unfold indicesWhere. rewrite list_elem_of_filter, elem_of_seq. split.
  - intros [Hp _]. destruct (gifts !! i) as [g|] eqn:E; simpl in Hp; [eauto | done].
  - intros (g & Hg & Hp). rewrite Hg. simpl. split; [done|].
    apply lookup_lt_Some in Hg. lia.
Qed.

Lemma NoDup_indicesWhere (p : Gift → bool) (gifts : list Gift) :
  NoDup (indicesWhere p gifts).
Proof. apply NoDup_filter, NoDup_seq. Qed.

Lemma indicesWhere_lt (p : Gift → bool) (gifts : list Gift) (i : nat) :
  i ∈ indicesWhere p gifts → i < length gifts.
Proof.
  rewrite elem_of_indicesWhere. intros (g & Hg & _). by apply lookup_lt_Some in Hg.
Qed.

Lemma prefilterIndices_lt (gifts : list Gift) (profile : option PreferenceProfile) (i : nat) :
  i ∈ prefilterIndices gifts profile → i < length gifts.
Proof.
  unfold prefilterIndices. destruct (hasLikes profile).
  - rewrite elem_of_app. intros [Hi|Hi]; apply elem_of_take in Hi as (? & Hi & _);
      apply list_elem_of_lookup_2 in Hi; by apply indicesWhere_lt in Hi.
  - destruct (30 <? length gifts).
    + intros Hi. apply elem_of_take in Hi as (? & Hi & _).
      apply list_elem_of_lookup_2, elem_of_seq in Hi. lia.
    + rewrite elem_of_seq. lia.
Qed.

Lemma NoDup_prefilterIndices (gifts : list Gift) (profile : option PreferenceProfile) :
  NoDup (prefilterIndices gifts profile).
Proof.
  unfold prefilterIndices. destruct (hasLikes profile).
  - apply NoDup_app. split; [|split].
    + apply NoDup_take, NoDup_indicesWhere.
    + intros i Hi Hj.
      apply elem_of_take in Hi as (? & Hi & _). apply list_elem_of_lookup_2 in Hi.
      apply elem_of_take in Hj as (? & Hj & _). apply list_elem_of_lookup_2 in Hj.
      apply elem_of_indicesWhere in Hi as (g & Hg & Hp).
      apply elem_of_indicesWhere in Hj as (g' & Hg' & Hp').
      rewrite Hg in Hg'. injection Hg' as <-. rewrite Hp in Hp'. done.
    + apply NoDup_take, NoDup_indicesWhere.
  - destruct (30 <? length gifts); [apply NoDup_take|]; apply NoDup_seq.
Qed.

Lemma selects_elem_of gifts idxs res g :
  selects gifts idxs res → g ∈ res → g ∈ gifts.
Proof.
  intros Hs Hg. apply list_elem_of_lookup in Hg as [j Hj].
  destruct (Forall2_lookup_r _ _ _ _ _ Hs Hj) as (i & _ & Hi).
  by eapply list_elem_of_lookup_2.
Qed.

Lemma selects_omap gifts (idxs : list nat) :
  selects gifts (filter (λ i, i < length gifts) idxs) (omap (λ idx, gifts !! idx) idxs).
Proof.
  induction idxs as [|i idxs IH]; simpl; [constructor|].
  rewrite filter_cons. destruct (gifts !! i) as [g|] eqn:E.
  - rewrite decide_True by (by eapply lookup_lt_Some). by constructor.
  - rewrite decide_False; [done|]. apply lookup_ge_None in E. lia.
Qed.

Lemma selects_omap_all gifts (idxs : list nat) :
  (∀ i, i ∈ idxs → i < length gifts) →
  selects gifts idxs (omap (λ idx, gifts !! idx) idxs).
Proof.
  intros Hlt. assert (filter (λ i, i < length gifts) idxs = idxs) as Hf.
  { clear -Hlt. induction idxs as [|i idxs IH]; [done|].
    rewrite filter_cons, decide_True by (apply Hlt; left).
    f_equal. apply IH. intros j Hj. apply Hlt. by right. }
  rewrite <- Hf at 1. apply selects_omap.
Qed.

Lemma selects_take gifts idxs res n :
  selects gifts idxs res → selects gifts (take n idxs) (take n res).
Proof. apply Forall2_take. Qed.

Lemma selects_seq gifts : selects gifts (seq 0 (length gifts)) gifts.
Proof.
  apply Forall2_same_length_lookup. split; [by rewrite length_seq|].
  intros i j g Hi Hg. apply lookup_seq in Hi as [-> _]. done.
Qed.

Lemma selects_mapM gifts idxs res :
  mapM (λ idx, gifts !! idx) idxs = Some res → selects gifts idxs res.
Proof. apply mapM_Some_1. Qed.

Lemma selects_dedupLoop gifts idxs res S T :
  selects gifts idxs res →
  ∃ idxs', idxs' `sublist_of` idxs ∧ selects gifts idxs' (dedupLoop S T res).
Proof.
  intros Hs. revert S T. induction Hs as [|i g idxs res Hi Hs IH]; intros S T; simpl.
  - exists []. split; [done | constructor].
  - match goal with |- context [dedupLoop ?S' ?T' res] =>
      destruct (IH S' T') as (idxs' & Hsub & Hsel) end.
    match goal with |- context [if ?b then _ else _] => destruct b end.
    + exists idxs'. split; [by apply sublist_cons | done].
    + exists (i :: idxs'). split; [by apply sublist_skip | by constructor].
Qed.

Lemma prefilter_selects gifts profile :
  selects gifts (prefilterIndices gifts profile) (prefilterGifts gifts profile).
Proof. apply selects_omap_all. intros i. apply prefilterIndices_lt. Qed.

Lemma omap_id_on {A} (f : A → option A) (l : list A) :
  (∀ x, x ∈ l → f x = Some x) → omap f l = l.
Proof.
  induction l as [|x l IH]; intros Hf; simpl; [done|].
  rewrite (Hf x) by left. f_equal. apply IH. intros y Hy. apply Hf. by right.
Qed.

Lemma fallbackTopN_take gifts filteredGifts filteredIndices topN :
  selects gifts filteredIndices filteredGifts →
  fallbackTopN gifts filteredGifts filteredIndices topN = take topN filteredGifts.
Proof.
  intros Hs. unfold fallbackTopN. apply omap_id_on. intros g Hg.
  apply elem_of_take_1 in Hg. apply list_elem_of_lookup in Hg as [j Hj].
  unfold indexOfGift.
  destruct (list_find (λ x, x = g) filteredGifts) as [[k x]|] eqn:E.
  - apply list_find_Some in E as (Hk & -> & _). simpl.
    destruct (Forall2_lookup_r _ _ _ _ _ Hs Hk) as (i & Hi & Hgi).
    rewrite Hi. simpl. done.
  - apply list_find_None in E. rewrite Forall_forall in E.
    exfalso. eapply E; [|done]. by eapply list_elem_of_lookup_2.
Qed.

Lemma uniqueLoop_elem_of (seen : gset nat) (l : list nat) (i : nat) :
  i ∈ uniqueLoop seen l ↔ i ∈ l ∧ i ∉ seen.
Proof.
  revert seen. induction l as [|x l IH]; intros seen; simpl.
  - split; [by intros ?%elem_of_nil | by intros [?%elem_of_nil _]].
  - case_bool_decide as Hx.
    + rewrite IH, elem_of_cons. split; [naive_solver|].
      intros [[->|?] ?]; [done | naive_solver].
    + rewrite !elem_of_cons, IH. split.
      * intros [->|[? Hn]]; [naive_solver|]. split; [by right | set_solver].
      * intros [[->|Hl] Hn]; [by left|].
        destruct (decide (i = x)) as [->|Hne]; [by left|].
        right. split; [done | set_solver].
Qed.

Lemma NoDup_uniqueLoop (seen : gset nat) (l : list nat) : NoDup (uniqueLoop seen l).
Proof.
  revert seen. induction l as [|x l IH]; intros seen; simpl; [constructor|].
  case_bool_decide; [apply IH|]. constructor; [|apply IH].
  rewrite uniqueLoop_elem_of. set_solver.
Qed.

Lemma length_uniqueLoop (seen : gset nat) (l : list nat) :
  length (uniqueLoop seen l) ≤ length l.
Proof.
  revert seen. induction l as [|x l IH]; intros seen; simpl; [done|].
  pose proof (IH seen). pose proof (IH ({[x]} ∪ seen)).
  case_bool_decide; simpl; lia.
Qed.

Lemma length_omap_le {A B} (f : A → option B) (l : list A) :
  length (omap f l) ≤ length l.
Proof.
  induction l as [|x l IH]; [done|].
  change (omap f (x :: l)) with (match f x with Some y => y :: omap f l | None => omap f l end).
  destruct (f x); simpl; lia.
Qed.

Lemma elem_of_omap_lookup (l idxs : list nat) (i : nat) :
  i ∈ omap (λ k, l !! k) idxs → i ∈ l.
Proof.
  rewrite list_elem_of_omap. intros (k & _ & Hk). by eapply list_elem_of_lookup_2.
Qed.

(** What a usable ranking is. *)
Lemma readRanking_Some filteredIndices n topN content u :
  readRanking filteredIndices n topN content = Some u →
  u ≠ [] ∧ NoDup u ∧ length u ≤ topN ∧ ∀ i, i ∈ u → i ∈ filteredIndices.
Proof.
  unfold readRanking. destruct (JSON_parse _) as [[| | | |l|]|]; try done.
  destruct l as [|x l]; [done|].
  set (valid := take topN _). destruct valid as [|v valid'] eqn:Ev; [done|].
  set (orig := omap _ _). destruct (uniqueLoop ∅ orig) as [|y u'] eqn:Eu; [done|].
  intros [= <-]. split; [done|]. rewrite <- Eu. split; [apply NoDup_uniqueLoop|]. split.
  - etrans; [apply length_uniqueLoop|]. etrans; [apply length_omap_le|].
    rewrite <- Ev. subst valid. rewrite length_take. lia.
  - intros i [Hi _]%uniqueLoop_elem_of. by apply elem_of_omap_lookup in Hi.
Qed.

Lemma readRanking_unparsable filteredIndices n topN content :
  JSON_parse (cleanRanking content) = None →
  readRanking filteredIndices n topN content = None.
Proof. unfold readRanking. by intros ->. Qed.

Lemma nonEmpty_true (s : jsstring) : nonEmpty s = true ↔ s ≠ [].
Proof. by destruct s. Qed.

Lemma dedupLoop_sublist S T l : dedupLoop S T l `sublist_of` l.
Proof.
  revert S T. induction l as [|g l IH]; intros S T; simpl; [done|].
  match goal with |- context [if ?b then _ else _] => destruct b end;
    [apply sublist_cons | apply sublist_skip]; apply IH.
Qed.

Lemma length_dedupLoop S T l : length (dedupLoop S T l) ≤ length l.
Proof. apply sublist_length, dedupLoop_sublist. Qed.

Lemma dedupLoop_fresh S T l g :
  g ∈ dedupLoop S T l →
  (productId g ≠ [] → productId g ∉ S) ∧ (productName g ≠ [] → productName g ∉ T).
Proof.
  revert S T. induction l as [|x l IH]; intros S T; simpl; [by intros ?%elem_of_nil|].
  destruct (nonEmpty (productId x)) eqn:Ei; destruct (nonEmpty (productName x)) eqn:En;
    simpl; repeat case_bool_decide; simpl;
    rewrite ?elem_of_cons; intros Hg;
    repeat match goal with
    | Hg : _ ∨ _ |- _ => destruct Hg as [->|Hg]
    | Hg : _ ∈ dedupLoop _ _ _ |- _ => apply IH in Hg as [Hg1 Hg2]
    end;
    try (apply nonEmpty_true in Ei); try (apply nonEmpty_true in En);
    try (destruct (productId x); [|done]); try (destruct (productName x); [|done]);
    split; intros Hne; try done; try (specialize (Hg1 Hne)); try (specialize (Hg2 Hne));
    set_solver.
Qed.

(** ** Coverage *)
Lemma countIn_0 (l U : list nat) : countIn l U = 0 ↔ ∀ x, x ∈ U → x ∉ l.
Proof.
  unfold countIn. induction U as [|u U IH].
  - split; [intros _ x Hx; by apply elem_of_nil in Hx | done].
  - rewrite filter_cons. destruct (decide (u ∈ l)) as [Hu|Hu]; simpl.
    + split; [done|]. intros Hall. exfalso. apply (Hall u); [left | done].
    + rewrite IH. split.
      * intros Hall x [->|Hx]%elem_of_cons; auto.
      * intros Hall x Hx. apply Hall. by right.
Qed.

Lemma countIn_pos (l U : list nat) : countIn l U ≠ 0 → ∃ x, x ∈ U ∧ x ∈ l.
Proof.
  unfold countIn. intros Hne.
  destruct (filter (λ idx, idx ∈ l) U) as [|x r] eqn:E; [done|].
  assert (x ∈ filter (λ idx, idx ∈ l) U) as Hx by (rewrite E; left).
  apply list_elem_of_filter in Hx as [? ?]. eauto.
Qed.

Lemma filter_all {A} (P : A → Prop) `{!∀ x, Decision (P x)} (l : list A) :
  (∀ x, x ∈ l → P x) → filter P l = l.
Proof.
  induction l as [|x l IH]; intros Hall; [done|].
  rewrite filter_cons_True by (apply Hall; left).
  f_equal. apply IH. intros y Hy. apply Hall. by right.
Qed.

Lemma filter_none {A} (P : A → Prop) `{!∀ x, Decision (P x)} (l : list A) :
  (∀ x, x ∈ l → ¬ P x) → filter P l = [].
Proof.
  induction l as [|x l IH]; intros Hall; [done|].
  rewrite filter_cons_False by (apply Hall; left).
  apply IH. intros y Hy. apply Hall. by right.
Qed.

Lemma elem_of_take1 {A} (l : list A) (x : A) : x ∈ take 1 l → l !! 0 = Some x.
Proof. destruct l as [|y l]; simpl; [by intros ?%elem_of_nil|]. by intros ->%list_elem_of_singleton. Qed.

Lemma take1_nonempty {A} (l : list A) : l ≠ [] → ∃ x, take 1 l = [x] ∧ l !! 0 = Some x.
Proof. destruct l as [|y l]; [done|]. eauto. Qed.

(** The shape of [finalIndices] after step 1. *)
Lemma forceMemo_cases (M U : list nat) :
  M ≠ [] →
  (countIn M U = 0 ∧ ∃ m, forceMemo M U = [m] ∧ m ∈ M ∧ m ∉ U)
  ∨ (countIn M U ≠ 0 ∧ forceMemo M U = []).
Proof.
  intros HM. unfold forceMemo. destruct (countIn M U) eqn:Ec; simpl.
  - left. split; [done|]. pose proof (proj1 (countIn_0 _ _) Ec) as Ec'; clear Ec; rename Ec' into Ec.
    assert (filter (λ idx, idx ∉ U) M = M) as ->.
    { apply filter_all. intros x Hx HU. by apply (Ec x). }
    destruct M as [|m M]; [done|]. simpl. exists m. split; [done|]. split; [left|].
    intros HU. apply (Ec m HU). left.
  - right. done.
Qed.

Lemma forceMemo_subseteq (M U : list nat) x : x ∈ forceMemo M U → x ∈ M.
Proof.
  unfold forceMemo. destruct (_ && _); [|by intros ?%elem_of_nil].
  destruct (filter _ M) as [|a r] eqn:E.
  - apply elem_of_take_1.
  - intros ->%list_elem_of_singleton.
    assert (a ∈ filter (λ idx, idx ∉ U) M) as Ha by (rewrite E; left).
    by apply list_elem_of_filter in Ha as [_ ?].
Qed.

Lemma length_forceMemo (M U : list nat) : length (forceMemo M U) ≤ 1.
Proof.
  unfold forceMemo. destruct (_ && _); [|simpl; lia].
  destruct (filter _ M); [|simpl; lia]. rewrite length_take. lia.
Qed.

(** The shape of [finalIndices] after step 2. *)
Lemma forceAddMemo_cases (A U F : list nat) :
  A ≠ [] →
  (countIn A U = 0 ∧
     ((∃ a, forceAddMemo A U F = F ++ [a] ∧ a ∈ A ∧ (a ∉ F) ∧ a ∉ U)
      ∨ (forceAddMemo A U F = F ∧ ∃ a, a ∈ A ∧ a ∈ F)))
  ∨ (countIn A U ≠ 0 ∧ forceAddMemo A U F = F).
Proof.
  intros HA. unfold forceAddMemo. destruct (countIn A U) eqn:Ec; simpl.
  - left. split; [done|]. pose proof (proj1 (countIn_0 _ _) Ec) as Ec'; clear Ec; rename Ec' into Ec.
    assert ((0 <? length A) = true) as -> by (destruct A; [done | done]).
    destruct (filter (λ idx, (idx ∉ F) ∧ (idx ∉ U)) A) as [|a r] eqn:E.
    + right. rewrite filter_none, app_nil_r by (intros x Hx HU; by apply (Ec x)).
      split; [done|]. destruct A as [|a A]; [done|]. exists a. split; [left|].
      destruct (decide (a ∈ F)) as [|Hn]; [done|]. exfalso.
      assert (a ∈ filter (λ idx, (idx ∉ F) ∧ (idx ∉ U)) (a :: A)) as Ha.
      { apply list_elem_of_filter. split; [|left]. split; [done|].
        intros HU. apply (Ec a HU). left. }
      rewrite E in Ha. by apply elem_of_nil in Ha.
    + left. exists a. split; [done|].
      assert (a ∈ filter (λ idx, (idx ∉ F) ∧ (idx ∉ U)) A) as Ha by (rewrite E; left).
      apply list_elem_of_filter in Ha as [[? ?] ?]. done.
  - right. done.
Qed.

Lemma NoDup_short {A} (l : list A) : length l ≤ 1 → NoDup l.
Proof.
  destruct l as [|x [|y l]]; simpl; intros Hl; [constructor | | lia].
  apply NoDup_singleton.
Qed.

Lemma sliceTo_sublist {A} (e : Z) (l : list A) : sliceTo e l `sublist_of` l.
Proof. unfold sliceTo. destruct (e <? 0)%Z; apply sublist_take. Qed.

Lemma forceAddMemo_elem (A U F : list nat) x :
  x ∈ forceAddMemo A U F → x ∈ F ∨ x ∈ A.
Proof.
  unfold forceAddMemo. destruct (_ && _); [|by left].
  destruct (filter _ A) as [|a r] eqn:E; rewrite elem_of_app.
  - intros [?|Hx]; [by left|]. right.
    apply elem_of_take_1, list_elem_of_filter in Hx as [_ ?]. done.
  - intros [?| ->%list_elem_of_singleton]; [by left|]. right.
    assert (a ∈ filter (λ idx, (idx ∉ F) ∧ (idx ∉ U)) A) as Ha by (rewrite E; left).
    by apply list_elem_of_filter in Ha as [_ ?].
Qed.

Lemma NoDup_forceAddMemo (A U F : list nat) :
  NoDup F → NoDup (forceAddMemo A U F).
Proof.
  intros HF. unfold forceAddMemo.
  destruct (countIn A U =? 0) eqn:Ec; simpl; [|done].
  apply Nat.eqb_eq in Ec. pose proof (proj1 (countIn_0 _ _) Ec) as Hdis.
  destruct (0 <? length A); [|done].
  destruct (filter _ A) as [|a r] eqn:E.
  - rewrite filter_none, app_nil_r; [done|]. intros x Hx HU. by apply (Hdis x).
  - assert (a ∈ filter (λ idx, (idx ∉ F) ∧ (idx ∉ U)) A) as Ha by (rewrite E; left).
    apply list_elem_of_filter in Ha as [[? ?] ?].
    apply NoDup_app. split; [done|]. split; [|apply NoDup_singleton].
    intros x Hx ->%list_elem_of_singleton. done.
Qed.

Lemma ensureFrom_elem (related ranked F : list nat) x :
  x ∈ ensureFrom related ranked F → x ∈ F ∨ ranked !! 0 = Some x.
Proof.
  unfold ensureFrom. destruct (_ && _); [|by left].
  rewrite elem_of_app. intros [?|?%elem_of_take1]; auto.
Qed.

Lemma NoDup_ensureFrom (related ranked F : list nat) :
  NoDup F → (∀ x, x ∈ ranked → x ∉ F) → NoDup (ensureFrom related ranked F).
Proof.
  intros HF Hdis. unfold ensureFrom. destruct (_ && _); [|done].
  apply NoDup_app. split; [done|]. split.
  - intros x Hx Hr%elem_of_take_1. by apply (Hdis x).
  - apply NoDup_short. rewrite length_take. lia.
Qed.

Lemma elem_of_drop_1 {A} (l : list A) (n : nat) (x : A) : x ∈ drop n l → x ∈ l.
Proof. intros Hx. eapply elem_of_sublist; [done | apply sublist_drop]. Qed.

Lemma coverageIndices_NoDup (M A U : list nat) (N : nat) :
  NoDup U → NoDup (coverageIndices M A U N).
Proof.
  intros HU. unfold coverageIndices.
  set (F1 := forceMemo M U). set (F2 := forceAddMemo A U F1).
  set (RM := rankedMemoGifts M U F2). set (RA := rankedAddMemoGifts M A U F2).
  set (RO := rankedOtherGifts M A U F2).
  set (F3 := ensureFrom M RM F2). set (F4 := ensureFrom A RA F3).
  assert (NoDup F2) as HF2.
  { apply NoDup_forceAddMemo, NoDup_short, length_forceMemo. }
  assert (∀ x, x ∈ RM → x ∈ U ∧ x ∈ M ∧ x ∉ F2) as HRM.
  { intros x Hx. apply list_elem_of_filter in Hx. tauto. }
  assert (∀ x, x ∈ RA → x ∈ U ∧ x ∈ A ∧ (x ∉ M) ∧ x ∉ F2) as HRA.
  { intros x Hx. apply list_elem_of_filter in Hx. tauto. }
  assert (∀ x, x ∈ RO → x ∈ U ∧ (x ∉ M) ∧ (x ∉ A) ∧ x ∉ F2) as HRO.
  { intros x Hx. apply list_elem_of_filter in Hx. tauto. }
  assert (NoDup F3) as HF3.
  { apply NoDup_ensureFrom; [done|]. intros x Hx. by apply HRM. }
  assert (NoDup F4) as HF4.
  { apply NoDup_ensureFrom; [done|]. intros x Hx Hx3.
    apply HRA in Hx as (_ & _ & HnM & HnF).
    apply ensureFrom_elem in Hx3 as [?|Hx3]; [done|].
    apply list_elem_of_lookup_2, HRM in Hx3. tauto. }
  apply NoDup_app. split; [done|]. split.
  - intros x Hx Hs. eapply elem_of_sublist in Hs; [|apply sliceTo_sublist].
    apply list_elem_of_filter in Hs as [? _]. done.
  - eapply sublist_NoDup; [|apply sliceTo_sublist].
    apply NoDup_filter. apply NoDup_app. split; [|split].
    + apply NoDup_drop, NoDup_filter, HU.
    + intros x Hx%elem_of_drop_1%HRM. rewrite elem_of_app.
      intros [Hy%elem_of_drop_1%HRA|Hy%HRO]; tauto.
    + apply NoDup_app. split; [|split].
      * apply NoDup_drop, NoDup_filter, HU.
      * intros x Hx%elem_of_drop_1%HRA Hy%HRO. tauto.
      * apply NoDup_filter, HU.
Qed.

Lemma coverageIndices_elem (M A U : list nat) (N : nat) (i : nat) :
  i ∈ coverageIndices M A U N → i ∈ M ∨ i ∈ A ∨ i ∈ U.
Proof.
  unfold coverageIndices. rewrite elem_of_app. intros [Hi|Hi].
  - apply ensureFrom_elem in Hi as [Hi|Hi].
    + apply ensureFrom_elem in Hi as [Hi|Hi].
      * apply forceAddMemo_elem in Hi as [Hi%forceMemo_subseteq|Hi]; auto.
      * apply list_elem_of_lookup_2, list_elem_of_filter in Hi. tauto.
    + apply list_elem_of_lookup_2, list_elem_of_filter in Hi. tauto.
  - eapply elem_of_sublist in Hi; [|apply sliceTo_sublist].
    apply list_elem_of_filter in Hi as [_ Hi].
    rewrite !elem_of_app in Hi.
    destruct Hi as [Hi%elem_of_drop_1|[Hi%elem_of_drop_1|Hi]];
      apply list_elem_of_filter in Hi; tauto.
Qed.

Lemma early_app (F l : list nat) x : early F x → early (F ++ l) x.
Proof. intros (p & Hp & Hx). exists p. split; [done|]. by apply lookup_app_l_Some. Qed.

Lemma early_take (F : list nat) (N : nat) x : 2 ≤ N → early F x → x ∈ take N F.
Proof. intros HN (p & Hp & Hx). apply elem_of_take. exists p. split; [done | lia]. Qed.

Lemma ensureFrom_prefix (related ranked F : list nat) :
  ∃ l, ensureFrom related ranked F = F ++ l.
Proof.
  unfold ensureFrom. destruct (_ && _); [eauto|]. exists []. by rewrite app_nil_r.
Qed.

Lemma early_ensureFrom (related ranked F : list nat) x :
  early F x → early (ensureFrom related ranked F) x.
Proof.
  destruct (ensureFrom_prefix related ranked F) as [l ->]. apply early_app.
Qed.

Lemma ensureFrom_adds (related ranked F : list nat) :
  countIn related F = 0 → ranked ≠ [] →
  ∃ r, ensureFrom related ranked F = F ++ [r] ∧ ranked !! 0 = Some r.
Proof.
  intros Hc Hr. unfold ensureFrom. rewrite Hc. destruct ranked as [|r ranked]; [done|].
  simpl. eauto.
Qed.

Lemma ensureFrom_empty (related F : list nat) : ensureFrom related [] F = F.
Proof. unfold ensureFrom. simpl. by rewrite andb_false_r. Qed.

Lemma countIn_singleton (l : list nat) (x : nat) :
  x ∉ l → countIn l [x] = 0.
Proof. intros Hx. apply countIn_0. by intros y ->%list_elem_of_singleton. Qed.

Lemma coverageIndices_covers (M A U : list nat) (N : nat) :
  NoDup U → length U ≤ N → 2 ≤ N → M ≠ [] → A ≠ [] →
  (∃ m, m ∈ take N (coverageIndices M A U N) ∧ m ∈ M)
  ∧ (∃ a, a ∈ take N (coverageIndices M A U N) ∧ a ∈ A).
Proof.
  intros HU HlenU HN HM HA. unfold coverageIndices.
  set (F1 := forceMemo M U). set (F2 := forceAddMemo A U F1).
  set (RM := rankedMemoGifts M U F2). set (RA := rankedAddMemoGifts M A U F2).
  set (RO := rankedOtherGifts M A U F2).
  set (F3 := ensureFrom M RM F2). set (F4 := ensureFrom A RA F3).
  set (C := filter _ _). set (Sl := sliceTo _ C).
  assert (∀ x, early F2 x → x ∈ take N (F4 ++ Sl)) as Hearly2.
  { intros x Hx. by apply early_take, early_app, early_ensureFrom, early_ensureFrom. }
  assert (∀ x, early F3 x → x ∈ take N (F4 ++ Sl)) as Hearly3.
  { intros x Hx. by apply early_take, early_app, early_ensureFrom. }
  assert (∀ x, early F4 x → x ∈ take N (F4 ++ Sl)) as Hearly4.
  { intros x Hx. by apply early_take, early_app. }
  assert (∀ x, x ∈ RM ↔ x ∈ U ∧ x ∈ M ∧ x ∉ F2) as HRM.
  { intros x. unfold RM, rankedMemoGifts. rewrite list_elem_of_filter. tauto. }
  assert (∀ x, x ∈ RA ↔ x ∈ U ∧ x ∈ A ∧ (x ∉ M) ∧ x ∉ F2) as HRA.
  { intros x. unfold RA, rankedAddMemoGifts. rewrite list_elem_of_filter. tauto. }
  destruct (forceMemo_cases M U HM) as [(cM & m & HF1 & HmM & HmU)|(cM & HF1)];
    destruct (forceAddMemo_cases A U F1 HA)
      as [(cA & [(a & HF2 & HaA & HaF & HaU)|(HF2 & a & HaA & HaF)])|(cA & HF2)];
    fold F1 in HF1; fold F2 in HF2; rewrite HF1 in *.
  - (* both forced in *)
    split; [exists m | exists a]; (split; [apply Hearly2; rewrite HF2 | done]).
    + exists 0. split; [lia | done].
    + exists 1. split; [lia | done].
  - (* the forced memo gift is related to the additional memo too *)
    apply list_elem_of_singleton in HaF as ->.
    split; exists m; (split; [apply Hearly2; rewrite HF2; exists 0; split; [lia | done] | done]).
  - (* memo forced in, additional memo ranked *)
    split; [exists m; split; [apply Hearly2; rewrite HF2; exists 0; split; [lia | done] | done]|].
    destruct (decide (m ∈ A)) as [HmA|HmA].
    { exists m. split; [apply Hearly2; rewrite HF2; exists 0; split; [lia | done] | done]. }
    destruct (countIn_pos _ _ cA) as (b & HbU & HbA).
    pose proof (proj1 (countIn_0 _ _) cM) as HUM.
    assert (F3 = [m]) as HF3.
    { unfold F3, ensureFrom. rewrite HF2.
      destruct (countIn M [m]) eqn:Ec; [|done].
      pose proof (proj1 (countIn_0 _ _) Ec m) as Hc. exfalso. apply Hc; [left | done]. }
    assert (b ∈ RA) as HbRA.
    { apply HRA. rewrite HF2. repeat split; [done | done | by apply HUM |].
      intros ->%list_elem_of_singleton. done. }
    destruct (ensureFrom_adds A RA F3) as (r & HF4 & Hr).
    { rewrite HF3. by apply countIn_singleton. }
    { intros E. rewrite E in HbRA. by apply elem_of_nil in HbRA. }
    exists r. split.
    + apply Hearly4. fold F4 in HF4. rewrite HF4, HF3. exists 1. split; [lia | done].
    + apply list_elem_of_lookup_2, HRA in Hr. tauto.
  - (* additional memo forced in, memo ranked *)
    simpl in HF2.
    split; [|exists a; split; [apply Hearly2; rewrite HF2; exists 0; split; [lia | done] | done]].
    destruct (decide (a ∈ M)) as [HaM|HaM].
    { exists a. split; [apply Hearly2; rewrite HF2; exists 0; split; [lia | done] | done]. }
    destruct (countIn_pos _ _ cM) as (u & HuU & HuM).
    assert (u ∈ RM) as HuRM.
    { apply HRM. rewrite HF2. repeat split; [done | done |].
      intros ->%list_elem_of_singleton. done. }
    destruct (ensureFrom_adds M RM F2) as (r & HF3 & Hr).
    { rewrite HF2. by apply countIn_singleton. }
    { intros E. rewrite E in HuRM. by apply elem_of_nil in HuRM. }
    exists r. split.
    + apply Hearly3. fold F3 in HF3. rewrite HF3, HF2. exists 1. split; [lia | done].
    + apply list_elem_of_lookup_2, HRM in Hr. tauto.
  - by apply elem_of_nil in HaF.
  - (* both ranked *)
    destruct (countIn_pos _ _ cM) as (u & HuU & HuM).
    destruct (countIn_pos _ _ cA) as (b & HbU & HbA).
    assert (u ∈ RM) as HuRM.
    { apply HRM. rewrite HF2. repeat split; [done | done | apply not_elem_of_nil]. }
    destruct (ensureFrom_adds M RM F2) as (r & HF3 & Hr).
    { rewrite HF2. by apply countIn_0; intros ? ?%elem_of_nil. }
    { intros E. rewrite E in HuRM. by apply elem_of_nil in HuRM. }
    fold F3 in HF3. rewrite HF2 in HF3. simpl in HF3.
    assert (r ∈ M) as HrM by (apply list_elem_of_lookup_2, HRM in Hr; tauto).
    split; [exists r; split; [apply Hearly3; rewrite HF3; exists 0; split; [lia | done] | done]|].
    destruct (decide (r ∈ A)) as [HrA|HrA].
    { exists r. split; [apply Hearly3; rewrite HF3; exists 0; split; [lia | done] | done]. }
    destruct (decide (RA = [])) as [ERA|ERA].
    + (* every ranked gift of the additional memo is a memo gift too *)
      assert (b ∈ M) as HbM.
      { destruct (decide (b ∈ M)) as [|HbM]; [done|]. exfalso.
        assert (b ∈ RA) as Hb; [|rewrite ERA in Hb; by apply elem_of_nil in Hb].
        apply HRA. rewrite HF2. repeat split; [done | done | done | apply not_elem_of_nil]. }
      assert (F4 = [r]) as HF4.
      { unfold F4. rewrite ERA, ensureFrom_empty. done. }
      assert (b ∈ RM) as HbRM.
      { apply HRM. rewrite HF2. repeat split; [done | done | apply not_elem_of_nil]. }
      assert (b ≠ r) as Hbr by (intros ->; done).
      assert (RM = r :: drop 1 RM) as ERM.
      { destruct RM as [|r' RM']; [done|]. simpl in Hr. by injection Hr as ->. }
      assert (b ∈ drop 1 RM) as HbRM'.
      { rewrite ERM in HbRM. apply elem_of_cons in HbRM as [?|?]; done. }
      assert (length (drop 1 RM) < N) as HlenRM.
      { assert (length RM ≤ length U) as Hle by apply length_filter.
        rewrite ERM in Hle. simpl in Hle. lia. }
      exists b. split; [|done].
      subst Sl C. rewrite HF4.
      assert (Z.of_nat N - Z.of_nat (length [r]) = Z.of_nat (N - 1))%Z as ->.
      { change (length [r]) with 1. lia. }
      unfold sliceTo. destruct (Z.ltb_spec (Z.of_nat (N - 1)) 0); [lia|].
      rewrite Nat2Z.id, filter_app.
      set (C1 := filter _ (drop 1 RM)). set (C2 := filter _ _).
      assert (b ∈ C1) as HbC1.
      { apply list_elem_of_filter. split; [|done]. by intros ?%list_elem_of_singleton. }
      apply list_elem_of_lookup in HbC1 as [p Hp].
      assert (p < length (drop 1 RM)) as Hplt.
      { apply lookup_lt_Some in Hp. eapply Nat.lt_le_trans; [done|]. apply length_filter. }
      apply elem_of_take. exists (S p). split; [|lia].
      simpl. apply lookup_take_Some. split; [|lia]. by apply lookup_app_l_Some.
    + destruct (ensureFrom_adds A RA F3) as (r' & HF4 & Hr').
      { rewrite HF3. by apply countIn_singleton. }
      { done. }
      exists r'. split.
      * apply Hearly4. fold F4 in HF4. rewrite HF4, HF3. exists 1. split; [lia | done].
      * apply list_elem_of_lookup_2, HRA in Hr'. tauto.
Qed.

Lemma sameGift_sym g h : sameGift g h → sameGift h g.
Proof.
  intros [[Hne Heq]|[Hne Heq]]; [left | right]; (split; [congruence | done]).
Qed.

Lemma allDistinct_noTwoSame l : allDistinct l → noTwoSame l.
Proof.
  induction l as [|x l IH]; intros Hd i j g h Hij Hi Hj.
  - by rewrite lookup_nil in Hi.
  - destruct Hd as [Hx Hd]. destruct i as [|i], j as [|j]; simpl in *; [done| | |].
    + injection Hi as <-. apply Hx. by eapply list_elem_of_lookup_2.
    + injection Hj as <-. intros Hs%sameGift_sym. revert Hs. apply Hx.
      by eapply list_elem_of_lookup_2.
    + eapply (IH Hd i j); [lia | done | done].
Qed.

Lemma noTwoSame_allDistinct l : noTwoSame l → allDistinct l.
Proof.
  induction l as [|x l IH]; intros Hd; simpl; [done|]. split.
  - intros h [j Hj]%list_elem_of_lookup. apply (Hd 0 (S j)); [lia | done | done].
  - apply IH. intros i j g h Hij Hi Hj. apply (Hd (S i) (S j)); [lia | done | done].
Qed.

Lemma dedupLoop_allDistinct S T l : allDistinct (dedupLoop S T l).
Proof.
  revert S T. induction l as [|x l IH]; intros S T; simpl; [done|].
  destruct (nonEmpty (productId x) && bool_decide (productId x ∈ S)) eqn:EdI; simpl;
    [apply IH|].
  destruct (nonEmpty (productName x) && bool_decide (productName x ∈ T)) eqn:EdN; simpl;
    [apply IH|].
  split; [|apply IH]. intros h Hh. apply dedupLoop_fresh in Hh as [Hh1 Hh2].
  rewrite !andb_true_r in *.
  intros [[Hne Heq]|[Hne Heq]].
  - apply Hh1; [congruence|]. rewrite <- Heq.
    apply nonEmpty_true in Hne. rewrite Hne. set_solver.
  - apply Hh2; [congruence|]. rewrite <- Heq.
    apply nonEmpty_true in Hne. rewrite Hne. set_solver.
Qed.

Lemma dedupGifts_noTwoSame l : noTwoSame (dedupGifts l).
Proof. apply allDistinct_noTwoSame, dedupLoop_allDistinct. Qed.

Lemma dedupLoop_id S T l :
  allDistinct l →
  (∀ g, g ∈ l → (productId g ≠ [] → productId g ∉ S)
                ∧ (productName g ≠ [] → productName g ∉ T)) →
  dedupLoop S T l = l.
Proof.
  revert S T. induction l as [|x l IH]; intros S T Hd Hfresh; simpl; [done|].
  destruct Hd as [Hx Hd].
  destruct (Hfresh x) as [Hxi Hxn]; [left|].
  assert (nonEmpty (productId x) && bool_decide (productId x ∈ S) = false) as ->.
  { destruct (nonEmpty (productId x)) eqn:E; [|done]. simpl.
    apply bool_decide_eq_false, Hxi. by apply nonEmpty_true. }
  simpl.
  assert (nonEmpty (productName x) && bool_decide (productName x ∈ T) = false) as ->.
  { destruct (nonEmpty (productName x)) eqn:E; [|done]. simpl.
    apply bool_decide_eq_false, Hxn. by apply nonEmpty_true. }
  f_equal. apply IH; [done|]. intros g Hg.
  destruct (Hfresh g) as [Hgi Hgn]; [by right|].
  specialize (Hx g Hg).
  rewrite !andb_true_r.
  split; intros Hne.
  - destruct (nonEmpty (productId x)) eqn:E; [|by apply Hgi].
    apply nonEmpty_true in E. rewrite elem_of_union, elem_of_singleton.
    intros [Heq|?]; [|by apply Hgi]. apply Hx. left. split; [done | congruence].
  - destruct (nonEmpty (productName x)) eqn:E; [|by apply Hgn].
    apply nonEmpty_true in E. rewrite elem_of_union, elem_of_singleton.
    intros [Heq|?]; [|by apply Hgn]. apply Hx. right. split; [done | congruence].
Qed.

Lemma dedupGifts_id l : allDistinct l → dedupGifts l = l.
Proof.
  intros Hd. apply dedupLoop_id; [done|]. intros g _. split; intros _; set_solver.
Qed.

Lemma selects_allDistinct gifts idxs res :
  noTwoSame gifts → NoDup idxs → selects gifts idxs res → allDistinct res.
Proof.
  intros Hp Hnd Hs. apply noTwoSame_allDistinct. intros i j g h Hij Hi Hj.
  destruct (Forall2_lookup_r _ _ _ _ _ Hs Hi) as (a & Ha & Hga).
  destruct (Forall2_lookup_r _ _ _ _ _ Hs Hj) as (b & Hb & Hgb).
  apply (Hp a b); [|done|done]. intros ->.
  apply Hij. eapply NoDup_lookup; done.
Qed.

(** ** [rerankGifts], path by path *)
Lemma mapM_lookup_all (gifts : list Gift) (idxs : list nat) :
  (∀ i, i ∈ idxs → i < length gifts) →
  mapM (λ idx, gifts !! idx) idxs = Some (omap (λ idx, gifts !! idx) idxs).
Proof.
  intros Hlt. apply mapM_Some_2. by apply selects_omap_all.
Qed.

Lemma dedupIndices_all (gifts : list Gift) (idxs : list nat) :
  (∀ i, i ∈ idxs → i < length gifts) →
  dedupIndices gifts idxs = Some (dedupGifts (omap (λ idx, gifts !! idx) idxs)).
Proof. intros Hlt. unfold dedupIndices. by rewrite mapM_lookup_all. Qed.

Lemma ranking_lt gifts profile n topN content u i :
  readRanking (prefilterIndices gifts profile) n topN content = Some u →
  i ∈ u → i < length gifts.
Proof.
  intros (_ & _ & _ & Hu)%readRanking_Some Hi.
  eapply prefilterIndices_lt, Hu, Hi.
Qed.

Lemma coverage_lt gifts profile n topN content u kwM kwA i :
  readRanking (prefilterIndices gifts profile) n topN content = Some u →
  i ∈ coverageIndices (indicesWhere (memoRelated kwM) gifts)
        (indicesWhere (memoRelated kwA) gifts) u topN →
  i < length gifts.
Proof.
  intros Hr [Hi|[Hi|Hi]]%coverageIndices_elem.
  - by eapply indicesWhere_lt.
  - by eapply indicesWhere_lt.
  - by eapply ranking_lt.
Qed.

Lemma rerankGifts_ranked gifts personaString originalData topN profile content u :
  topN < length gifts →
  readRanking (prefilterIndices gifts profile)
    (length (prefilterGifts gifts profile)) topN content = Some u →
  rerankGifts true gifts personaString originalData topN profile (Content content)
  = Return (rankedResult gifts originalData topN profile u).
Proof.
  intros Hlen Hr. unfold rerankGifts, rankedResult. simpl.
  destruct (Nat.eqb_spec (length gifts) 0) as [|_]; [lia|].
  destruct (Nat.leb_spec (length gifts) topN) as [|_]; [lia|].
  rewrite Hr. destruct (hasLikes profile); [done|].
  destruct (coverageApplies originalData).
  - rewrite dedupIndices_all; [done|].
    intros i Hi%elem_of_take_1. by eapply coverage_lt.
  - rewrite dedupIndices_all; [done|]. intros i Hi. by eapply ranking_lt.
Qed.

Lemma rerankGifts_fallback gifts personaString originalData topN profile content :
  topN < length gifts →
  readRanking (prefilterIndices gifts profile)
    (length (prefilterGifts gifts profile)) topN content = None →
  rerankGifts true gifts personaString originalData topN profile (Content content)
  = Return (take topN (prefilterGifts gifts profile)).
Proof.
  intros Hlen Hr. unfold rerankGifts. simpl.
  destruct (Nat.eqb_spec (length gifts) 0) as [|_]; [lia|].
  destruct (Nat.leb_spec (length gifts) topN) as [|_]; [lia|].
  rewrite Hr. f_equal. apply fallbackTopN_take, prefilter_selects.
Qed.

Lemma rerankGifts_catchAll gifts personaString originalData topN profile backend :
  topN < length gifts → backend = RequestFailed ∨ backend = NoChoices →
  rerankGifts true gifts personaString originalData topN profile backend
  = Return (take topN gifts).
Proof.
  intros Hlen Hb. unfold rerankGifts. simpl.
  destruct (Nat.eqb_spec (length gifts) 0) as [|_]; [lia|].
  destruct (Nat.leb_spec (length gifts) topN) as [|_]; [lia|].
  by destruct Hb as [-> | ->].
Qed.

Lemma rerankGifts_short gifts personaString originalData topN profile backend :
  length gifts ≤ topN →
  rerankGifts true gifts personaString originalData topN profile backend = Return gifts.
Proof.
  intros Hlen. unfold rerankGifts. simpl.
  destruct (Nat.eqb_spec (length gifts) 0) as [E|_].
  - by destruct gifts.
  - destruct (Nat.leb_spec (length gifts) topN) as [_|]; [done | lia].
Qed.

Lemma rerankGifts_no_key gifts personaString originalData topN profile backend :
  rerankGifts false gifts personaString originalData topN profile backend
  = Throw ApiKeyNotConfigured.
Proof. done. Qed.

(** Every result is a selection of at most [topN] distinct pool positions. *)
Lemma rankedResult_selection gifts originalData topN profile content u :
  readRanking (prefilterIndices gifts profile)
    (length (prefilterGifts gifts profile)) topN content = Some u →
  ∃ idxs, NoDup idxs ∧ length idxs ≤ topN
          ∧ selects gifts idxs (rankedResult gifts originalData topN profile u).
Proof.
  intros Hr. pose proof (readRanking_Some _ _ _ _ _ Hr) as (_ & Hnd & Hlen & _).
  assert (∀ idxs, NoDup idxs → length idxs ≤ topN →
            (∀ i, i ∈ idxs → i < length gifts) →
            ∃ idxs', NoDup idxs' ∧ length idxs' ≤ topN
              ∧ selects gifts idxs' (dedupGifts (omap (λ idx, gifts !! idx) idxs))) as Hsel.
  { intros idxs Hn Hl Hlt.
    destruct (selects_dedupLoop gifts idxs _ ∅ ∅ (selects_omap_all gifts idxs Hlt))
      as (idxs' & Hsub & Hs).
    exists idxs'. split; [by eapply sublist_NoDup|]. split; [|done].
    apply sublist_length in Hsub. lia. }
  unfold rankedResult. destruct (hasLikes profile).
  - assert (take topN (omap (λ idx, gifts !! idx) u) = omap (λ idx, gifts !! idx) u) as ->.
    { apply take_ge. etrans; [apply length_omap_le | done]. }
    apply Hsel; [done | done |]. intros i Hi. by eapply ranking_lt.
  - destruct (coverageApplies originalData).
    + apply Hsel.
      * apply NoDup_take, coverageIndices_NoDup, Hnd.
      * rewrite length_take. lia.
      * intros i Hi%elem_of_take_1. by eapply coverage_lt.
    + apply Hsel; [done | done |]. intros i Hi. by eapply ranking_lt.
Qed.

Lemma rerankGifts_selection apiKey gifts personaString originalData topN profile backend res :
  rerankGifts apiKey gifts personaString originalData topN profile backend = Return res →
  ∃ idxs, NoDup idxs ∧ length idxs ≤ topN ∧ selects gifts idxs res.
Proof.
  destruct apiKey; [|done].
  destruct (Nat.le_gt_cases (length gifts) topN) as [Hle|Hgt].
  - rewrite rerankGifts_short by done. intros [= <-].
    exists (seq 0 (length gifts)). split; [apply NoDup_seq|].
    split; [by rewrite length_seq | apply selects_seq].
  - destruct backend as [| |content].
    + rewrite rerankGifts_catchAll by auto. intros [= <-].
      exists (take topN (seq 0 (length gifts))). split; [apply NoDup_take, NoDup_seq|].
      split; [rewrite length_take; lia | apply selects_take, selects_seq].
    + rewrite rerankGifts_catchAll by auto. intros [= <-].
      exists (take topN (seq 0 (length gifts))). split; [apply NoDup_take, NoDup_seq|].
      split; [rewrite length_take; lia | apply selects_take, selects_seq].
    + destruct (readRanking (prefilterIndices gifts profile)
                  (length (prefilterGifts gifts profile)) topN content) as [u|] eqn:Er.
      * rewrite (rerankGifts_ranked _ _ _ _ _ _ u) by done. intros [= <-].
        by eapply rankedResult_selection.
      * rewrite rerankGifts_fallback by done. intros [= <-].
        exists (take topN (prefilterIndices gifts profile)).
        split; [apply NoDup_take, NoDup_prefilterIndices|].
        split; [rewrite length_take; lia | apply selects_take, prefilter_selects].
Qed.

Lemma rerankGifts_returns gifts personaString originalData topN profile backend :
  ∃ res, rerankGifts true gifts personaString originalData topN profile backend = Return res.
Proof.
  destruct (Nat.le_gt_cases (length gifts) topN) as [Hle|Hgt].
  - rewrite rerankGifts_short by done. eauto.
  - destruct backend as [| |content].
    + rewrite rerankGifts_catchAll by auto. eauto.
    + rewrite rerankGifts_catchAll by auto. eauto.
    + destruct (readRanking (prefilterIndices gifts profile)
                  (length (prefilterGifts gifts profile)) topN content) as [u|] eqn:Er.
      * rewrite (rerankGifts_ranked _ _ _ _ _ _ u) by done. eauto.
      * rewrite rerankGifts_fallback by done. eauto.
Qed.

(** C3 (amended).  With the API key configured, [rerankGifts] returns for
    every reply of the backend, and a reply whose text gives no usable
    ranking (it does not parse, is not an array, is empty or holds no valid
    index) yields exactly the first [topN] gifts of the pre-filtered working
    set. *)
Theorem rerankGifts_degrades_to_working_set
    gifts personaString originalData topN profile backend :
  (∃ res, rerankGifts true gifts personaString originalData topN profile backend
          = Return res)
  ∧ ∀ content,
      backend = Content content →
      topN < length gifts →
      readRanking (prefilterIndices gifts profile)
        (length (prefilterGifts gifts profile)) topN content = None →
      rerankGifts true gifts personaString originalData topN profile backend
      = Return (take topN (prefilterGifts gifts profile)).
Proof.
  split; [apply rerankGifts_returns|].
  intros content -> Hlen Hr. by apply rerankGifts_fallback.
Qed.

(** C4 (amended).  With the API key configured, a pool of at most [topN]
    gifts is returned as it is, whatever the persona, the profile and the
    backend; without the key [rerankGifts] throws before the short-circuit
    is reached. *)
Theorem rerankGifts_short_circuit
    gifts personaString originalData topN profile backend :
  length gifts ≤ topN →
  rerankGifts true gifts personaString originalData topN profile backend = Return gifts
  ∧ rerankGifts false gifts personaString originalData topN profile backend
    = Throw ApiKeyNotConfigured.
Proof. intros Hlen. split; [by apply rerankGifts_short | apply rerankGifts_no_key]. Qed.

(** C5 (amended).  With the API key configured [rerankGifts] returns, and
    whatever it returns has at most [topN] candidates. *)
Theorem rerankGifts_at_most_topN
    gifts personaString originalData topN profile backend :
  (∃ res, rerankGifts true gifts personaString originalData topN profile backend
          = Return res)
  ∧ ∀ apiKey res,
      rerankGifts apiKey gifts personaString originalData topN profile backend
      = Return res →
      length res ≤ topN.
Proof.
  split; [apply rerankGifts_returns|].
  intros apiKey res (idxs & _ & Hlen & Hs)%rerankGifts_selection.
  apply Forall2_length in Hs. lia.
Qed.

(** C6 (amended).  When the model's ranking is usable, no two returned
    candidates share a non-empty product id or a non-empty normalized
    name. *)
Theorem rerankGifts_ranked_no_duplicates
    gifts personaString originalData topN profile backend :
  topN < length gifts →
  rankingUsable gifts topN profile backend →
  ∃ res, rerankGifts true gifts personaString originalData topN profile backend
         = Return res
         ∧ noTwoSame res.
Proof.
  intros Hlen Hu. destruct backend as [| |content]; try done.
  destruct Hu as [u Hu]. rewrite (rerankGifts_ranked _ _ _ _ _ _ u) by done.
  eexists. split; [done|]. unfold rankedResult.
  destruct (hasLikes profile); [|destruct (coverageApplies originalData)];
    apply dedupGifts_noTwoSame.
Qed.

(** C7 (amended).  Without likes in the profile, with both memo fields
    non-trivial, [topN >= 2] and a pool whose candidates are pairwise
    different gifts: when the pool is returned as it is or the model's
    ranking is usable, the result holds a candidate related to the memo and
    one related to the additional memo, provided the pool holds one of
    each. *)
Theorem rerankGifts_memo_coverage
    gifts personaString originalData topN profile backend gm ga :
  hasLikes profile = false →
  coverageApplies originalData = true →
  2 ≤ topN →
  noTwoSame gifts →
  gm ∈ gifts → memoRelated (keywords (trim (memo originalData))) gm = true →
  ga ∈ gifts → memoRelated (keywords (trim (addMemo originalData))) ga = true →
  length gifts ≤ topN ∨ rankingUsable gifts topN profile backend →
  ∃ res, rerankGifts true gifts personaString originalData topN profile backend
         = Return res
         ∧ (∃ g, g ∈ res ∧ memoRelated (keywords (trim (memo originalData))) g = true)
         ∧ (∃ g, g ∈ res ∧ memoRelated (keywords (trim (addMemo originalData))) g = true).
Proof.
  intros Hlikes Hcov HN Hpool Hgm Hm Hga Ha [Hshort|Hu].
  { rewrite rerankGifts_short by done. eauto 10. }
  destruct (Nat.le_gt_cases (length gifts) topN) as [Hle|Hgt].
  { rewrite rerankGifts_short by done. eauto 10. }
  destruct backend as [| |content]; try done. destruct Hu as [u Hu].
  rewrite (rerankGifts_ranked _ _ _ _ _ _ u) by done.
  eexists. split; [done|]. unfold rankedResult. rewrite Hlikes, Hcov.
  set (M := indicesWhere (memoRelated (keywords (trim (memo originalData)))) gifts).
  set (A := indicesWhere (memoRelated (keywords (trim (addMemo originalData)))) gifts).
  pose proof (readRanking_Some _ _ _ _ _ Hu) as (_ & Hnd & HlenU & _).
  assert (M ≠ []) as HM.
  { apply list_elem_of_lookup in Hgm as [i Hi].
    assert (i ∈ M) as Hin by (apply elem_of_indicesWhere; eauto).
    intros E. rewrite E in Hin. by apply elem_of_nil in Hin. }
  assert (A ≠ []) as HA.
  { apply list_elem_of_lookup in Hga as [i Hi].
    assert (i ∈ A) as Hin by (apply elem_of_indicesWhere; eauto).
    intros E. rewrite E in Hin. by apply elem_of_nil in Hin. }
  set (F := take topN (coverageIndices M A u topN)).
  assert (∀ i, i ∈ F → i < length gifts) as Hlt.
  { intros i Hi%elem_of_take_1. by eapply coverage_lt. }
  assert (selects gifts F (omap (λ idx, gifts !! idx) F)) as Hsel
    by by apply selects_omap_all.
  rewrite dedupGifts_id.
  2:{ eapply selects_allDistinct; [done | | done].
      apply NoDup_take, coverageIndices_NoDup, Hnd. }
  destruct (coverageIndices_covers M A u topN Hnd HlenU HN HM HA)
    as [(m & HmF & HmM) (a & HaF & HaA)].
  split.
  - apply elem_of_indicesWhere in HmM as (g & Hg & Hrel). exists g. split; [|done].
    apply list_elem_of_omap. exists m. done.
  - apply elem_of_indicesWhere in HaA as (g & Hg & Hrel). exists g. split; [|done].
    apply list_elem_of_omap. exists a. done.
Qed.

(** C8.  When [profile.likes] is not empty the memo fields play no part in
    the result, and a usable ranking is only cut to [topN] and
    de-duplicated. *)
Theorem rerankGifts_profile_authority
    apiKey gifts personaString topN profile backend :
  hasLikes profile = true →
  (∀ originalData originalData',
     rerankGifts apiKey gifts personaString originalData topN profile backend
     = rerankGifts apiKey gifts personaString originalData' topN profile backend)
  ∧ ∀ originalData content u,
      backend = Content content →
      topN < length gifts →
      readRanking (prefilterIndices gifts profile)
        (length (prefilterGifts gifts profile)) topN content = Some u →
      rerankGifts true gifts personaString originalData topN profile backend
      = Return (dedupGifts (take topN (omap (λ idx, gifts !! idx) u))).
Proof.
  intros Hlikes. split.
  - intros od od'. unfold rerankGifts. rewrite Hlikes. done.
  - intros od content u -> Hlen Hr.
    rewrite (rerankGifts_ranked _ _ _ _ _ _ u) by done.
    unfold rankedResult. by rewrite Hlikes.
Qed.

(** C10.  With the API key configured [rerankGifts] returns, and whatever
    it returns is a selection of pairwise different positions of the pool:
    every returned gift is a gift of the pool, taken as it is. *)
Theorem rerankGifts_pool_membership
    gifts personaString originalData topN profile backend :
  (∃ res, rerankGifts true gifts personaString originalData topN profile backend
          = Return res)
  ∧ ∀ apiKey res,
      rerankGifts apiKey gifts personaString originalData topN profile backend
      = Return res →
      (∀ g, g ∈ res → g ∈ gifts)
      ∧ ∃ idxs, NoDup idxs ∧ selects gifts idxs res.
Proof.
  split; [apply rerankGifts_returns|].
  intros apiKey res (idxs & Hnd & _ & Hs)%rerankGifts_selection. split; [|eauto].
  intros g Hg. by eapply selects_elem_of.
Qed.

(** ** [generateGiftRationale] *)

Lemma generateGiftRationale_returns gift personaString originalData backend :
  ∃ r, generateGiftRationale true gift personaString originalData backend = Return r.
Proof.
  unfold generateGiftRationale. simpl. destruct backend as [| |content]; eauto.
  destruct (JSON_parse _) as [v|]; [|eauto]. destruct (validRationale v); eauto.
Qed.


End ServiceFacts.

(** * [generateJSON]: lemmas and theorems *)

Section ClientFacts.
Context `{Host}.

Lemma json_induction (P : json → Prop) :
  P JNull → (∀ b, P (JBool b)) → (∀ m e, P (JNum m e)) → (∀ s, P (JStr s)) →
  (∀ l, Forall P l → P (JArr l)) →
  (∀ kv, Forall (λ p, P (snd p)) kv → P (JObj kv)) →
  ∀ v, P v.
Proof.
  intros Hnull Hbool Hnum Hstr Harr Hobj.
  fix IH 1. intros [| b | m e | s | l | kv].
  - apply Hnull.
  - apply Hbool.
  - apply Hnum.
  - apply Hstr.
  - apply Harr. induction l as [|x l IHl]; constructor; [apply IH | apply IHl].
  - apply Hobj. induction kv as [|[k x] kv IHkv]; constructor; [apply IH | apply IHkv].
Qed.

Lemma indexOf_absent (p s : jsstring) (c : N) :
  p !! 0 = Some c → c ∉ s → indexOf p s = None.
Proof.
  intros Hp Hc. destruct p as [|c' p]; [done|]. injection Hp as ->.
  induction s as [|d s IH]; [done|].
  simpl. destruct (N.eqb_spec c d) as [->|_]; [exfalso; apply Hc; left|].
  simpl. rewrite IH; [done|]. intros Hin. apply Hc. by right.
Qed.

Lemma fenceMatch_no_backtick (t : jsstring) : 96%N ∉ t → fenceMatch t = None.
Proof. intros Ht. unfold fenceMatch. by rewrite (indexOf_absent fence t 96%N). Qed.

Lemma indexOfChar_absent (c : N) (s : jsstring) : c ∉ s → indexOfChar c s = None.
Proof.
  induction s as [|d s IH]; [done|]. intros Hc. simpl.
  destruct (N.eqb_spec c d) as [->|_]; [exfalso; apply Hc; left|].
  rewrite IH; [done|]. intros Hin. apply Hc. by right.
Qed.

Lemma lastIndexOfChar_last (c : N) (s : jsstring) :
  lastIndexOfChar c (s ++ [c]) = Some (length s).
Proof.
  induction s as [|d s IH]; simpl.
  - by rewrite N.eqb_refl.
  - by rewrite IH.
Qed.

Lemma greedyMatch_absent (o c : N) (t : jsstring) : o ∉ t → greedyMatch o c t = None.
Proof. intros Ho. unfold greedyMatch. by rewrite indexOfChar_absent. Qed.

Lemma greedyMatch_whole (o c : N) (body : jsstring) :
  greedyMatch o c (o :: body ++ [c]) = Some (o :: body ++ [c]).
Proof.
  unfold greedyMatch. cbn [indexOfChar]. rewrite N.eqb_refl.
  change (drop 1 (o :: body ++ [c])) with (body ++ [c]).
  rewrite lastIndexOfChar_last. f_equal.
  rewrite take_ge; [done|]. simpl. rewrite length_app. simpl. lia.
Qed.

Lemma extractCandidate_whole (t : jsstring) :
  96%N ∉ t → wholeCandidate t → extractCandidate t = t.
Proof.
  intros Hf Hw. unfold extractCandidate. rewrite fenceMatch_no_backtick by done.
  unfold objectMatch, arrayMatch.
  destruct Hw as [[body ->]|[[Ho [body ->]]|[Ho Ha]]].
  - by rewrite greedyMatch_whole.
  - rewrite greedyMatch_absent by done. by rewrite greedyMatch_whole.
  - by rewrite !greedyMatch_absent.
Qed.

(** *** The text of a serialized value *)
Lemma uintChars_digits (d : Decimal.uint) c : c ∈ uintChars d → isDigit c = true.
Proof.
  induction d; simpl; rewrite ?elem_of_cons;
    try (intros [->|?]; [done | auto]). by intros ?%elem_of_nil.
Qed.

Lemma natChars_digits (n : N) c : c ∈ natChars n → isDigit c = true.
Proof. apply uintChars_digits. Qed.

Lemma natChars_nonempty (n : N) : natChars n ≠ [].
Proof.
  unfold natChars. destruct n as [|p]; [done|]. simpl.
  pose proof (DecimalPos.Unsigned.to_uint_nonnil p) as Hn.
  destruct (Pos.to_uint p); done.
Qed.

Lemma numChars_chars (m e : Z) c : c ∈ numChars m e → numChar c = true.
Proof.
  unfold numChars. destruct (normNum m e) as [m' e'].
  destruct (m' =? 0)%Z; [by intros ->%list_elem_of_singleton|].
  set (ds := natChars _).
  assert (∀ x, x ∈ ds → numChar x = true) as Hds.
  { intros x Hx%natChars_digits. unfold numChar. by rewrite Hx. }
  assert (∀ n x, x ∈ replicate n 48%N → numChar x = true) as Hrep.
  { intros n x [-> _]%elem_of_replicate. done. }
  rewrite elem_of_app. intros [Hc|Hc].
  { destruct (m' <? 0)%Z; [by apply list_elem_of_singleton in Hc as ->|by apply elem_of_nil in Hc]. }
  repeat match type of Hc with
         | context [if (?a && ?b) then _ else _] => destruct (a && b)
         end.
  - apply elem_of_app in Hc as [?|?]; eauto.
  - apply elem_of_app in Hc as [?%elem_of_take_1|[->|?%elem_of_drop_1]%elem_of_cons]; eauto.
  - apply elem_of_cons in Hc as [->|Hc]; [done|].
    apply elem_of_cons in Hc as [->|Hc]; [done|].
    apply elem_of_app in Hc as [?|?]; eauto.
  - set (es := _ :: natChars _) in Hc.
    assert (∀ x, x ∈ es → numChar x = true) as Hes.
    { intros x [->|Hx%natChars_digits]%elem_of_cons.
      - by destruct (_ <? _)%Z.
      - unfold numChar. by rewrite Hx. }
    destruct ds as [|d [|d' r]]; [by apply elem_of_nil in Hc| |].
    + apply elem_of_cons in Hc as [->|Hc]; [apply Hds; left|].
      apply elem_of_cons in Hc as [->|Hc]; [done | auto].
    + apply elem_of_cons in Hc as [->|Hc]; [apply Hds; left|].
      apply elem_of_cons in Hc as [->|Hc]; [done|].
      apply elem_of_app in Hc as [Hc|[->|Hc]%elem_of_cons]; [apply Hds; by right | done | auto].
Qed.

Lemma numChars_head (m e : Z) :
  ∃ c r, numChars m e = c :: r ∧ (isDigit c = true ∨ c = 45%N).
Proof.
  unfold numChars. destruct (normNum m e) as [m' e'].
  destruct (m' =? 0)%Z; [by eexists _, _; split; [done | left]|].
  destruct (m' <? 0)%Z; [by eexists _, _; split; [done | right]|].
  simpl app. set (ds := natChars _).
  assert (∃ d r, ds = d :: r ∧ isDigit d = true) as (d & r & Eds & Hd).
  { pose proof (natChars_nonempty (Z.to_N (Z.abs m'))) as Hne. fold ds in Hne.
    destruct ds as [|d r] eqn:E; [done|]. exists d, r. split; [done|].
    apply (natChars_digits (Z.to_N (Z.abs m'))). fold ds. rewrite E. left. }
  rewrite Eds.
  destruct (_ && _); [by eexists _, _; split; [done | left]|].
  destruct ((0 <? _)%Z && _) eqn:E2.
  { apply andb_prop in E2 as [E2%Z.ltb_lt _].
    destruct (Z.to_nat _) as [|k] eqn:Ek; [lia|].
    simpl. by eexists _, _; split; [done | left]. }
  clear E2.
  match goal with |- context [if ?b then _ else _] => destruct b end;
    [by eexists _, _; split; [done | left]|].
  destruct r; by eexists _, _; split; [done | left].
Qed.

Lemma numChar_goodStart (m e : Z) : goodStart (numChars m e).
Proof.
  destruct (numChars_head m e) as (c & r & -> & Hc). exists c, r. split; [done|].
  destruct Hc as [Hc| ->]; [|done].
  unfold isDigit in Hc. apply andb_prop in Hc as [H1%N.leb_le H2%N.leb_le].
  unfold isSpace. repeat split; [|lia|lia].
  repeat match goal with
         | |- context [(?a <=? ?b)%N] => destruct (N.leb_spec a b); try lia
         | |- context [(?a =? ?b)%N] => destruct (N.eqb_spec a b); try lia
         end; done.
Qed.

Lemma commaSafe_nil : commaSafe [].
Proof. by intros r. Qed.

Lemma commaSafe_app (a b : jsstring) : commaSafe a → commaSafe b → commaSafe (a ++ b).
Proof. intros Ha Hb r. by rewrite <- !app_assoc, Ha, Hb. Qed.

Lemma commaSafe_cons (c : N) (s : jsstring) : c ≠ 44%N → commaSafe s → commaSafe (c :: s).
Proof.
  intros Hc Hs r. simpl. destruct (N.eqb_spec c 44); [done|]. simpl. by rewrite Hs.
Qed.

Lemma commaSafe_no_comma (s : jsstring) : 44%N ∉ s → commaSafe s.
Proof.
  induction s as [|c s IH]; intros Hs; [apply commaSafe_nil|].
  apply commaSafe_cons.
  - intros ->. apply Hs. left.
  - apply IH. intros Hin. apply Hs. by right.
Qed.

Lemma closerAhead_goodStart (s r : jsstring) : goodStart s → closerAhead (s ++ r) = false.
Proof.
  intros (c & t & -> & Hsp & H1 & H2). simpl. rewrite Hsp.
  destruct (N.eqb_spec c 125); [done|]. by destruct (N.eqb_spec c 93).
Qed.

Lemma commaSafe_comma (s : jsstring) : goodStart s → commaSafe s → commaSafe (44%N :: s).
Proof.
  intros Hg Hs r. simpl. rewrite closerAhead_goodStart by done. by rewrite Hs.
Qed.

Lemma goodStart_app (a b : jsstring) : goodStart a → goodStart (a ++ b).
Proof. intros (c & t & -> & ?). by exists c, (t ++ b). Qed.

Lemma joinComma_cons2 (p q : jsstring) (r : list jsstring) :
  joinComma (p :: q :: r) = p ++ 44%N :: joinComma (q :: r).
Proof. done. Qed.

Lemma goodStart_joinComma (p : jsstring) (r : list jsstring) :
  goodStart p → goodStart (joinComma (p :: r)).
Proof.
  intros Hp. destruct r as [|q r]; [done|]. rewrite joinComma_cons2. by apply goodStart_app.
Qed.

Lemma commaSafe_joinComma (pieces : list jsstring) :
  Forall (λ p, commaSafe p ∧ goodStart p) pieces → commaSafe (joinComma pieces).
Proof.
  induction 1 as [|p r [Hs Hg] Hr IH]; [apply commaSafe_nil|].
  destruct r as [|q r]; [done|]. rewrite joinComma_cons2.
  apply commaSafe_app; [done|]. apply commaSafe_comma; [|done].
  apply goodStart_joinComma. by inversion Hr as [|?? [_ ?]].
Qed.

Lemma elem_of_joinComma (pieces : list jsstring) c :
  c ∈ joinComma pieces → c = 44%N ∨ ∃ p, p ∈ pieces ∧ c ∈ p.
Proof.
  induction pieces as [|p r IH]; [by intros ?%elem_of_nil|].
  destruct r as [|q r].
  - intros Hc. right. exists p. split; [left | done].
  - rewrite joinComma_cons2, elem_of_app, elem_of_cons. intros [Hc|[->|Hc]].
    + right. exists p. split; [left | done].
    + by left.
    + destruct (IH Hc) as [->|(p' & Hp' & Hc')]; [by left|].
      right. exists p'. split; [by right | done].
Qed.

Lemma plainChar_props c :
  plainChar c = true →
  c ≠ 96%N ∧ c ≠ 44%N ∧ c ≠ 91%N ∧ c ≠ 93%N ∧ c ≠ 123%N ∧ c ≠ 125%N.
Proof.
  unfold plainChar. intros H2%negb_true_iff.
  repeat (apply orb_false_elim in H2 as [H2 ?]).
  repeat match goal with Hx : (_ =? _)%N = false |- _ => apply N.eqb_neq in Hx end.
  done.
Qed.

Lemma plainChar_intro c :
  c ≠ 96%N → c ≠ 44%N → c ≠ 91%N → c ≠ 93%N → c ≠ 123%N → c ≠ 125%N →
  plainChar c = true.
Proof.
  intros. unfold plainChar.
  repeat match goal with
         | |- context [(?a =? ?b)%N] => destruct (N.eqb_spec a b); [done|]
         end.
  done.
Qed.

Lemma hexChar_plain (n : N) : (n < 16)%N → plainChar (hexChar n) = true.
Proof.
  intros Hn. unfold hexChar. destruct (N.ltb_spec n 10); apply plainChar_intro; lia.
Qed.

Lemma unicodeEscape_plain (c x : N) :
  (c < 65536)%N → x ∈ unicodeEscape c → plainChar x = true.
Proof.
  intros Hc. unfold unicodeEscape. rewrite !elem_of_cons.
  intros [->|[->|[->|[->|[->|[->|?%elem_of_nil]]]]]]; try done;
    apply hexChar_plain.
  - apply N.Div0.div_lt_upper_bound. lia.
  - by apply N.mod_lt.
  - by apply N.mod_lt.
  - by apply N.mod_lt.
Qed.

Lemma plainString_elem (s : jsstring) c : plainString s = true → c ∈ s → plainChar c = true.
Proof.
  unfold plainString. rewrite forallb_forall. intros Hs Hc. apply Hs.
  by apply list_elem_of_In.
Qed.

(** Escaping brings in backslashes, letters and hexadecimal digits only. *)
Lemma quoteChars_plain (s : jsstring) c :
  plainString s = true → c ∈ quoteChars s → plainChar c = true.
Proof.
  remember (length s) as n eqn:En. revert s En.
  induction n as [n IH] using lt_wf_ind. intros s -> Hs Hc.
  destruct s as [|a s]; [by apply elem_of_nil in Hc|].
  apply andb_prop in Hs as [Ha Hs]. change (plainString s = true) in Hs.
  assert (c ∈ quoteChars s → plainChar c = true) as IHs.
  { apply (IH (length s)); [simpl; lia | done | done]. }
  cbn [quoteChars] in Hc.
  repeat match type of Hc with
         | context [if (?x =? ?y)%N then _ else _] =>
             destruct (N.eqb_spec x y);
             [apply elem_of_cons in Hc as [->|Hc]; [done|];
              apply elem_of_cons in Hc as [->|Hc]; [done | by apply IHs]|]
         end.
  destruct (N.ltb_spec a 32).
  { apply elem_of_app in Hc as [Hc|Hc]; [|by apply IHs].
    apply (unicodeEscape_plain a); [lia | done]. }
  destruct (isHighSurrogate a) eqn:Eh.
  { assert (a < 65536)%N as Hlt.
    { unfold isHighSurrogate in Eh. apply andb_prop in Eh as [_ ?%N.leb_le]. lia. }
    destruct s as [|d s'].
    - by apply (unicodeEscape_plain a).
    - destruct (isLowSurrogate d).
      + apply andb_prop in Hs as [Hd Hs']. change (plainString s' = true) in Hs'.
        apply elem_of_cons in Hc as [->|Hc]; [done|].
        apply elem_of_cons in Hc as [->|Hc]; [done|].
        apply (IH (length s') ltac:(simpl; lia) s' eq_refl Hs' Hc).
      + apply elem_of_app in Hc as [Hc|Hc]; [by apply (unicodeEscape_plain a)|].
        by apply IHs. }
  destruct (isLowSurrogate a) eqn:El.
  { assert (a < 65536)%N as Hlt.
    { unfold isLowSurrogate in El. apply andb_prop in El as [_ ?%N.leb_le]. lia. }
    apply elem_of_app in Hc as [Hc|Hc]; [by apply (unicodeEscape_plain a) | by apply IHs]. }
  apply elem_of_cons in Hc as [->|Hc]; [done | by apply IHs].
Qed.

Lemma quote_chars (s : jsstring) c :
  plainString s = true → c ∈ quote s → plainChar c = true.
Proof.
  intros Hs. unfold quote.
  rewrite elem_of_cons, elem_of_app, list_elem_of_singleton.
  intros [->|[?| ->]]; [done | by eapply quoteChars_plain | done].
Qed.

Lemma commaSafe_quote (s : jsstring) : plainString s = true → commaSafe (quote s).
Proof.
  intros Hs. apply commaSafe_no_comma. intros Hc. apply (quote_chars s _ Hs) in Hc.
  by apply plainChar_props in Hc as (_ & ? & _).
Qed.

Lemma goodStart_quote (s : jsstring) : goodStart (quote s).
Proof. by exists 34%N, (quoteChars s ++ [34%N]). Qed.

Lemma numChar_props c :
  numChar c = true → c ≠ 44%N ∧ c ≠ 96%N ∧ c ≠ 123%N ∧ c ≠ 91%N.
Proof.
  unfold numChar, isDigit. intros Hc.
  repeat match type of Hc with
         | context [(?a <=? ?b)%N] => destruct (N.leb_spec a b)
         | context [(?a =? ?b)%N] => destruct (N.eqb_spec a b)
         end; simpl in Hc; try done; repeat split; lia.
Qed.

Lemma stringify_JArr (l : list json) :
  stringify (JArr l) = 91%N :: joinComma (map stringify l) ++ [93%N].
Proof. done. Qed.

Lemma stringify_JObj (kv : list (jsstring * json)) :
  stringify (JObj kv)
  = 123%N :: joinComma (map (λ p, quote (fst p) ++ 58%N :: stringify (snd p)) kv)
    ++ [125%N].
Proof. done. Qed.

Lemma goodStart_stringify (v : json) : goodStart (stringify v).
Proof.
  destruct v as [| [|] | m e | s | l | kv].
  - by eexists _, _.
  - by eexists _, _.
  - by eexists _, _.
  - apply numChar_goodStart.
  - apply goodStart_quote.
  - rewrite stringify_JArr. by eexists _, _.
  - rewrite stringify_JObj. by eexists _, _.
Qed.

Lemma commaSafe_stringify (v : json) : plainValue v = true → commaSafe (stringify v).
Proof.
  induction v as [| b | m e | s | l IH | kv IH] using json_induction; intros Hp.
  - by apply commaSafe_no_comma; vm_compute; intros ?%list_elem_of_In; simpl in *; intuition lia.
  - destruct b; apply commaSafe_no_comma; intros ?%list_elem_of_In;
      vm_compute in *; intuition lia.
  - apply commaSafe_no_comma. intros Hc%numChars_chars. done.
  - by apply commaSafe_quote.
  - rewrite stringify_JArr. apply commaSafe_cons; [done|].
    apply commaSafe_app; [|by apply commaSafe_no_comma; intros ?%list_elem_of_singleton].
    apply commaSafe_joinComma. simpl in Hp. rewrite forallb_forall in Hp.
    rewrite Forall_forall in IH. apply Forall_forall.
    intros p (x & -> & Hx)%list_elem_of_fmap. split; [|apply goodStart_stringify].
    apply IH; [done|]. by apply Hp, list_elem_of_In.
  - rewrite stringify_JObj. apply commaSafe_cons; [done|].
    apply commaSafe_app; [|by apply commaSafe_no_comma; intros ?%list_elem_of_singleton].
    apply commaSafe_joinComma. simpl in Hp. rewrite forallb_forall in Hp.
    rewrite Forall_forall in IH. apply Forall_forall.
    intros p (x & -> & Hx)%list_elem_of_fmap.
    apply list_elem_of_In in Hx as Hx'. apply Hp in Hx' as [Hk Hv]%andb_prop.
    split; [|apply goodStart_app, goodStart_quote].
    apply commaSafe_app; [by apply commaSafe_quote|].
    apply commaSafe_cons; [done|]. by apply IH.
Qed.

Lemma stringify_chars (v : json) c :
  plainValue v = true → c ∈ stringify v →
  c ≠ 96%N ∧ (objectFree v = true → c ≠ 123%N).
Proof.
  revert c. induction v as [| b | m e | s | l IH | kv IH] using json_induction;
    intros c Hp Hc.
  - apply list_elem_of_In in Hc. vm_compute in Hc. intuition (subst; done).
  - apply list_elem_of_In in Hc. destruct b; vm_compute in Hc; intuition (subst; done).
  - apply numChars_chars, numChar_props in Hc. tauto.
  - apply (quote_chars s c Hp) in Hc.
    apply plainChar_props in Hc. tauto.
  - rewrite stringify_JArr in Hc. simpl in Hp. rewrite forallb_forall in Hp.
    rewrite Forall_forall in IH.
    apply elem_of_cons in Hc as [->|Hc]; [done|].
    apply elem_of_app in Hc as [Hc|Hc%list_elem_of_singleton]; [|by subst].
    apply elem_of_joinComma in Hc as [->|(p & (x & -> & Hx)%list_elem_of_fmap & Hc)]; [done|].
    destruct (IH x Hx c) as [H1 H2]; [by apply Hp, list_elem_of_In | done |].
    split; [done|]. simpl. rewrite forallb_forall. intros Hof. apply H2.
    by apply Hof, list_elem_of_In.
  - split; [|done]. rewrite stringify_JObj in Hc. simpl in Hp. rewrite forallb_forall in Hp.
    rewrite Forall_forall in IH.
    apply elem_of_cons in Hc as [->|Hc]; [done|].
    apply elem_of_app in Hc as [Hc|Hc%list_elem_of_singleton]; [|by subst].
    apply elem_of_joinComma in Hc as [->|(p & (x & -> & Hx)%list_elem_of_fmap & Hc)]; [done|].
    apply list_elem_of_In in Hx as Hx'. apply Hp in Hx' as [Hk Hv]%andb_prop.
    apply elem_of_app in Hc as [Hc|Hc].
    + apply (quote_chars _ c Hk) in Hc.
      apply plainChar_props in Hc. tauto.
    + apply elem_of_cons in Hc as [->|Hc]; [done|].
      by destruct (IH x Hx c Hv Hc).
Qed.

Lemma wholeCandidate_stringify (v : json) :
  plainValue v = true → extractable v = true → wholeCandidate (stringify v).
Proof.
  intros Hp He.
  assert (objectFree v = true → 123%N ∉ stringify v) as Hbrace.
  { intros Hof Hc. by destruct (stringify_chars v _ Hp Hc) as [_ Hn]; apply Hn. }
  destruct v as [| b | m e | s | l | kv].
  - right; right. split; [by apply Hbrace|].
    intros Hc%list_elem_of_In. vm_compute in Hc. intuition done.
  - right; right. split; [by apply Hbrace|].
    intros Hc%list_elem_of_In. destruct b; vm_compute in Hc; intuition done.
  - right; right. split; [by apply Hbrace|].
    intros Hc%numChars_chars%numChar_props. tauto.
  - right; right. split; [by apply Hbrace|].
    intros Hc. apply (quote_chars s _ Hp) in Hc.
    apply plainChar_props in Hc. tauto.
  - right; left. split; [by apply Hbrace|]. rewrite stringify_JArr. eauto.
  - left. rewrite stringify_JObj. eauto.
Qed.

End ClientFacts.

(** * The gift recommendation service: lemmas and theorems *)

Section RecommendFacts.
Context `{Host}.

Lemma removeLoop_unique Si Sn l : (removeLoop Si Sn l).1 = dedupLoop Si Sn l.
Proof.
  revert Si Sn. induction l as [|g l IH]; intros Si Sn; simpl; [done|].
  match goal with |- context [removeLoop ?Si' ?Sn' l] =>
    specialize (IH Si' Sn'); destruct (removeLoop Si' Sn' l) as [u d] end.
  simpl in IH. rewrite <- IH.
  destruct (nonEmpty (productId g) && bool_decide (productId g ∈ Si)); simpl; [done|].
  by destruct (nonEmpty (productName g) && bool_decide (productName g ∈ Sn)).
Qed.

Lemma removeLoop_length Si Sn l :
  length (removeLoop Si Sn l).1 + length (removeLoop Si Sn l).2 = length l.
Proof.
  revert Si Sn. induction l as [|g l IH]; intros Si Sn; simpl; [done|].
  match goal with |- context [removeLoop ?Si' ?Sn' l] =>
    specialize (IH Si' Sn'); destruct (removeLoop Si' Sn' l) as [u d] end.
  simpl in IH.
  destruct (nonEmpty (productId g) && bool_decide (productId g ∈ Si)); simpl; [lia|].
  destruct (nonEmpty (productName g) && bool_decide (productName g ∈ Sn)); simpl; lia.
Qed.

Lemma removeLoop_duplicates_sublist Si Sn l :
  (dup_gift <$> (removeLoop Si Sn l).2) `sublist_of` l.
Proof.
  revert Si Sn. induction l as [|g l IH]; intros Si Sn; simpl; [done|].
  match goal with |- context [removeLoop ?Si' ?Sn' l] =>
    specialize (IH Si' Sn'); destruct (removeLoop Si' Sn' l) as [u d] end.
  simpl in IH.
  destruct (nonEmpty (productId g) && bool_decide (productId g ∈ Si)); simpl;
    [by apply sublist_skip|].
  destruct (nonEmpty (productName g) && bool_decide (productName g ∈ Sn)); simpl;
    [by apply sublist_skip | by apply sublist_cons].
Qed.

Lemma removeLoop_duplicate Si Sn l d :
  d ∈ (removeLoop Si Sn l).2 →
  ∃ j, l !! j = Some (dup_gift d)
       ∧ ((dup_reason d = ID_DUPLICATE ++ productId (dup_gift d)
           ∧ productId (dup_gift d) ≠ []
           ∧ (productId (dup_gift d) ∈ Si
              ∨ ∃ i g, i < j ∧ l !! i = Some g
                       ∧ productId g = productId (dup_gift d)))
          ∨ (dup_reason d = NAME_DUPLICATE ++ productName (dup_gift d)
             ∧ productName (dup_gift d) ≠ []
             ∧ (productName (dup_gift d) ∈ Sn
                ∨ ∃ i g, i < j ∧ l !! i = Some g
                         ∧ productName g = productName (dup_gift d)))).
Proof.
  revert Si Sn. induction l as [|x l IH]; intros Si Sn; simpl; [by intros ?%elem_of_nil|].
  match goal with |- context [removeLoop ?Si' ?Sn' l] =>
    specialize (IH Si' Sn'); destruct (removeLoop Si' Sn' l) as [u ds] end.
  simpl in IH.
  assert (d ∈ ds →
          ∃ j, (x :: l) !! j = Some (dup_gift d)
               ∧ ((dup_reason d = ID_DUPLICATE ++ productId (dup_gift d)
                   ∧ productId (dup_gift d) ≠ []
                   ∧ (productId (dup_gift d) ∈ Si
                      ∨ ∃ i g, i < j ∧ (x :: l) !! i = Some g
                               ∧ productId g = productId (dup_gift d)))
                  ∨ (dup_reason d = NAME_DUPLICATE ++ productName (dup_gift d)
                     ∧ productName (dup_gift d) ≠ []
                     ∧ (productName (dup_gift d) ∈ Sn
                        ∨ ∃ i g, i < j ∧ (x :: l) !! i = Some g
                                 ∧ productName g = productName (dup_gift d))))) as Htail.
  { intros Hd. destruct (IH Hd) as (j & Hj & Hc). exists (S j). split; [done|].
    destruct Hc as [(Hr & Hne & Hc)|(Hr & Hne & Hc)]; [left | right];
      (split; [done|]; split; [done|]).
    - destruct Hc as [Hc|(i & g & Hij & Hi & Hg)].
      + match type of Hc with _ ∈ (if ?b then _ else _) => destruct b end;
          [|by left].
        apply elem_of_union in Hc as [Hc%elem_of_singleton|Hc]; [|by left].
        right. exists 0, x. split; [lia | done].
      + right. exists (S i), g. split; [lia | done].
    - destruct Hc as [Hc|(i & g & Hij & Hi & Hg)].
      + match type of Hc with _ ∈ (if ?b then _ else _) => destruct b end;
          [|by left].
        apply elem_of_union in Hc as [Hc%elem_of_singleton|Hc]; [|by left].
        right. exists 0, x. split; [lia | done].
      + right. exists (S i), g. split; [lia | done]. }
  destruct (nonEmpty (productId x)) eqn:Ei; simpl in *.
  - case_bool_decide as HS; simpl in *.
    + intros [->|Hd]%elem_of_cons; [|by apply Htail].
      exists 0. split; [done|]. left. simpl.
      split; [done|]. split; [by apply nonEmpty_true | by left].
    + destruct (nonEmpty (productName x)) eqn:En; simpl in *; [|done].
      case_bool_decide as HT; simpl in *; [|done].
      intros [->|Hd]%elem_of_cons; [|by apply Htail].
      exists 0. split; [done|]. right. simpl.
      split; [done|]. split; [by apply nonEmpty_true | by left].
  - destruct (nonEmpty (productName x)) eqn:En; simpl in *; [|done].
    case_bool_decide as HT; simpl in *; [|done].
    intros [->|Hd]%elem_of_cons; [|by apply Htail].
    exists 0. split; [done|]. right. simpl.
    split; [done|]. split; [by apply nonEmpty_true | by left].
Qed.

Lemma removeDuplicateGifts_clean gifts :
  allDistinct gifts → removeDuplicateGifts gifts = (gifts, []).
Proof.
  intros Hd. unfold removeDuplicateGifts.
  pose proof (removeLoop_unique ∅ ∅ gifts) as Hu.
  pose proof (removeLoop_length ∅ ∅ gifts) as Hl.
  change (dedupLoop ∅ ∅ gifts) with (dedupGifts gifts) in Hu.
  rewrite dedupGifts_id in Hu by done.
  destruct (removeLoop ∅ ∅ gifts) as [u ds]. simpl in *. subst u.
  f_equal. apply nil_length_inv. lia.
Qed.

(** X1.  [removeDuplicateGifts] splits its input: the gifts it keeps are the
    ones the de-duplication loop of [rerankGifts] keeps, in the order of the
    input, no two of them share a non-empty product id or a non-empty
    normalized name, and every gift of the input is either kept or reported
    as a duplicate. *)
Theorem removeDuplicateGifts_partition (gifts : list Gift) :
  (removeDuplicateGifts gifts).1 = dedupGifts gifts
  ∧ noTwoSame (removeDuplicateGifts gifts).1
  ∧ (removeDuplicateGifts gifts).1 `sublist_of` gifts
  ∧ (dup_gift <$> (removeDuplicateGifts gifts).2) `sublist_of` gifts
  ∧ length (removeDuplicateGifts gifts).1 + length (removeDuplicateGifts gifts).2
    = length gifts.
Proof.
  unfold removeDuplicateGifts. rewrite removeLoop_unique.
  split; [done|]. split; [apply dedupGifts_noTwoSame|].
  split; [apply dedupLoop_sublist|].
  split; [apply removeLoop_duplicates_sublist|].
  rewrite <- (removeLoop_unique ∅ ∅ gifts). apply removeLoop_length.
Qed.

(** X2.  Every duplicate that [removeDuplicateGifts] reports stands later
    in the input than a gift with the same non-empty product id (reason
    "ID 중복: ...") or the same non-empty normalized name (reason
    "이름 중복: ..."). *)
Theorem removeDuplicateGifts_reports_twin (gifts : list Gift) (d : Duplicate) :
  d ∈ (removeDuplicateGifts gifts).2 → duplicateOf gifts d.
Proof.
  intros Hd. apply removeLoop_duplicate in Hd as (j & Hj & Hc).
  destruct Hc as [(Hr & Hne & [Hc|(i & g & Hij & Hi & Hg)])
                 |(Hr & Hne & [Hc|(i & g & Hij & Hi & Hg)])];
    try (by apply elem_of_empty in Hc).
  - exists i, j, g. split; [done|]. split; [done|]. split; [done|].
    left. split; [done|]. split; [congruence | done].
  - exists i, j, g. split; [done|]. split; [done|]. split; [done|].
    right. split; [done|]. split; [congruence | done].
Qed.

(** X3.  [removeDuplicateGifts] returns its input unchanged, with no
    duplicate reported, exactly when no two gifts of the input share a
    non-empty product id or a non-empty normalized name; so running it on
    its own result changes nothing. *)
Theorem removeDuplicateGifts_fixpoint (gifts : list Gift) :
  (removeDuplicateGifts gifts = (gifts, []) ↔ noTwoSame gifts)
  ∧ removeDuplicateGifts (removeDuplicateGifts gifts).1
    = ((removeDuplicateGifts gifts).1, []).
Proof.
  split.
  - split.
    + intros E. pose proof (removeLoop_unique ∅ ∅ gifts) as Hu.
      unfold removeDuplicateGifts in E. rewrite E in Hu. simpl in Hu.
      rewrite Hu. apply dedupGifts_noTwoSame.
    + intros Hn. by apply removeDuplicateGifts_clean, noTwoSame_allDistinct.
  - apply removeDuplicateGifts_clean. unfold removeDuplicateGifts.
    rewrite removeLoop_unique. apply dedupLoop_allDistinct.
Qed.

(** ** [performRerankingAndGenerateRationale] *)

Lemma generateGiftRationale_settles apiKey gift personaString originalData backend :
  generateGiftRationale apiKey gift personaString originalData backend ≠ Hang.
Proof.
  unfold generateGiftRationale. destruct apiKey; simpl; [|done].
  destruct backend as [| |content]; try done.
  destruct (JSON_parse _) as [v|]; [|done]. by destruct (validRationale v).
Qed.

Lemma rerankGifts_settles apiKey gifts personaString originalData topN profile backend :
  rerankGifts apiKey gifts personaString originalData topN profile backend ≠ Hang.
Proof.
  destruct apiKey; [|done].
  destruct (rerankGifts_returns gifts personaString originalData topN profile backend)
    as [res ->]. done.
Qed.

Lemma fallbackCard_ids searchQuery fallbackDesc (n : nat) (l : list Gift) :
  card_id <$> imap (λ i, fallbackCard searchQuery fallbackDesc (n + i)) l
  = seq (n + 1) (length l).
Proof.
  revert n. induction l as [|g l IH]; intros n; [done|].
  rewrite imap_cons. simpl. f_equal; [lia|].
  replace (S (n + 1)) with (S n + 1) by lia.
  rewrite <- (IH (S n)). f_equal. apply imap_ext. intros i x _. simpl.
  f_equal. lia.
Qed.

Lemma cards_settle (f : nat → Gift → option RationaleCard) (n : nat) (l : list Gift) :
  (∀ i g, ∃ c, f i g = Some c ∧ card_id c = n + i + 1) →
  ∃ cards, mapM id (imap f l) = Some cards
           ∧ card_id <$> cards = seq (n + 1) (length l).
Proof.
  revert n f. induction l as [|g l IH]; intros n f Hf.
  - exists []. done.
  - rewrite imap_cons. destruct (Hf 0 g) as (c & Hc & Hid).
    destruct (IH (S n) (f ∘ S)) as (cards & Hcards & Hids).
    { intros i x. destruct (Hf (S i) x) as (c' & Hc' & Hid').
      exists c'. split; [done | lia]. }
    exists (c :: cards). split.
    + simpl. rewrite Hc. simpl. by rewrite Hcards.
    + rewrite fmap_cons. cbn [length seq]. f_equal; [lia|].
      by rewrite Hids.
Qed.

Lemma rationaleCard_settles apiKey personaString personaData searchQuery fallbackDesc
    rationaleBackend (i : nat) (g : Gift) :
  ∃ c, rationaleCard apiKey personaString personaData searchQuery fallbackDesc
         rationaleBackend i g = Some c
       ∧ card_id c = 0 + i + 1.
Proof.
  unfold rationaleCard.
  pose proof (generateGiftRationale_settles apiKey g personaString personaData
                (rationaleBackend i)) as Hs.
  destruct (generateGiftRationale _ _ _ _ _) as [r|e|]; [| |done]; eauto.
Qed.

(** X4.  [performRerankingAndGenerateRationale] always returns, whatever the
    API key and the replies of the backend: one card per recommended gift,
    numbered from 1 in order; the recommended gifts are gifts of the input
    taken at pairwise different positions, at most [max topN 3] of them. *)
Theorem performReranking_returns
    apiKey allGifts personaString personaData preferenceProfile topN
    searchQuery fallbackDesc rerankBackend rationaleBackend :
  ∃ recommendedGifts rationaleCards,
    performRerankingAndGenerateRationale apiKey allGifts personaString personaData
      preferenceProfile topN searchQuery fallbackDesc rerankBackend rationaleBackend
    = Return (recommendedGifts, rationaleCards)
    ∧ card_id <$> rationaleCards = seq 1 (length recommendedGifts)
    ∧ (∃ idxs, NoDup idxs ∧ selects allGifts idxs recommendedGifts)
    ∧ length recommendedGifts ≤ topN `max` RERANK_THRESHOLD.
Proof.
  unfold performRerankingAndGenerateRationale.
  destruct (Nat.ltb_spec RERANK_THRESHOLD (length allGifts)) as [Hgt|Hle].
  - pose proof (rerankGifts_settles apiKey allGifts personaString personaData topN
                  preferenceProfile rerankBackend) as Hs.
    destruct (rerankGifts _ _ _ _ _ _ _) as [res|e|] eqn:Er; [| |done].
    + destruct (cards_settle
                  (rationaleCard apiKey personaString personaData searchQuery
                     fallbackDesc rationaleBackend) 0 res) as (cards & -> & Hids).
      { intros i g. apply rationaleCard_settles. }
      apply rerankGifts_selection in Er as (idxs & Hnd & Hlen & Hsel).
      exists res, cards. split; [done|]. split; [done|]. split; [eauto|].
      apply Forall2_length in Hsel. lia.
    + exists (take topN allGifts), (imap (fallbackCard searchQuery fallbackDesc)
                                       (take topN allGifts)).
      split; [done|]. split; [apply (fallbackCard_ids _ _ 0)|]. split.
      * exists (take topN (seq 0 (length allGifts))).
        split; [apply NoDup_take, NoDup_seq | apply selects_take, selects_seq].
      * rewrite length_take. lia.
  - exists allGifts, (imap (fallbackCard searchQuery fallbackDesc) allGifts).
    split; [done|]. split; [apply (fallbackCard_ids _ _ 0)|]. split.
    + exists (seq 0 (length allGifts)). split; [apply NoDup_seq | apply selects_seq].
    + lia.
Qed.

(** X5.  With the API key configured and more than three candidates, every
    card carries the title and the description that [generateGiftRationale]
    returned for the gift at the same position: the fallback card of the
    callback is never used. *)
Theorem performReranking_cards_from_rationale
    allGifts personaString personaData preferenceProfile topN
    searchQuery fallbackDesc rerankBackend rationaleBackend :
  RERANK_THRESHOLD < length allGifts →
  ∃ recommendedGifts rationaleCards,
    rerankGifts true allGifts personaString personaData topN preferenceProfile
      rerankBackend = Return recommendedGifts
    ∧ performRerankingAndGenerateRationale true allGifts personaString personaData
        preferenceProfile topN searchQuery fallbackDesc rerankBackend rationaleBackend
      = Return (recommendedGifts, rationaleCards)
    ∧ Forall2 (λ '(i, gift) card,
                 ∃ rationale,
                   generateGiftRationale true gift personaString personaData
                     (rationaleBackend i) = Return rationale
                   ∧ card = {| card_id := i + 1;
                               card_title := title rationale;
                               card_description := description rationale |})
        (imap pair recommendedGifts) rationaleCards.
Proof.
  intros Hgt. unfold performRerankingAndGenerateRationale.
  destruct (Nat.ltb_spec RERANK_THRESHOLD (length allGifts)) as [_|]; [|lia].
  destruct (rerankGifts_returns allGifts personaString personaData topN
              preferenceProfile rerankBackend) as [res ->].
  destruct (cards_settle
              (rationaleCard true personaString personaData searchQuery
                 fallbackDesc rationaleBackend) 0 res) as (cards & Hcards & _).
  { intros i g. apply rationaleCard_settles. }
  exists res, cards. split; [done|]. split; [by rewrite Hcards|].
  apply mapM_Some in Hcards. apply Forall2_same_length_lookup. split.
  - apply Forall2_length in Hcards. rewrite length_imap in Hcards.
    by rewrite length_imap.
  - intros i [j g] c Hi Hc. rewrite list_lookup_imap in Hi.
    destruct (res !! i) as [g'|] eqn:E; simpl in Hi; [|done]. injection Hi as <- <-.
    destruct (Forall2_lookup_r _ _ _ i c Hcards Hc) as (x & Hx & Hxc).
    rewrite list_lookup_imap, E in Hx. simpl in Hx. injection Hx as <-.
    unfold rationaleCard in Hxc.
    destruct (generateGiftRationale_returns g' personaString personaData
                (rationaleBackend i)) as [r Hr].
    rewrite Hr in Hxc. injection Hxc as <-. by exists r.
Qed.

(** X6.  Without the API key and with more than three candidates,
    [rerankGifts] throws and [performRerankingAndGenerateRationale] answers
    with the first [topN] gifts of the input and cards made of the head of
    the category and of the search query; with at most three candidates the
    input is returned whole with such cards, whatever [topN] is. *)
Theorem performReranking_without_ranking
    apiKey allGifts personaString personaData preferenceProfile topN
    searchQuery fallbackDesc rerankBackend rationaleBackend :
  (length allGifts ≤ RERANK_THRESHOLD →
   performRerankingAndGenerateRationale apiKey allGifts personaString personaData
     preferenceProfile topN searchQuery fallbackDesc rerankBackend rationaleBackend
   = Return (allGifts, imap (fallbackCard searchQuery fallbackDesc) allGifts))
  ∧ (RERANK_THRESHOLD < length allGifts → apiKey = false →
     performRerankingAndGenerateRationale apiKey allGifts personaString personaData
       preferenceProfile topN searchQuery fallbackDesc rerankBackend rationaleBackend
     = Return (take topN allGifts,
               imap (fallbackCard searchQuery fallbackDesc) (take topN allGifts))).
Proof.
  unfold performRerankingAndGenerateRationale. split.
  - intros Hle. destruct (Nat.ltb_spec RERANK_THRESHOLD (length allGifts)); [lia | done].
  - intros Hgt ->. destruct (Nat.ltb_spec RERANK_THRESHOLD (length allGifts)); [done | lia].
Qed.

End RecommendFacts.

(** * Keywords, preferences and chat: lemmas and theorems *)

Section MoreServiceFacts.
Context `{Host}.

Lemma trimStart_incl (s : jsstring) c : c ∈ trimStart s → c ∈ s.
Proof.
  induction s as [|d s IH]; simpl; [done|].
  destruct (isSpace d); [|done]. intros Hc. right. by apply IH.
Qed.

Lemma trimStart_keeps (s : jsstring) c : c ∈ s → isSpace c = false → c ∈ trimStart s.
Proof.
  induction s as [|d s IH]; simpl; [done|].
  intros Hc Hs. destruct (isSpace d) eqn:Ed; [|done].
  apply elem_of_cons in Hc as [->|Hc]; [congruence | by apply IH].
Qed.

Lemma trimStart_head (s : jsstring) c r : trimStart s = c :: r → isSpace c = false.
Proof.
  induction s as [|d s IH]; simpl; [done|].
  destruct (isSpace d) eqn:Ed; [done|]. by intros [= <- _].
Qed.

Lemma elem_of_rev {A} (l : list A) (x : A) : x ∈ rev l ↔ x ∈ l.
Proof. rewrite !list_elem_of_In. symmetry. apply in_rev. Qed.

Lemma trim_keeps (s : jsstring) c : c ∈ s → isSpace c = false → c ∈ trim s.
Proof.
  intros Hc Hs. unfold trim, trimEnd. apply elem_of_rev, trimStart_keeps; [|done].
  by apply elem_of_rev, trimStart_keeps.
Qed.

Lemma nonBlank_iff (s : jsstring) : nonBlank s ↔ ∃ c, c ∈ s ∧ isSpace c = false.
Proof.
  unfold nonBlank. split.
  - intros Hne. unfold trim, trimEnd in Hne.
    destruct (trimStart (rev (trimStart s))) as [|c r] eqn:E; [done|].
    exists c. split; [|by eapply trimStart_head].
    apply trimStart_incl, elem_of_rev, trimStart_incl. rewrite E. left.
  - intros (c & Hc & Hs) E. apply (trim_keeps s c) in Hc; [|done].
    rewrite E in Hc. by apply elem_of_nil in Hc.
Qed.

Lemma nonBlank_trim (s : jsstring) : nonBlank s → nonBlank (trim s).
Proof.
  rewrite !nonBlank_iff. intros (c & Hc & Hs). exists c. split; [|done].
  by apply trim_keeps.
Qed.

Lemma nonBlank_app_r (a b : jsstring) : nonBlank b → nonBlank (a ++ b).
Proof.
  rewrite !nonBlank_iff. intros (c & Hc & Hs). exists c. split; [|done].
  apply elem_of_app. by right.
Qed.

Lemma nonBlank_GIFT_SUFFIX (a : jsstring) : nonBlank (a ++ GIFT_SUFFIX).
Proof.
  apply nonBlank_app_r, nonBlank_iff. exists 49440%N. split; [|done].
  right. left.
Qed.

Lemma nonEmpty_trim_nonBlank (s : jsstring) : nonEmpty (trim s) = true → nonBlank s.
Proof. intros E. by apply nonEmpty_true in E. Qed.

Lemma nonBlank_query (userQuery : jsstring) :
  nonBlank userQuery ↔ nonEmpty userQuery && nonEmpty (trim userQuery) = true.
Proof.
  rewrite andb_true_iff, !nonEmpty_true. unfold nonBlank. split; [|tauto].
  intros Hne. split; [|done]. intros ->. by apply Hne.
Qed.

Lemma extractKeywordsFallback_parts (personaData : OriginalData) (userQuery : jsstring) :
  1 ≤ length (extractKeywordsFallback personaData userQuery) ≤ 3
  ∧ Forall nonBlank (extractKeywordsFallback personaData userQuery).
Proof.
  unfold extractKeywordsFallback.
  pose proof (nonBlank_query userQuery) as Hq.
  destruct (nonEmpty userQuery && nonEmpty (trim userQuery)) eqn:Eq;
    destruct (nonEmpty (memo personaData) && nonEmpty (trim (memo personaData)));
    try destruct (nonEmpty (cleanMemo (memo personaData)));
    destruct (nonEmpty (addMemo personaData) && nonEmpty (trim (addMemo personaData)));
    try destruct (list_find _ occasions) as [[? occasion]|];
    simpl;
    (split; [lia|]);
    repeat (apply Forall_cons; split);
    try apply Forall_nil;
    try apply nonBlank_GIFT_SUFFIX;
    try (apply nonBlank_trim, Hq; done);
    try (apply nonBlank_iff; exists 49440%N; split; [left | done]);
    done.
Qed.

(** X7.  [extractKeywordsFallback] never returns an empty list: it gives
    between one and three keywords, none of them blank, and a user query
    that is not blank comes first, trimmed. *)
Theorem extractKeywordsFallback_keywords (personaData : OriginalData)
    (userQuery : jsstring) :
  1 ≤ length (extractKeywordsFallback personaData userQuery) ≤ 3
  ∧ Forall nonBlank (extractKeywordsFallback personaData userQuery)
  ∧ (nonBlank userQuery →
     extractKeywordsFallback personaData userQuery !! 0 = Some (trim userQuery)).
Proof.
  destruct (extractKeywordsFallback_parts personaData userQuery) as [Hl Hf].
  split; [done|]. split; [done|].
  intros Hq%nonBlank_query. unfold extractKeywordsFallback. rewrite Hq.
  destruct (nonEmpty (memo personaData) && nonEmpty (trim (memo personaData)));
    try destruct (nonEmpty (cleanMemo (memo personaData)));
    destruct (nonEmpty (addMemo personaData) && nonEmpty (trim (addMemo personaData)));
    try destruct (list_find _ occasions) as [[? occasion]|];
    done.
Qed.

Lemma keywordOf_nonBlank (l : list json) : Forall nonBlank (omap keywordOf l).
Proof.
  apply Forall_forall. intros k (x & Hx & Hk)%list_elem_of_omap.
  destruct x as [| | | s | |]; try done. simpl in Hk.
  destruct (nonEmpty (trim s)) eqn:E; [|done]. injection Hk as <-.
  by apply nonEmpty_trim_nonBlank.
Qed.

(** X8.  Whatever the API key and the reply of the backend,
    [extractSearchKeywords] returns keywords that are not blank; it can
    return no keyword at all only from a reply of the model, every other
    path giving the keywords of [extractKeywordsFallback]. *)
Theorem extractSearchKeywords_keywords (apiKey : bool) (personaData : OriginalData)
    (userQuery : jsstring) (backend : completion) :
  Forall nonBlank (extractSearchKeywords apiKey personaData userQuery backend)
  ∧ (extractSearchKeywords apiKey personaData userQuery backend = [] →
     apiKey = true ∧ ∃ content, backend = Content content)
  ∧ (apiKey = false ∨ backend = RequestFailed ∨ backend = NoChoices →
     extractSearchKeywords apiKey personaData userQuery backend
     = extractKeywordsFallback personaData userQuery).
Proof.
  pose proof (extractKeywordsFallback_parts personaData userQuery) as Hfb.
  unfold extractSearchKeywords.
  destruct apiKey; simpl.
  2:{ split; [apply Hfb|]. split; [|done]. intros E. destruct Hfb as [Hl _].
      rewrite E in Hl. simpl in Hl. lia. }
  destruct backend as [| |content].
  1,2: (split; [apply Hfb|]; split; [|done]; intros E; destruct Hfb as [Hl _];
        rewrite E in Hl; simpl in Hl; lia).
  split; [|split; [eauto | by intros [|[|]]]].
  destruct (JSON_parse _) as [[| | | | [|k ks] |]|]; try apply Hfb.
  apply (keywordOf_nonBlank (k :: ks)).
Qed.

(** ** [extractPreferencesFromMemo] *)

Lemma normalizeArray_nonBlank (arr : json) (l : list Preference) :
  normalizeArray arr = Some l → Forall (λ p, nonBlank (pref_item p)) l.
Proof.
  destruct arr as [| | | | items |]; simpl; try (by intros [= <-]).
  destruct (mapM normalizeItem items) as [ps|]; simpl; [|done]. intros [= <-].
  apply Forall_forall. intros p [Hp _]%list_elem_of_filter.
  by apply nonEmpty_trim_nonBlank.
Qed.

Lemma normalizeArray_null (items : list json) :
  JNull ∈ items → normalizeArray (JArr items) = None.
Proof.
  intros Hin. simpl.
  destruct (mapM normalizeItem items) as [ps|] eqn:E; [|done].
  apply mapM_Some in E.
  apply list_elem_of_lookup in Hin as [i Hi].
  destruct (Forall2_lookup_l _ _ _ _ _ E Hi) as (p & _ & Hp). done.
Qed.

Lemma normalizeParsed_nonBlank (parsed : json) (prefs : Preferences) :
  normalizeParsed parsed = Some prefs →
  Forall (λ p, nonBlank (pref_item p))
    (pref_likes prefs ++ pref_dislikes prefs ++ pref_uncertain prefs).
Proof.
  unfold normalizeParsed.
  destruct (memberOrEmpty "likes" parsed ≫= normalizeArray) as [l|] eqn:El;
    simpl; [|done].
  destruct (memberOrEmpty "dislikes" parsed ≫= normalizeArray) as [d|] eqn:Ed;
    simpl; [|done].
  destruct (memberOrEmpty "uncertain" parsed ≫= normalizeArray) as [u|] eqn:Eu;
    simpl; [|done].
  intros [= <-]. simpl.
  apply bind_Some in El as (? & _ & El). apply bind_Some in Ed as (? & _ & Ed).
  apply bind_Some in Eu as (? & _ & Eu).
  rewrite !Forall_app. repeat split; by eapply normalizeArray_nonBlank.
Qed.

(** X9.  Every entry that [extractPreferencesFromMemo] returns, in any of
    the three lists and whatever the model replied, has an item that is not
    blank. *)
Theorem extractPreferencesFromMemo_items (apiKey : bool) (backend : completion) :
  Forall (λ p, nonBlank (pref_item p))
    (pref_likes (extractPreferencesFromMemo apiKey backend)
     ++ pref_dislikes (extractPreferencesFromMemo apiKey backend)
     ++ pref_uncertain (extractPreferencesFromMemo apiKey backend)).
Proof.
  unfold extractPreferencesFromMemo.
  destruct apiKey; simpl; [|constructor].
  destruct backend as [| |content]; try constructor.
  destruct (JSON_parse _) as [parsed|]; [|constructor].
  destruct (normalizeParsed parsed) as [prefs|] eqn:E; [|constructor].
  by apply (normalizeParsed_nonBlank parsed).
Qed.

(** X10.  One [null] entry in the [likes], [dislikes] or [uncertain] array
    of the model's reply makes [extractPreferencesFromMemo] return the empty
    preferences: reading [item.item] of [null] throws, and the [catch] drops
    every other entry with it. *)
Theorem extractPreferencesFromMemo_null_entry
    (content : jsstring) (parsed : json) (k : string) (items : list json) :
  JSON_parse (cleanReply content) = Some parsed →
  k ∈ ["likes"; "dislikes"; "uncertain"]%string →
  member k parsed = Some (JArr items) →
  JNull ∈ items →
  extractPreferencesFromMemo true (Content content) = noPreferences.
Proof.
  intros Hp Hk Hm Hnull. unfold extractPreferencesFromMemo. simpl. rewrite Hp.
  assert (memberOrEmpty k parsed ≫= normalizeArray = None) as Hnone.
  { unfold memberOrEmpty. destruct parsed; try done. rewrite Hm. simpl.
    by apply normalizeArray_null. }
  assert (normalizeParsed parsed = None) as ->; [|done].
  unfold normalizeParsed.
  repeat (apply elem_of_cons in Hk as [->|Hk]); [| | |by apply elem_of_nil in Hk].
  - by rewrite Hnone.
  - rewrite Hnone. by destruct (memberOrEmpty "likes" parsed ≫= normalizeArray).
  - rewrite Hnone.
    destruct (memberOrEmpty "likes" parsed ≫= normalizeArray); [|done].
    by destruct (memberOrEmpty "dislikes" parsed ≫= normalizeArray).
Qed.

(** ** [processLLMChat] *)

(** X11.  [processLLMChat] hides every failure behind one message: whatever
    goes wrong, the error that leaves it says "LLM processing failed"; a
    provider other than "gpt" and "gemini" always ends so, the "gemini"
    provider never fails (a failed request or a missing key gives the mock
    reply), and the "gpt" provider gives the mock reply without its key. *)
Theorem processLLMChat_failures
    (openaiKey geminiKey : bool) (openai gemini : provider) (gptError : jsstring)
    (messages : list Message) (providerName : jsstring) :
  (∀ message,
     processLLMChat openaiKey geminiKey openai gemini gptError messages providerName
     = ChatError message →
     message = lit "LLM processing failed")
  ∧ (providerName ≠ lit "gpt" → providerName ≠ lit "gemini" →
     processLLMChat openaiKey geminiKey openai gemini gptError messages providerName
     = ChatError (lit "LLM processing failed"))
  ∧ (∃ text,
       processLLMChat openaiKey geminiKey openai gemini gptError messages
         (lit "gemini") = ChatText text
       ∧ (geminiKey = false ∨ (∀ t, gemini (formatForGemini messages) ≠ Content t) →
          text = mockLLMResponse))
  ∧ (openaiKey = false →
     processLLMChat openaiKey geminiKey openai gemini gptError messages (lit "gpt")
     = ChatText mockLLMResponse).
Proof.
  split; [|split; [|split]].
  - intros message. unfold processLLMChat.
    match goal with |- context [match ?x with ChatText _ => _ | ChatError _ => _ end] =>
      destruct x end; [done | by intros [= <-]].
  - intros Hg Hm. unfold processLLMChat, eqb.
    rewrite !bool_decide_eq_false_2 by done. done.
  - unfold processLLMChat, eqb. rewrite bool_decide_eq_false_2 by done.
    rewrite bool_decide_eq_true_2 by done.
    unfold processWithGemini. destruct geminiKey; simpl.
    + destruct (gemini (formatForGemini messages)) as [| |t] eqn:E.
      * eauto.
      * eauto.
      * exists t. split; [done|]. intros [|Hn]; [done|]. by destruct (Hn t).
    + eauto.
  - intros ->. unfold processLLMChat, eqb. by rewrite bool_decide_eq_true_2.
Qed.

(** X12.  The messages are sent on one for one, each with its content: to
    OpenAI with the role "model" turned into "assistant" and every other
    role kept, so that no message has the role "model"; to Gemini with the
    roles "assistant" and "system" turned into "model" and every other role
    into "user". *)
Theorem chat_formats (messages : list Message) :
  Forall2 (λ m f, msg_content f = msg_content m
                  ∧ (msg_role m = lit "model" → msg_role f = lit "assistant")
                  ∧ (msg_role m ≠ lit "model" → msg_role f = msg_role m)
                  ∧ msg_role f ≠ lit "model")
    messages (formatForGPT messages)
  ∧ Forall2 (λ m f, msg_content f = msg_content m
                    ∧ (msg_role m = lit "assistant" ∨ msg_role m = lit "system" →
                       msg_role f = lit "model")
                    ∧ (msg_role m ≠ lit "assistant" → msg_role m ≠ lit "system" →
                       msg_role f = lit "user"))
      messages (formatForGemini messages).
Proof.
  unfold formatForGPT, formatForGemini. split.
  - induction messages as [|m l IH]; [constructor|]. simpl. constructor; [|done].
    simpl. unfold eqb. case_bool_decide as E; [by rewrite E|]. done.
  - induction messages as [|m l IH]; [constructor|]. simpl. constructor; [|done].
    simpl. unfold eqb. do 2 case_bool_decide; simpl; split; try done;
      split; try done; intros [?|?]; done.
Qed.

End MoreServiceFacts.

(** * [generateJSON]: what the extraction and the repairs do *)

Section MoreClientFacts.
Context `{Host}.

Lemma isSpace_spaces (w : jsstring) c : forallb isSpace w = true → c ∈ w → isSpace c = true.
Proof.
  rewrite forallb_forall. intros Hw Hc. by apply Hw, list_elem_of_In.
Qed.

Lemma trimStart_spaces (w t : jsstring) :
  forallb isSpace w = true → trimStart (w ++ t) = trimStart t.
Proof.
  induction w as [|c w IH]; [done|]. simpl. intros [-> Hw]%andb_prop. by apply IH.
Qed.

Lemma trimStart_goodStart (s : jsstring) : goodStart s → trimStart s = s.
Proof. intros (c & r & -> & Hs & _). simpl. by rewrite Hs. Qed.

(** The text ends with a code unit that is not white space. *)
Lemma trimEnd_spaces (s w : jsstring) c :
  isSpace c = false → forallb isSpace w = true → trimEnd ((s ++ [c]) ++ w) = s ++ [c].
Proof.
  intros Hc Hw. unfold trimEnd. rewrite rev_app_distr, trimStart_spaces.
  - rewrite rev_app_distr. simpl. rewrite Hc. simpl.
    by rewrite rev_involutive.
  - rewrite forallb_forall. intros x Hx%in_rev. rewrite forallb_forall in Hw. by apply Hw.
Qed.

Lemma numChar_not_space c : numChar c = true → isSpace c = false.
Proof.
  unfold numChar, isDigit, isSpace. intros Hc.
  repeat match type of Hc with
         | context [(?a <=? ?b)%N] => destruct (N.leb_spec a b)
         | context [(?a =? ?b)%N] => destruct (N.eqb_spec a b)
         end; simpl in Hc; try done;
  repeat match goal with
         | |- context [(?a <=? ?b)%N] => destruct (N.leb_spec a b); try lia
         | |- context [(?a =? ?b)%N] => destruct (N.eqb_spec a b); try lia
         end; done.
Qed.

Lemma stringify_last (v : json) :
  ∃ s c, stringify v = s ++ [c] ∧ isSpace c = false.
Proof.
  destruct v as [| [|] | m e | s | l | kv].
  - by exists (lit "nul"), 108%N.
  - by exists (lit "tru"), 101%N.
  - by exists (lit "fals"), 101%N.
  - simpl. destruct (numChars m e) as [|d r _] eqn:E using rev_ind.
    + pose proof (numChar_goodStart m e) as (c & t & Hc & _). by rewrite E in Hc.
    + exists r, d. split; [done|]. apply numChar_not_space, (numChars_chars m e).
      rewrite E. apply elem_of_app. right. left.
  - exists (34%N :: quoteChars s), 34%N. done.
  - rewrite stringify_JArr. by exists (91%N :: joinComma (map stringify l)), 93%N.
  - rewrite stringify_JObj.
    by exists (123%N :: joinComma (map (λ p, quote p.1 ++ 58%N :: stringify p.2) kv)),
              125%N.
Qed.

Lemma stringify_head (v : json) : ∃ c r, stringify v = c :: r ∧ c ≠ 106%N.
Proof.
  destruct v as [| [|] | m e | s | l | kv]; try (by eexists _, _).
  simpl. destruct (numChars_head m e) as (c & r & -> & Hc). exists c, r.
  split; [done|]. destruct Hc as [Hc| ->]; [|done].
  unfold isDigit in Hc. apply andb_prop in Hc as [_ Hc%N.leb_le]. lia.
Qed.

Lemma indexOf_fence (pre t : jsstring) :
  96%N ∉ pre → indexOf fence (pre ++ fence ++ t) = Some (length pre).
Proof.
  induction pre as [|c pre IH]; intros Hpre; [done|].
  assert (c ≠ 96%N) as Hc by (intros ->; apply Hpre; left).
  change (indexOf fence ((c :: pre) ++ fence ++ t))
    with (if startsWith fence (c :: pre ++ fence ++ t) then Some 0
          else S <$> indexOf fence (pre ++ fence ++ t)).
  assert (startsWith fence (c :: pre ++ fence ++ t) = false) as ->.
  { unfold fence. cbn [startsWith]. destruct (N.eqb_spec 96 c) as [E|_]; [|done].
    by subst. }
  rewrite IH; [done|]. intros Hin. apply Hpre. by right.
Qed.

Lemma stripTrailingCommas_stringify (v : json) :
  plainValue v = true → stripTrailingCommas (stringify v) = stringify v.
Proof.
  intros Hp. pose proof (commaSafe_stringify v Hp []) as Hs.
  by rewrite !app_nil_r in Hs.
Qed.

(** X13.  A reply that wraps the serialization of a value in a code fence,
    with or without the [json] tag, with any text after the fence and any
    text without a backtick before it, gives the value back: arrays of
    objects included, which the same text without a fence does not give
    back.  The strings of the value hold no backtick, comma, brace or
    bracket. *)
Theorem generateJSON_fenced (v : json) (pre post w1 w2 : jsstring) (tagged : bool) :
  plainValue v = true →
  96%N ∉ pre →
  forallb isSpace w1 = true →
  forallb isSpace w2 = true →
  JSON_parse (stringify v) = Some v →
  generateJSON
    (ReplyText (pre ++ fence ++ (if tagged then lit "json" else [])
                ++ w1 ++ stringify v ++ w2 ++ fence ++ post))
  = Return v.
Proof.
  intros Hp Hpre Hw1 Hw2 Hparse.
  assert (extractCandidate
            (pre ++ fence ++ (if tagged then lit "json" else [])
             ++ w1 ++ stringify v ++ w2 ++ fence ++ post) = stringify v) as Hc.
  { unfold extractCandidate, fenceMatch. rewrite indexOf_fence by done.
    replace (drop (length pre + 3)
               (pre ++ fence ++ (if tagged then lit "json" else [])
                ++ w1 ++ stringify v ++ w2 ++ fence ++ post))
      with ((if tagged then lit "json" else [])
            ++ w1 ++ stringify v ++ w2 ++ fence ++ post).
    2:{ rewrite <- drop_drop, drop_app_length. done. }
    assert ((if startsWith (lit "json")
                  ((if tagged then lit "json" else [])
                   ++ w1 ++ stringify v ++ w2 ++ fence ++ post)
             then drop 4 ((if tagged then lit "json" else [])
                          ++ w1 ++ stringify v ++ w2 ++ fence ++ post)
             else (if tagged then lit "json" else [])
                  ++ w1 ++ stringify v ++ w2 ++ fence ++ post)
            = w1 ++ stringify v ++ w2 ++ fence ++ post) as ->.
    { destruct tagged; [done|]. simpl app.
      change (lit "json") with [106; 115; 111; 110]%N.
      destruct w1 as [|c w1].
      - destruct (stringify_head v) as (c & r & -> & Hc). cbn [startsWith app].
        destruct (N.eqb_spec 106 c) as [E|_]; [by subst | done].
      - simpl in Hw1. apply andb_prop in Hw1 as [Hc _]. cbn [startsWith app].
        destruct (N.eqb_spec 106 c) as [<-|]; [done | done]. }
    rewrite trimStart_spaces by done.
    rewrite trimStart_goodStart by apply goodStart_app, goodStart_stringify.
    assert (96%N ∉ stringify v ++ w2) as Hno.
    { rewrite elem_of_app. intros [Hin|Hin].
      - by destruct (stringify_chars v _ Hp Hin).
      - by apply (isSpace_spaces w2) in Hin. }
    rewrite (app_assoc (stringify v) w2), indexOf_fence by done.
    rewrite take_app_length. unfold trim.
    rewrite trimStart_goodStart by apply goodStart_app, goodStart_stringify.
    destruct (stringify_last v) as (s & c & -> & Hs). by apply trimEnd_spaces. }
  unfold generateJSON. rewrite Hc, stripTrailingCommas_stringify by done.
  by rewrite Hparse.
Qed.

Lemma stripTrailingCommas_no_comma (s : jsstring) :
  44%N ∉ s → stripTrailingCommas s = s.
Proof.
  intros Hs. pose proof (commaSafe_no_comma s Hs []) as E.
  by rewrite !app_nil_r in E.
Qed.

Lemma closerAhead_spaces (w : jsstring) (c : N) (t : jsstring) :
  forallb isSpace w = true → c = 125%N ∨ c = 93%N → closerAhead (w ++ c :: t) = true.
Proof.
  intros Hw Hc. induction w as [|d w IH]; simpl.
  - by destruct Hc as [-> | ->].
  - simpl in Hw. apply andb_prop in Hw as [-> Hw]. by apply IH.
Qed.

Lemma commaSafe_pieces (pieces : list jsstring) (o : N) :
  o ≠ 44%N → Forall (λ p, commaSafe p ∧ goodStart p) pieces →
  commaSafe (o :: joinComma pieces).
Proof. intros Ho Hp. apply commaSafe_cons; [done|]. by apply commaSafe_joinComma. Qed.

(** The text of an object or an array, without its closing bracket. *)
Lemma stringify_body (v : json) (body : jsstring) (closer : N) :
  plainValue v = true →
  stringify v = body ++ [closer] → closer = 125%N ∨ closer = 93%N →
  commaSafe body
  ∧ ((∃ inner, body = 123%N :: inner) ∧ closer = 125%N
     ∨ (∃ inner, body = 91%N :: inner) ∧ closer = 93%N ∧ ∃ l, v = JArr l).
Proof.
  intros Hp Hs Hc.
  destruct v as [| b | m e | s | l | kv].
  - change (lit "nul" ++ [108%N] = body ++ [closer]) in Hs.
    apply app_inj_tail in Hs as [_ <-]. by destruct Hc.
  - destruct b.
    + change (lit "tru" ++ [101%N] = body ++ [closer]) in Hs.
      apply app_inj_tail in Hs as [_ <-]. by destruct Hc.
    + change (lit "fals" ++ [101%N] = body ++ [closer]) in Hs.
      apply app_inj_tail in Hs as [_ <-]. by destruct Hc.
  - assert (numChar closer = true) as Hn.
    { apply (numChars_chars m e). change (numChars m e) with (stringify (JNum m e)).
      rewrite Hs. apply elem_of_app. right. left. }
    by destruct Hc as [-> | ->].
  - change ((34%N :: quoteChars s) ++ [34%N] = body ++ [closer]) in Hs.
    apply app_inj_tail in Hs as [_ <-]. by destruct Hc.
  - rewrite stringify_JArr in Hs.
    change ((91%N :: joinComma (map stringify l)) ++ [93%N] = body ++ [closer]) in Hs.
    apply app_inj_tail in Hs as [<- <-]. split; [|right; eauto].
    apply commaSafe_pieces; [done|]. simpl in Hp. rewrite forallb_forall in Hp.
    apply Forall_forall. intros p (x & -> & Hx)%list_elem_of_fmap.
    split; [|apply goodStart_stringify].
    by apply commaSafe_stringify, Hp, list_elem_of_In.
  - rewrite stringify_JObj in Hs.
    change ((123%N :: joinComma (map (λ p, quote p.1 ++ 58%N :: stringify p.2) kv))
            ++ [125%N] = body ++ [closer]) in Hs.
    apply app_inj_tail in Hs as [<- <-]. split; [|left; eauto].
    apply commaSafe_pieces; [done|]. simpl in Hp. rewrite forallb_forall in Hp.
    apply Forall_forall. intros p (x & -> & Hx)%list_elem_of_fmap.
    apply list_elem_of_In in Hx as Hx'. apply Hp in Hx' as [Hk Hv]%andb_prop.
    split; [|apply goodStart_app, goodStart_quote].
    apply commaSafe_app; [by apply commaSafe_quote|].
    apply commaSafe_cons; [done|]. by apply commaSafe_stringify.
Qed.

(** X14.  A comma left before the closing brace of a serialized object, or
    before the closing bracket of a serialized array that holds no object,
    is repaired: the reply gives the value that the text without that comma
    denotes.  The strings of the value hold no backtick, comma, brace or
    bracket. *)
Theorem generateJSON_trailing_comma (v : json) (body w : jsstring) (closer : N) :
  plainValue v = true →
  extractable v = true →
  stringify v = body ++ [closer] →
  closer = 125%N ∨ closer = 93%N →
  forallb isSpace w = true →
  JSON_parse (body ++ w ++ [closer]) = Some v →
  generateJSON (ReplyText (body ++ 44%N :: w ++ [closer])) = Return v.
Proof.
  intros Hp He Hs Hc Hw Hparse.
  destruct (stringify_body v body closer Hp Hs Hc) as [Hsafe Hshape].
  assert (∀ c, c ∈ body → c ∈ stringify v) as Hbody.
  { intros c Hin. rewrite Hs. apply elem_of_app. by left. }
  assert (∀ c, c ∈ body ++ 44%N :: w ++ [closer] →
               c ∈ stringify v ∨ c = 44%N ∨ isSpace c = true) as Hchars.
  { intros c [Hin|[->|[Hin|Hin%list_elem_of_singleton]%elem_of_app]%elem_of_cons]%elem_of_app.
    - left. by apply Hbody.
    - by right; left.
    - right; right. by apply (isSpace_spaces w).
    - left. rewrite Hs. apply elem_of_app. right. subst. left. }
  assert (extractCandidate (body ++ 44%N :: w ++ [closer])
          = body ++ 44%N :: w ++ [closer]) as Hcand.
  { apply extractCandidate_whole.
    - intros [Hin|[?|?]]%Hchars; try done. by destruct (stringify_chars v _ Hp Hin).
    - destruct Hshape as [[[inner ->] ->]|([inner ->] & -> & l & ->)].
      + left. exists (inner ++ 44%N :: w). by rewrite <- app_assoc.
      + right; left. split.
        * intros [Hin|[?|?]]%Hchars; try done.
          destruct (stringify_chars (JArr l) _ Hp Hin) as [_ Hn]. by apply Hn.
        * exists (inner ++ 44%N :: w). by rewrite <- app_assoc. }
  unfold generateJSON. rewrite Hcand, Hsafe.
  assert (stripTrailingCommas (44%N :: w ++ [closer]) = w ++ [closer]) as ->.
  { simpl. rewrite closerAhead_spaces by done.
    apply stripTrailingCommas_no_comma.
    intros [Hin|Hin%list_elem_of_singleton]%elem_of_app.
    - by apply (isSpace_spaces w) in Hin.
    - subst. by destruct Hc. }
  by rewrite Hparse.
Qed.

Lemma stripTrailingCommas_sublist (s : jsstring) : stripTrailingCommas s `sublist_of` s.
Proof.
  induction s as [|c s IH]; simpl; [done|].
  destruct (_ && _); [by apply sublist_cons | by apply sublist_skip].
Qed.

(** X15.  The trailing-comma normalization takes nothing but commas away:
    the text keeps every other code unit in its place, and a text without a
    comma is left as it is. *)
Theorem stripTrailingCommas_only_commas (s : jsstring) :
  filter (λ c, c ≠ 44%N) (stripTrailingCommas s) = filter (λ c, c ≠ 44%N) s
  ∧ stripTrailingCommas s `sublist_of` s
  ∧ (44%N ∉ s → stripTrailingCommas s = s).
Proof.
  split; [|split; [apply stripTrailingCommas_sublist | apply stripTrailingCommas_no_comma]].
  induction s as [|c s IH]; [done|]. cbn [stripTrailingCommas].
  destruct (N.eqb_spec c 44) as [->|Hc].
  - destruct (closerAhead s); cbn [andb].
    + rewrite (filter_cons_False _ 44%N s) by (by intros ?). done.
    + rewrite (filter_cons_False _ 44%N (stripTrailingCommas s)) by (by intros ?).
      rewrite (filter_cons_False _ 44%N s) by (by intros ?). done.
  - cbn [andb].
    rewrite (filter_cons_True _ c (stripTrailingCommas s)) by done.
    rewrite (filter_cons_True _ c s) by done. by f_equal.
Qed.

Lemma keyAt_known (s : jsstring) key arr : keyAt s = Some (key, arr) → key ∈ knownKeys.
Proof.
  unfold keyAt. destruct s as [|c r]; [done|].
  destruct (N.eqb_spec c 34) as [->|Hc].
  2:{ destruct c as [|p]; [done|]. repeat (destruct p as [p|p|]; try done). }
  destruct (list_find _ knownKeys) as [[i k]|] eqn:E; [|done].
  apply list_find_Some in E as (Hk & _). apply list_elem_of_lookup_2 in Hk.
  destruct (drop (length k) r) as [|c1 r1]; [done|].
  destruct (N.eqb_spec c1 34) as [->|Hc1].
  2:{ destruct c1 as [|p]; [done|]. repeat (destruct p as [p|p|]; try done). }
  destruct (trimStart r1) as [|c2 r2]; [done|].
  destruct (N.eqb_spec c2 58) as [->|Hc2].
  2:{ destruct c2 as [|p]; [done|]. repeat (destruct p as [p|p|]; try done). }
  destruct (trimStart r2) as [|c3 r3]; [done|].
  destruct (N.eqb_spec c3 91) as [->|Hc3].
  2:{ destruct c3 as [|p]; [done|]. repeat (destruct p as [p|p|]; try done). }
  by intros [= <- _].
Qed.

Lemma setMember_keys (k : jsstring) (v : json) (kv : list (jsstring * json)) :
  (setMember k v kv).*1 = if bool_decide (k ∈ kv.*1) then kv.*1 else kv.*1 ++ [k].
Proof.
  induction kv as [|[k' v'] kv IH]; [done|].
  cbn [setMember]. unfold eqb. rewrite (fmap_cons fst (k', v') kv). cbn [fst].
  destruct (decide (k = k')) as [->|E].
  - rewrite (bool_decide_eq_true_2 (k' = k')) by done.
    rewrite fmap_cons. cbn [fst]. rewrite bool_decide_eq_true_2 by left. done.
  - rewrite (bool_decide_eq_false_2 (k = k')) by done.
    rewrite fmap_cons, IH. cbn [fst]. destruct (decide (k ∈ kv.*1)) as [E1|E1].
    + rewrite (bool_decide_eq_true_2 (k ∈ kv.*1)) by done.
      rewrite bool_decide_eq_true_2 by (by right). done.
    + rewrite (bool_decide_eq_false_2 (k ∈ kv.*1)) by done.
      rewrite bool_decide_eq_false_2; [done|].
      intros [?|?]%elem_of_cons; [by subst | done].
Qed.

Lemma salvageKeys_keys (s : jsstring) (result : list (jsstring * json)) :
  NoDup result.*1 → Forall (λ k, k ∈ knownKeys) result.*1 →
  NoDup (salvageKeys s result).*1
  ∧ Forall (λ k, k ∈ knownKeys) (salvageKeys s result).*1.
Proof.
  revert result. induction s as [|c s IH]; intros result Hnd Hk; [done|].
  cbn [salvageKeys]. apply IH.
  - destruct (keyAt (c :: s)) as [[key arr]|]; [|done].
    destruct (salvageText arr) as [arrStr|]; [|done].
    destruct (JSON_parse arrStr) as [v|]; [|done].
    rewrite setMember_keys. case_bool_decide as E; [done|].
    apply NoDup_app. split; [done|]. split; [|apply NoDup_singleton].
    intros x Hx ->%list_elem_of_singleton. done.
  - destruct (keyAt (c :: s)) as [[key arr]|] eqn:Ek; [|done].
    destruct (salvageText arr) as [arrStr|]; [|done].
    destruct (JSON_parse arrStr) as [v|]; [|done].
    rewrite setMember_keys. case_bool_decide as E; [done|].
    apply Forall_app. split; [done|]. apply Forall_singleton.
    by eapply keyAt_known.
Qed.

(** X16.  When the text does not parse and the bracket-closure repair gives
    up, whatever [generateJSON] returns is an object salvaged key by key: it
    is not empty, and its keys are among [business_cards], [events],
    [memos], [gifts] and [chats], each at most once. *)
Theorem generateJSON_salvaged_keys (text : jsstring) (v : json) :
  JSON_parse (stripTrailingCommas (extractCandidate text)) = None →
  strategy1 (stripTrailingCommas (extractCandidate text)) = GiveUp →
  generateJSON (ReplyText text) = Return v →
  ∃ kv, v = JObj kv ∧ kv ≠ [] ∧ NoDup kv.*1 ∧ Forall (λ k, k ∈ knownKeys) kv.*1.
Proof.
  intros Hp Hs1. unfold generateJSON. rewrite Hp, Hs1. unfold strategy2.
  destruct (salvageKeys_keys (stripTrailingCommas (extractCandidate text)) [])
    as [Hnd Hk]; [constructor | constructor |].
  destruct (salvageKeys _ []) as [|p kv] eqn:E; [done|].
  intros [= <-]. exists (p :: kv). done.
Qed.

End MoreClientFacts.

(** * [rerankGifts]: the working set and the reading of the reply *)

Section MoreRerankFacts.
Context `{Host}.

Lemma length_filter_split {A} (P Q : A → Prop) `{!∀ x, Decision (P x)}
    `{!∀ x, Decision (Q x)} (l : list A) :
  (∀ x, x ∈ l → (P x ↔ ¬ Q x)) →
  length (filter P l) + length (filter Q l) = length l.
Proof.
  induction l as [|x l IH]; intros Hpq; [done|].
  assert (length (filter P l) + length (filter Q l) = length l) as IH'.
  { apply IH. intros y Hy. apply Hpq. by right. }
  rewrite !filter_cons. destruct (Hpq x) as [Ha Hb]; [left|].
  destruct (decide (P x)) as [Hp|Hp], (decide (Q x)) as [Hq|Hq]; simpl; try lia.
  - by destruct (Ha Hp).
  - by destruct Hp; apply Hb.
Qed.

Lemma indicesWhere_split (p : Gift → bool) (gifts : list Gift) :
  length (indicesWhere p gifts) + length (indicesWhere (λ g, negb (p g)) gifts)
  = length gifts.
Proof.
  unfold indicesWhere. rewrite length_filter_split; [by rewrite length_seq|].
  intros i Hi%elem_of_seq. destruct (gifts !! i) as [g|] eqn:E; simpl.
  - destruct (p g); simpl; split; by intros.
  - apply lookup_ge_None in E. lia.
Qed.

(** X17.  The working set that [rerankGifts] shows to the model never holds
    more than 30 candidates and holds no candidate twice.  A pool of at most
    30 gifts is in it whole.  With likes in the profile the candidates
    related to a like come first, and none of them is left out unless more
    than 30 are related; without likes the working set is the first 30 gifts
    of the pool. *)
Theorem prefilterIndices_working_set (gifts : list Gift)
    (profile : option PreferenceProfile) :
  length (prefilterIndices gifts profile) ≤ maxGiftsForRerank
  ∧ NoDup (prefilterIndices gifts profile)
  ∧ (length gifts ≤ maxGiftsForRerank →
     ∀ i, i < length gifts → i ∈ prefilterIndices gifts profile)
  ∧ (hasLikes profile = false →
     prefilterIndices gifts profile = seq 0 (length gifts `min` maxGiftsForRerank))
  ∧ (hasLikes profile = true →
     ∃ related others,
       prefilterIndices gifts profile = related ++ others
       ∧ Forall (λ i, ∃ g, gifts !! i = Some g
                          ∧ likesRelated (likesItemsOf profile) g = true) related
       ∧ Forall (λ i, ∃ g, gifts !! i = Some g
                          ∧ likesRelated (likesItemsOf profile) g = false) others
       ∧ (length (indicesWhere (likesRelated (likesItemsOf profile)) gifts)
          ≤ maxGiftsForRerank →
          ∀ i g, gifts !! i = Some g →
                 likesRelated (likesItemsOf profile) g = true → i ∈ related)).
Proof.
  split; [|split; [apply NoDup_prefilterIndices|]].
  { unfold prefilterIndices, maxGiftsForRerank.
    destruct (hasLikes profile).
    - rewrite length_app, !length_take. lia.
    - destruct (Nat.ltb_spec 30 (length gifts)).
      + rewrite length_take, length_seq. lia.
      + rewrite length_seq. lia. }
  split; [|split].
  - intros Hlen i Hi. unfold prefilterIndices, maxGiftsForRerank in *.
    destruct (hasLikes profile).
    + fold (likesItemsOf profile).
      pose proof (indicesWhere_split (likesRelated (likesItemsOf profile)) gifts) as Hs.
      rewrite !take_ge by lia.
      destruct (gifts !! i) as [g|] eqn:E; [|apply lookup_ge_None in E; lia].
      apply elem_of_app. destruct (likesRelated (likesItemsOf profile) g) eqn:Er.
      * left. apply elem_of_indicesWhere. eauto.
      * right. apply elem_of_indicesWhere. exists g. by rewrite Er.
    + destruct (Nat.ltb_spec 30 (length gifts)); [lia|]. apply elem_of_seq. lia.
  - intros Hl. unfold prefilterIndices, maxGiftsForRerank. rewrite Hl.
    destruct (Nat.ltb_spec 30 (length gifts)).
    + rewrite Nat.min_r by lia. rewrite take_seq. f_equal. lia.
    + by rewrite Nat.min_l by lia.
  - intros Hl. unfold prefilterIndices. rewrite Hl. fold (likesItemsOf profile).
    eexists _, _. split; [done|]. split; [|split].
    + apply Forall_forall. intros i Hi%elem_of_take_1.
      by apply elem_of_indicesWhere in Hi.
    + apply Forall_forall. intros i Hi%elem_of_take_1.
      apply elem_of_indicesWhere in Hi as (g & Hg & Hn). exists g. split; [done|].
      by apply negb_true_iff.
    + intros Hlen i g Hg Hr. rewrite take_ge by lia.
      apply elem_of_indicesWhere. eauto.
Qed.

(** ** Prose and fences around the list of indices *)

Lemma trimStart_prefix (pre t : jsstring) c r :
  t = c :: r → isSpace c = false →
  ∃ pre', trimStart (pre ++ t) = pre' ++ t ∧ ∀ x, x ∈ pre' → x ∈ pre.
Proof.
  intros -> Hc. induction pre as [|d pre IH].
  - exists []. simpl. rewrite Hc. done.
  - simpl. destruct (isSpace d).
    + destruct IH as (pre' & -> & Hsub). exists pre'. split; [done|].
      intros x Hx. right. by apply Hsub.
    + by exists (d :: pre).
Qed.

Lemma trim_around (pre post body : jsstring) :
  ∃ pre' post',
    trim (pre ++ indexList body ++ post) = pre' ++ indexList body ++ post'
    ∧ ∀ x, x ∈ pre' → x ∈ pre.
Proof.
  unfold trim.
  destruct (trimStart_prefix pre (indexList body ++ post) 91%N (body ++ [93%N] ++ post))
    as (pre' & -> & Hsub); [by unfold indexList; simpl; rewrite <- app_assoc | done |].
  unfold trimEnd.
  replace (rev (pre' ++ indexList body ++ post))
    with (rev post ++ (93%N :: rev body ++ 91%N :: rev pre')).
  2:{ unfold indexList. rewrite !rev_app_distr. simpl. rewrite rev_app_distr. simpl.
      rewrite <- app_assoc. simpl. by rewrite <- app_assoc. }
  destruct (trimStart_prefix (rev post) (93%N :: rev body ++ 91%N :: rev pre') 93%N
              (rev body ++ 91%N :: rev pre')) as (q & -> & _); [done | done |].
  exists pre', (rev q). split; [|done].
  rewrite rev_app_distr. simpl. rewrite rev_app_distr. simpl.
  rewrite !rev_involutive. unfold indexList. by rewrite <- !app_assoc.
Qed.

Lemma startsWith_length (m x t : jsstring) (c : N) :
  c ∉ m → startsWith m (x ++ c :: t) = true → length m ≤ length x.
Proof.
  revert x. induction m as [|a m IH]; intros x Hm Hs; [simpl; lia|].
  destruct x as [|b x]; simpl in Hs.
  - apply andb_prop in Hs as [Ha%N.eqb_eq _]. subst. destruct Hm. left.
  - apply andb_prop in Hs as [_ Hs]. simpl. apply le_n_S, IH; [|done].
    intros Hin. apply Hm. by right.
Qed.

Lemma removeMarker_before (m : jsstring) (k : nat) (pre t : jsstring) r :
  91%N ∉ m → t = 91%N :: r → k ≤ length pre →
  ∃ pre', removeMarker m k (pre ++ t) = pre' ++ removeMarker m 0 t
          ∧ ∀ x, x ∈ pre' → x ∈ pre.
Proof.
  intros Hm ->. revert k. induction pre as [|c pre IH]; intros k Hk.
  - assert (k = 0) as -> by (simpl in Hk; lia). by exists [].
  - change ((c :: pre) ++ 91%N :: r) with (c :: (pre ++ 91%N :: r)).
    destruct k as [|k]; cbn [removeMarker].
    + destruct (startsWith m (c :: pre ++ 91%N :: r)) eqn:Es.
      * pose proof (startsWith_length m (c :: pre) r 91%N Hm Es) as Hlen.
        simpl in Hlen.
        destruct (IH (length m
                      + match drop (length m) (c :: pre ++ 91%N :: r) with
                        | 10%N :: _ => 1
                        | _ => 0
                        end - 1)) as (pre' & -> & Hsub).
        { destruct (decide (length m = S (length pre))) as [E|E].
          - rewrite E. change (c :: pre ++ 91%N :: r) with ((c :: pre) ++ 91%N :: r).
            replace (S (length pre)) with (length (c :: pre)) by done.
            rewrite drop_app_length. simpl. lia.
          - destruct (drop (length m) (c :: pre ++ 91%N :: r)) as [|[|p] ?]; try lia.
            repeat (destruct p as [p|p|]; try lia). }
        exists pre'. split; [done|]. intros x Hx. right. by apply Hsub.
      * destruct (IH 0) as (pre' & -> & Hsub); [lia|].
        exists (c :: pre'). split; [done|].
        intros x [->|Hx]%elem_of_cons; [left | right; by apply Hsub].
    + destruct (IH k) as (pre' & -> & Hsub); [simpl in Hk; lia|].
      exists pre'. split; [done|]. intros x Hx. right. by apply Hsub.
Qed.

Lemma removeMarker_through (m : jsstring) (a t : jsstring) r :
  m = 96%N :: r → 96%N ∉ a →
  removeMarker m 0 (a ++ t) = a ++ removeMarker m 0 t.
Proof.
  intros -> Ha. induction a as [|c a IH]; [done|].
  assert (c ≠ 96%N) as Hc by (intros ->; apply Ha; left).
  cbn [app removeMarker startsWith].
  destruct (N.eqb_spec 96 c) as [E|_]; [by subst|]. cbn [andb].
  rewrite IH; [done|]. intros Hin. apply Ha. by right.
Qed.

Lemma indexList_no_backtick (body : jsstring) :
  indexListBody body = true → 96%N ∉ indexList body.
Proof.
  unfold indexListBody, indexList. rewrite forallb_forall. intros Hb.
  intros [E|[Hin|Hin%list_elem_of_singleton]%elem_of_app]%elem_of_cons; try done.
  apply list_elem_of_In, Hb in Hin. by vm_compute in Hin.
Qed.

Lemma removeMarker_around (m : jsstring) (pre post body : jsstring) r :
  m = 96%N :: r → 91%N ∉ m → indexListBody body = true →
  ∃ pre' post',
    removeMarker m 0 (pre ++ indexList body ++ post) = pre' ++ indexList body ++ post'
    ∧ ∀ x, x ∈ pre' → x ∈ pre.
Proof.
  intros Hm Hno Hb.
  destruct (removeMarker_before m 0 pre (indexList body ++ post)
              (body ++ [93%N] ++ post)) as (pre' & -> & Hsub);
    [done | by unfold indexList; simpl; rewrite <- app_assoc | lia |].
  rewrite (removeMarker_through m (indexList body) post r Hm)
    by by apply indexList_no_backtick.
  by exists pre', (removeMarker m 0 post).
Qed.

Lemma digitRun_body (body post : jsstring) :
  indexListBody body = true → digitRun (body ++ 93%N :: post) = Some (length body).
Proof.
  unfold indexListBody. induction body as [|c body IH]; [done|].
  simpl. intros [Hc Hb]%andb_prop. rewrite Hc, IH by done.
  destruct (N.eqb_spec c 93) as [->|_]; [by vm_compute in Hc | done].
Qed.

Lemma digitArrayMatch_first (pre post body : jsstring) :
  91%N ∉ pre → indexListBody body = true →
  digitArrayMatch (pre ++ indexList body ++ post) = Some (indexList body).
Proof.
  intros Hpre Hb. induction pre as [|c pre IH].
  - unfold indexList. simpl. rewrite <- app_assoc. simpl.
    rewrite digitRun_body by done.
    replace (length body + 2) with (S (S (length body))) by lia.
    cbn [take]. do 2 f_equal.
    change (body ++ 93%N :: post) with (body ++ [93%N] ++ post).
    rewrite app_assoc, take_app_length'; [done|]. rewrite length_app. simpl. lia.
  - assert (c ≠ 91%N) as Hc by (intros ->; apply Hpre; left).
    cbn [app digitArrayMatch]. destruct (N.eqb_spec c 91) as [E|_]; [done|].
    apply IH. intros Hin. apply Hpre. by right.
Qed.

Lemma cleanRanking_around (pre post body : jsstring) :
  91%N ∉ pre → indexListBody body = true →
  cleanRanking (pre ++ indexList body ++ post) = indexList body.
Proof.
  intros Hpre Hb. unfold cleanRanking, cleanReply.
  destruct (trim_around pre post body) as (p1 & q1 & -> & H1).
  destruct (removeMarker_around fenceJsonMarker p1 q1 body
              [96; 96; 106; 115; 111; 110]%N) as (p2 & q2 & -> & H2);
    [done | by vm_compute; intros ?%list_elem_of_In; simpl in *; intuition lia | done |].
  destruct (removeMarker_around fenceMarker p2 q2 body [96; 96]%N)
    as (p3 & q3 & -> & H3);
    [done | by vm_compute; intros ?%list_elem_of_In; simpl in *; intuition lia | done |].
  destruct (trim_around p3 q3 body) as (p4 & q4 & -> & H4).
  rewrite digitArrayMatch_first; [done | | done].
  intros Hin. apply Hpre. auto.
Qed.

(** X18.  [rerankGifts] reads the first bracketed list of indices of the
    reply and nothing else: text before it that holds no opening bracket
    (prose, a code fence) and any text after it change nothing to the
    result. *)
Theorem rerankGifts_ignores_prose
    apiKey gifts personaString originalData topN profile (pre post body : jsstring) :
  91%N ∉ pre →
  indexListBody body = true →
  rerankGifts apiKey gifts personaString originalData topN profile
    (Content (pre ++ indexList body ++ post))
  = rerankGifts apiKey gifts personaString originalData topN profile
      (Content (indexList body)).
Proof.
  intros Hpre Hb.
  assert (∀ fi n, readRanking fi n topN (pre ++ indexList body ++ post)
                  = readRanking fi n topN (indexList body)) as Hr.
  { intros fi n. unfold readRanking. rewrite cleanRanking_around by done.
    pose proof (cleanRanking_around [] [] body) as E.
    rewrite app_nil_l, app_nil_r in E.
    rewrite E; [done | by intros ?%elem_of_nil | done]. }
  unfold rerankGifts. by rewrite Hr.
Qed.

End MoreRerankFacts.

(** * Replies in a code fence, and the memo of the fallback keywords *)

Section FenceFacts.
Context `{Host}.

Lemma trimStart_split (s : jsstring) :
  ∃ w, s = w ++ trimStart s ∧ forallb isSpace w = true.
Proof.
  induction s as [|c s IH]; [by exists []|]. simpl.
  destruct (isSpace c) eqn:Ec; [|by exists []].
  destruct IH as (w & Hs & Hw). exists (c :: w). split; [simpl; by f_equal|].
  simpl. by rewrite Ec.
Qed.

Lemma trimStart_idem (s : jsstring) : trimStart (trimStart s) = trimStart s.
Proof.
  induction s as [|c s IH]; [done|]. simpl.
  destruct (isSpace c) eqn:Ec; [done|]. simpl. by rewrite Ec.
Qed.

Lemma forallb_rev {A} (f : A → bool) (l : list A) :
  forallb f l = true → forallb f (rev l) = true.
Proof. rewrite !forallb_forall. intros Hl x Hx%in_rev. by apply Hl. Qed.

Lemma trimEnd_app_spaces (s w : jsstring) :
  forallb isSpace w = true → trimEnd (s ++ w) = trimEnd s.
Proof.
  intros Hw. unfold trimEnd. rewrite rev_app_distr, trimStart_spaces; [done|].
  by apply forallb_rev.
Qed.

Lemma trimEnd_split (s : jsstring) :
  ∃ w, s = trimEnd s ++ w ∧ forallb isSpace w = true.
Proof.
  unfold trimEnd. destruct (trimStart_split (rev s)) as (w & Hs & Hw).
  exists (rev w). split; [|by apply forallb_rev].
  rewrite <- rev_app_distr, <- Hs. by rewrite rev_involutive.
Qed.

Lemma trimStart_trimEnd (s : jsstring) :
  trimStart s = s → trimStart (trimEnd s) = trimEnd s.
Proof.
  intros Hs. destruct (trimEnd_split s) as (w & Hsw & Hw).
  destruct (trimEnd s) as [|c r] eqn:E; [done|].
  rewrite Hsw in Hs. simpl in *. destruct (isSpace c) eqn:Ec; [|done].
  apply trimStart_head in Hs. congruence.
Qed.

Lemma trimEnd_idem (s : jsstring) : trimEnd (trimEnd s) = trimEnd s.
Proof. unfold trimEnd. by rewrite rev_involutive, trimStart_idem. Qed.

Lemma trim_idem (s : jsstring) : trim (trim s) = trim s.
Proof.
  unfold trim. rewrite trimStart_trimEnd by apply trimStart_idem. apply trimEnd_idem.
Qed.

Lemma trim_app_spaces (s w : jsstring) :
  forallb isSpace w = true → trim (s ++ w) = trim s.
Proof.
  intros Hw. unfold trim. destruct (trimStart_split s) as (v & Hs & Hv).
  destruct (trimStart s) as [|c r] eqn:E.
  - rewrite app_nil_r in Hs. subst v. rewrite trimStart_spaces by done.
    destruct (trimStart_split w) as (u & Hu & Hu').
    assert (trimStart w = []) as ->; [|done].
    destruct (trimStart w) as [|d t] eqn:Ew; [done|].
    pose proof (trimStart_head w d t Ew) as Hd.
    rewrite forallb_forall in Hw. rewrite Hw in Hd; [done|].
    apply list_elem_of_In. rewrite Hu. apply elem_of_app. right. left.
  - pose proof (trimStart_head s c r E) as Hc.
    rewrite Hs at 1. rewrite <- app_assoc, trimStart_spaces by done.
    simpl. rewrite Hc. change (c :: r ++ w) with ((c :: r) ++ w).
    by rewrite (trimEnd_app_spaces (c :: r) w).
Qed.

Lemma removeMarker_no_backtick (m r s : jsstring) :
  m = 96%N :: r → 96%N ∉ s → removeMarker m 0 s = s.
Proof.
  intros Hm Hs. pose proof (removeMarker_through m s [] r Hm Hs) as E.
  cbn [removeMarker] in E. by rewrite !app_nil_r in E.
Qed.

Lemma cleanReply_plain (t : jsstring) : 96%N ∉ t → cleanReply t = trim t.
Proof.
  intros Ht. unfold cleanReply.
  assert (96%N ∉ trim t) as Ht'.
  { intros Hin. apply Ht. unfold trim, trimEnd in Hin.
    by apply elem_of_rev, trimStart_incl, elem_of_rev, trimStart_incl in Hin. }
  rewrite (removeMarker_no_backtick fenceJsonMarker [96; 96; 106; 115; 111; 110]%N)
    by done.
  rewrite (removeMarker_no_backtick fenceMarker [96; 96]%N) by done.
  apply trim_idem.
Qed.

(** The reply [t] between ["```json\n"] and ["\n```"]. *)
Lemma cleanReply_fenced (t : jsstring) :
  96%N ∉ t →
  cleanReply (fenceJsonMarker ++ 10%N :: t ++ 10%N :: fenceMarker) = cleanReply t.
Proof.
  intros Ht. rewrite (cleanReply_plain t) by done. unfold cleanReply.
  assert (trim (fenceJsonMarker ++ 10%N :: t ++ 10%N :: fenceMarker)
          = fenceJsonMarker ++ 10%N :: t ++ 10%N :: fenceMarker) as ->.
  { unfold trim. rewrite trimStart_goodStart by (by eexists _, _).
    assert (fenceJsonMarker ++ 10%N :: t ++ 10%N :: fenceMarker
            = (fenceJsonMarker ++ 10%N :: t ++ [10; 96; 96]%N) ++ [96%N]) as ->.
    { unfold fenceJsonMarker, fenceMarker. cbn [app]. by rewrite <- app_assoc. }
    pose proof (trimEnd_spaces (fenceJsonMarker ++ 10%N :: t ++ [10; 96; 96]%N) []
                  96%N eq_refl eq_refl) as E.
    by rewrite app_nil_r in E. }
  assert (removeMarker fenceJsonMarker 0
            (fenceJsonMarker ++ 10%N :: t ++ 10%N :: fenceMarker)
          = t ++ 10%N :: fenceMarker) as ->.
  { unfold fenceJsonMarker, fenceMarker. simpl.
    rewrite (removeMarker_through _ t _ [96; 96; 106; 115; 111; 110]%N) by done.
    done. }
  rewrite (removeMarker_through fenceMarker t (10%N :: fenceMarker) [96; 96]%N)
    by done.
  change (removeMarker fenceMarker 0 (10%N :: fenceMarker)) with [10%N].
  by apply trim_app_spaces.
Qed.

(** X19.  A reply that comes between ["```json"] and ["```"] lines is read
    as the reply itself by [generateGiftRationale],
    [extractPreferencesFromMemo] and [extractSearchKeywords]. *)
Theorem fenced_reply_is_read_bare (t : jsstring) :
  96%N ∉ t →
  (∀ apiKey gift personaString originalData,
     generateGiftRationale apiKey gift personaString originalData
       (Content (fenceJsonMarker ++ 10%N :: t ++ 10%N :: fenceMarker))
     = generateGiftRationale apiKey gift personaString originalData (Content t))
  ∧ (∀ apiKey,
       extractPreferencesFromMemo apiKey
         (Content (fenceJsonMarker ++ 10%N :: t ++ 10%N :: fenceMarker))
       = extractPreferencesFromMemo apiKey (Content t))
  ∧ (∀ apiKey personaData userQuery,
       extractSearchKeywords apiKey personaData userQuery
         (Content (fenceJsonMarker ++ 10%N :: t ++ 10%N :: fenceMarker))
       = extractSearchKeywords apiKey personaData userQuery (Content t)).
Proof.
  intros Ht. pose proof (cleanReply_fenced t Ht) as E. split; [|split].
  - intros. unfold generateGiftRationale. by rewrite E.
  - intros. unfold extractPreferencesFromMemo. by rewrite E.
  - intros. unfold extractSearchKeywords. by rewrite E.
Qed.

Lemma trimStart_sublist (s : jsstring) : trimStart s `sublist_of` s.
Proof.
  destruct (trimStart_split s) as (w & Hs & _). rewrite Hs at 2.
  by apply sublist_inserts_l.
Qed.

Lemma trim_sublist (s : jsstring) : trim s `sublist_of` s.
Proof.
  unfold trim. etrans; [|apply trimStart_sublist].
  destruct (trimEnd_split (trimStart s)) as (w & Hs & _). rewrite Hs at 2.
  by apply sublist_inserts_r.
Qed.

Lemma removeAll_sublist (matchAt : jsstring → option nat) (k : nat) (s : jsstring) :
  removeAll matchAt k s `sublist_of` s.
Proof.
  revert k. induction s as [|c s IH]; intros k; [done|]. cbn [removeAll].
  destruct k as [|k]; [|by apply sublist_cons].
  destruct (matchAt (c :: s)) as [[|n]|]; [by apply sublist_skip | | by apply sublist_skip].
  by apply sublist_cons.
Qed.

Lemma memoTrigger_false (c : N) :
  memoTrigger c = false →
  c ≠ 51339%N ∧ c ≠ 51600%N ∧ c ≠ 44288%N ∧ c ≠ 51080%N ∧ c ≠ 50630%N.
Proof.
  unfold memoTrigger. intros Hc.
  repeat (apply orb_false_elim in Hc as [Hc ?]).
  repeat match goal with Hx : (_ =? _)%N = false |- _ => apply N.eqb_neq in Hx end.
  done.
Qed.

Lemma wordAt_no_trigger (words : list jsstring) (s : jsstring) :
  words = likeWords ∨ words = haveWords →
  match s with c :: _ => memoTrigger c = false | [] => True end →
  wordAt words s = None.
Proof.
  intros Hw Hs. unfold wordAt.
  assert (list_find (λ w, startsWith w s = true) words = None) as ->; [|done].
  apply list_find_None, Forall_forall. intros w Hin.
  destruct s as [|c r].
  - destruct Hw as [-> | ->]; repeat (apply elem_of_cons in Hin as [->|Hin]);
      try done; by apply elem_of_nil in Hin.
  - apply memoTrigger_false in Hs as (H1 & H2 & H3 & H4 & H5).
    destruct Hw as [-> | ->]; repeat (apply elem_of_cons in Hin as [->|Hin]);
      try (by apply elem_of_nil in Hin);
      cbn [startsWith];
      match goal with |- context [(?a =? c)%N] =>
        destruct (N.eqb_spec a c) as [E|_]; [by subst | done] end.
Qed.

Lemma spacesThenWord_no_trigger (words : list jsstring) (s : jsstring) :
  words = likeWords ∨ words = haveWords →
  forallb (λ c, negb (memoTrigger c)) s = true →
  spacesThenWord words s = None.
Proof.
  intros Hw. induction s as [|c s IH]; intros Hs.
  - by apply wordAt_no_trigger.
  - simpl in Hs. apply andb_prop in Hs as [Hc%negb_true_iff Hs]. cbn [spacesThenWord].
    destruct (isSpace c); [by rewrite IH|]. by apply wordAt_no_trigger.
Qed.

Lemma particleWord_no_trigger (particle : N) (words : list jsstring) (s : jsstring) :
  words = likeWords ∨ words = haveWords →
  forallb (λ c, negb (memoTrigger c)) s = true →
  particleWord particle words s = None.
Proof.
  intros Hw Hs. unfold particleWord. destruct s as [|c r].
  - by apply spacesThenWord_no_trigger.
  - rewrite (spacesThenWord_no_trigger words (c :: r)) by done.
    simpl in Hs. apply andb_prop in Hs as [_ Hs].
    rewrite (spacesThenWord_no_trigger words r) by done. by destruct (_ =? _)%N.
Qed.

Lemma removeAll_no_trigger (particle : N) (words : list jsstring) (s : jsstring) :
  words = likeWords ∨ words = haveWords →
  forallb (λ c, negb (memoTrigger c)) s = true →
  removeAll (particleWord particle words) 0 s = s.
Proof.
  intros Hw. induction s as [|c s IH]; intros Hs; [done|]. cbn [removeAll].
  rewrite particleWord_no_trigger by done.
  simpl in Hs. apply andb_prop in Hs as [_ Hs]. by rewrite IH.
Qed.

(** X20.  The memo keyword of [extractKeywordsFallback] is made of code
    units of the memo, in their order.  A memo that is not blank and holds
    none of 좋, 즐, 관, 있, 없 is searched as it is: the keywords hold the
    trimmed memo followed by " 선물". *)
Theorem extractKeywordsFallback_memo (personaData : OriginalData) (userQuery : jsstring) :
  cleanMemo (memo personaData) `sublist_of` memo personaData
  ∧ (forallb (λ c, negb (memoTrigger c)) (memo personaData) = true →
     nonBlank (memo personaData) →
     cleanMemo (memo personaData) = trim (memo personaData)
     ∧ trim (memo personaData) ++ GIFT_SUFFIX
       ∈ extractKeywordsFallback personaData userQuery).
Proof.
  split.
  - unfold cleanMemo. etrans; [apply trim_sublist|].
    etrans; apply removeAll_sublist.
  - intros Hno Hnb.
    assert (cleanMemo (memo personaData) = trim (memo personaData)) as Hclean.
    { unfold cleanMemo. rewrite (removeAll_no_trigger 47484%N likeWords) by auto.
      by rewrite (removeAll_no_trigger 51060%N haveWords) by auto. }
    split; [done|]. unfold extractKeywordsFallback.
    apply nonBlank_query in Hnb as Hq. rewrite Hq, Hclean.
    assert (nonEmpty (trim (memo personaData)) = true) as -> by by apply nonEmpty_true.
    destruct (nonEmpty userQuery && nonEmpty (trim userQuery));
      destruct (nonEmpty (addMemo personaData) && nonEmpty (trim (addMemo personaData)));
      try destruct (list_find _ occasions) as [[? occasion]|];
      simpl; set_solver.
Qed.

End FenceFacts.

(** * [rerankGifts]: the ranking of the model is followed *)

Section RankingFacts.
Context `{Host}.

Lemma stripZeros_value (fuel : nat) (m e : Z) :
  (0 <= e)%Z →
  (0 <= (stripZeros fuel m e).2)%Z
  ∧ ((stripZeros fuel m e).1 * 10 ^ (stripZeros fuel m e).2 = m * 10 ^ e)%Z.
Proof.
  revert m e. induction fuel as [|fuel IH]; intros m e He; simpl; [done|].
  destruct (Z.eqb_spec m 0) as [->|Hm]; [done|].
  destruct (Z.eqb_spec (m mod 10) 0) as [Hd|Hd]; [|done].
  destruct (IH (m / 10)%Z (e + 1)%Z) as [H1 H2]; [lia|]. split; [done|].
  rewrite H2, Z.pow_add_r by lia.
  rewrite (Z.div_mod m 10) at 2 by lia. rewrite Hd. lia.
Qed.

Lemma toValidIndex_indexValue (len i : nat) :
  i < len → toValidIndex len (indexValue i) = Some i.
Proof.
  intros Hi. unfold indexValue, normNum.
  destruct (stripZeros_value (S (Z.to_nat (Z.log2 (Z.abs (Z.of_nat i)))))
              (Z.of_nat i) 0) as [H1 H2]; [done|].
  destruct (stripZeros _ _ _) as [m e]. simpl in *.
  unfold toValidIndex, numToInt.
  destruct (Z.leb_spec 0 e); [|lia]. rewrite H2, Z.mul_1_r.
  destruct (Z.leb_spec 0 (Z.of_nat i)); [|lia].
  destruct (Z.ltb_spec (Z.of_nat i) (Z.of_nat len)); [|lia].
  simpl. by rewrite Nat2Z.id.
Qed.

Lemma omap_indexValue (len : nat) (idxs : list nat) :
  Forall (λ i, i < len) idxs → omap (toValidIndex len) (indexValue <$> idxs) = idxs.
Proof.
  induction 1 as [|i idxs Hi _ IH]; [done|].
  rewrite fmap_cons.
  change (omap (toValidIndex len) (indexValue i :: (indexValue <$> idxs)))
    with (match toValidIndex len (indexValue i) with
          | Some y => y :: omap (toValidIndex len) (indexValue <$> idxs)
          | None => omap (toValidIndex len) (indexValue <$> idxs)
          end).
  by rewrite toValidIndex_indexValue, IH.
Qed.

Lemma omap_seq_lookup (n : nat) (idxs : list nat) :
  Forall (λ i, i < n) idxs → omap (λ i, seq 0 n !! i) idxs = idxs.
Proof.
  induction 1 as [|i idxs Hi _ IH]; [done|].
  change (omap (λ i, seq 0 n !! i) (i :: idxs))
    with (match seq 0 n !! i with
          | Some y => y :: omap (λ i, seq 0 n !! i) idxs
          | None => omap (λ i, seq 0 n !! i) idxs
          end).
  rewrite lookup_seq_lt by done. by rewrite IH.
Qed.

Lemma uniqueLoop_NoDup (seen : gset nat) (l : list nat) :
  NoDup l → (∀ i, i ∈ l → i ∉ seen) → uniqueLoop seen l = l.
Proof.
  revert seen. induction l as [|x l IH]; intros seen Hnd Hs; [done|].
  apply NoDup_cons in Hnd as [Hx Hnd]. simpl.
  rewrite bool_decide_eq_false_2 by (apply Hs; left). f_equal.
  apply IH; [done|]. intros i Hi. rewrite elem_of_union, elem_of_singleton.
  intros [->|Hin]; [done|]. by apply (Hs i); [right|].
Qed.

(** X21.  Without likes in the profile and without memo coverage, for a
    pool of at most 30 gifts of which no two are the same, a reply that is
    read as a list of at most [topN] pairwise different positions of the
    pool gives exactly the gifts at these positions, in the order of the
    reply. *)
Theorem rerankGifts_follows_ranking
    gifts personaString originalData topN profile content (idxs : list nat) :
  hasLikes profile = false →
  coverageApplies originalData = false →
  topN < length gifts ≤ maxGiftsForRerank →
  noTwoSame gifts →
  idxs ≠ [] → NoDup idxs → length idxs ≤ topN →
  Forall (λ i, i < length gifts) idxs →
  JSON_parse (cleanRanking content) = Some (JArr (indexValue <$> idxs)) →
  rerankGifts true gifts personaString originalData topN profile (Content content)
  = Return (omap (λ i, gifts !! i) idxs)
  ∧ selects gifts idxs (omap (λ i, gifts !! i) idxs).
Proof.
  intros Hl Hc [Hlen Hmax] Hpool Hne Hnd Hk Hlt Hparse.
  assert (selects gifts idxs (omap (λ i, gifts !! i) idxs)) as Hsel.
  { apply selects_omap_all. by apply Forall_forall. }
  split; [|done].
  assert (prefilterIndices gifts profile = seq 0 (length gifts)) as Hfi.
  { unfold prefilterIndices, maxGiftsForRerank in *. rewrite Hl.
    destruct (Nat.ltb_spec 30 (length gifts)); [lia | done]. }
  assert (length (prefilterGifts gifts profile) = length gifts) as Hfl.
  { pose proof (prefilter_selects gifts profile) as Hs.
    apply Forall2_length in Hs. rewrite <- Hs, Hfi. apply length_seq. }
  assert (readRanking (prefilterIndices gifts profile)
            (length (prefilterGifts gifts profile)) topN content = Some idxs) as Hr.
  { unfold readRanking. rewrite Hparse, Hfl, Hfi.
    destruct idxs as [|i0 rest]; [done|].
    rewrite fmap_cons. cbv iota.
    change (indexValue i0 :: (indexValue <$> rest))
      with (indexValue <$> (i0 :: rest)).
    rewrite omap_indexValue by done. rewrite take_ge by done.
    rewrite omap_seq_lookup by done.
    rewrite uniqueLoop_NoDup; [done | done | set_solver]. }
  rewrite (rerankGifts_ranked _ _ _ _ _ _ idxs) by done.
  unfold rankedResult. rewrite Hl, Hc. f_equal.
  apply dedupGifts_id. by eapply selects_allDistinct.
Qed.

End RankingFacts.

(** * [generateJSON]: the round trip of a serialized value *)

Section RoundTripFacts.
Context `{Host}.

Lemma startsWith_split (p s : jsstring) :
  startsWith p s = true → s = p ++ drop (length p) s.
Proof.
  revert s. induction p as [|a p IH]; intros s Hs; [done|].
  destruct s as [|b s]; [done|]. simpl in Hs.
  apply andb_prop in Hs as [->%N.eqb_eq Hs]. simpl. f_equal. by apply IH.
Qed.

Lemma startsWith_app (p r : jsstring) : startsWith p (p ++ r) = true.
Proof. induction p as [|a p IH]; [done|]. simpl. by rewrite N.eqb_refl. Qed.

Lemma indexOf_unfold (p s : jsstring) :
  indexOf p s
  = if startsWith p s then Some 0
    else match s with [] => None | _ :: r => S <$> indexOf p r end.
Proof. by destruct s. Qed.

Lemma indexOf_Some_split (p s : jsstring) (i : nat) :
  indexOf p s = Some i → ∃ a b, s = a ++ p ++ b ∧ length a = i.
Proof.
  revert i. induction s as [|c r IH]; intros i; rewrite indexOf_unfold;
    destruct (startsWith p _) eqn:E.
  - intros [= <-]. exists [], (drop (length p) []). split; [|done].
    by apply startsWith_split.
  - done.
  - intros [= <-]. exists [], (drop (length p) (c :: r)). split; [|done].
    by apply startsWith_split.
  - destruct (indexOf p r) as [j|]; [|done]. intros [= <-].
    destruct (IH j eq_refl) as (a & b & -> & <-). by exists (c :: a), b.
Qed.

Lemma indexOf_app_Some (p a b : jsstring) :
  ∃ i, indexOf p (a ++ p ++ b) = Some i ∧ i ≤ length a.
Proof.
  induction a as [|c a (i & Hi & Hle)]; rewrite indexOf_unfold.
  - rewrite app_nil_l, startsWith_app. by exists 0.
  - destruct (startsWith p _); [exists 0; split; [done | lia]|].
    simpl. rewrite Hi. exists (S i). split; [done | simpl; lia].
Qed.

Lemma trimStart_before (y : jsstring) (c : N) (t : jsstring) :
  isSpace c = false → ∃ y', trimStart (y ++ c :: t) = y' ++ c :: t.
Proof.
  intros Hc. induction y as [|d y IH]; simpl.
  - rewrite Hc. by exists [].
  - destruct (isSpace d); [done|]. by exists (d :: y).
Qed.

(** The fence pattern of line 78 matches exactly a text with two fences, and
    what it captures is shorter than the text. *)
Lemma fenceMatch_Some_fenced (t x : jsstring) :
  fenceMatch t = Some x → fenced t ∧ length x < length t.
Proof.
  unfold fenceMatch. destruct (indexOf fence t) as [i|] eqn:Ei; [|done].
  apply indexOf_Some_split in Ei as (a & b & -> & <-).
  replace (drop (length a + 3) (a ++ fence ++ b)) with b; cycle 1.
  { rewrite app_assoc. rewrite drop_app_length'; [done|].
    rewrite length_app. done. }
  set (r1 := if startsWith (lit "json") b then drop 4 b else b).
  assert (∃ sk, b = sk ++ r1) as (sk & Hb).
  { unfold r1. destruct (startsWith _ b); [|by exists []].
    exists (take 4 b). by rewrite take_drop. }
  destruct (trimStart_split r1) as (w & Hr1 & _).
  destruct (indexOf fence (trimStart r1)) as [j|] eqn:Ej; [|done].
  apply indexOf_Some_split in Ej as (a' & b' & Hr2 & <-).
  intros [= <-]. rewrite Hr2, take_app_length.
  assert (b = (sk ++ w ++ a') ++ fence ++ b') as ->.
  { rewrite Hb, Hr1, Hr2. by rewrite <- !app_assoc. }
  split; [by exists a, (sk ++ w ++ a'), b'|].
  rewrite !length_app. simpl. lia.
Qed.

Lemma fenced_fenceMatch (t : jsstring) : fenced t → is_Some (fenceMatch t).
Proof.
  intros (a & b & c & ->). unfold fenceMatch.
  destruct (indexOf_app_Some fence a (b ++ fence ++ c)) as (i & Hi & Hle).
  rewrite Hi.
  assert (∃ y, drop (i + 3) (a ++ fence ++ b ++ fence ++ c) = y ++ fence ++ c)
    as (y & ->).
  { exists (drop (i + 3) (a ++ fence ++ b)).
    replace (a ++ fence ++ b ++ fence ++ c) with ((a ++ fence ++ b) ++ fence ++ c)
      by (by rewrite <- !app_assoc).
    rewrite drop_app_le; [done|]. rewrite !length_app. simpl. lia. }
  set (r1 := if startsWith (lit "json") (y ++ fence ++ c)
             then drop 4 (y ++ fence ++ c) else y ++ fence ++ c).
  assert (∃ y1, r1 = y1 ++ fence ++ c) as (y1 & ->).
  { unfold r1. destruct (startsWith _ _) eqn:E; [|by exists y].
    exists (drop 4 y). rewrite drop_app_le; [done|].
    assert (96%N ∉ lit "json") as Hj by (apply (bool_decide_unpack _); by vm_compute).
    exact (startsWith_length (lit "json") y ([96; 96]%N ++ c) 96%N Hj E). }
  destruct (trimStart_before y1 96%N ([96; 96]%N ++ c)) as (y2 & Hy2); [done|].
  change (y1 ++ fence ++ c) with (y1 ++ 96%N :: [96; 96]%N ++ c).
  rewrite Hy2. change (y2 ++ 96%N :: [96; 96]%N ++ c) with (y2 ++ fence ++ c).
  destruct (indexOf_app_Some fence y2 c) as (j & -> & _). done.
Qed.

Lemma fenceMatch_None_iff (t : jsstring) : fenceMatch t = None ↔ ¬ fenced t.
Proof.
  split.
  - intros E [x Hx]%fenced_fenceMatch. by rewrite E in Hx.
  - intros Hn. destruct (fenceMatch t) as [x|] eqn:E; [|done].
    by apply fenceMatch_Some_fenced in E as [? _].
Qed.

Lemma indexOfChar_Some_split (c : N) (s : jsstring) (i : nat) :
  indexOfChar c s = Some i → ∃ a b, s = a ++ c :: b ∧ length a = i.
Proof.
  revert i. induction s as [|d s IH]; intros i; [done|]. simpl.
  destruct (N.eqb_spec c d) as [->|_].
  - intros [= <-]. by exists [], s.
  - destruct (indexOfChar c s) as [j|]; [|done]. intros [= <-].
    destruct (IH j eq_refl) as (a & b & -> & <-). by exists (d :: a), b.
Qed.

Lemma indexOfChar_app_Some (c : N) (a b : jsstring) :
  ∃ i, indexOfChar c (a ++ c :: b) = Some i ∧ i ≤ length a.
Proof.
  induction a as [|d a (i & Hi & Hle)]; simpl.
  - rewrite N.eqb_refl. by exists 0.
  - destruct (c =? d)%N; [exists 0; split; [done | lia]|].
    rewrite Hi. exists (S i). split; [done | lia].
Qed.

Lemma lastIndexOfChar_Some_split (c : N) (s : jsstring) (j : nat) :
  lastIndexOfChar c s = Some j → ∃ a b, s = a ++ c :: b ∧ length a = j.
Proof.
  revert j. induction s as [|d s IH]; intros j; [done|]. simpl.
  destruct (lastIndexOfChar c s) as [k|].
  - intros [= <-]. destruct (IH k eq_refl) as (a & b & -> & <-).
    by exists (d :: a), b.
  - destruct (N.eqb_spec c d) as [->|_]; [|done]. intros [= <-]. by exists [], s.
Qed.

Lemma lastIndexOfChar_elem (c : N) (s : jsstring) :
  c ∈ s → is_Some (lastIndexOfChar c s).
Proof.
  induction s as [|d s IH]; [by intros ?%elem_of_nil|]. simpl.
  intros [->|Hc]%elem_of_cons.
  - destruct (lastIndexOfChar d s); [done|]. by rewrite N.eqb_refl.
  - destruct (IH Hc) as [k ->]. done.
Qed.

(** What the patterns of lines 83 and 84 take: the text from the first [o]
    to the last [c] after it. *)
Lemma greedyMatch_Some (o c : N) (t x : jsstring) :
  greedyMatch o c t = Some x →
  ∃ a m d, t = a ++ x ++ d ∧ x = o :: m ++ [c].
Proof.
  unfold greedyMatch. destruct (indexOfChar o t) as [i|] eqn:Ei; [|done].
  apply indexOfChar_Some_split in Ei as (a & r & -> & <-).
  replace (drop (S (length a)) (a ++ o :: r)) with r; cycle 1.
  { change (a ++ o :: r) with (a ++ [o] ++ r). rewrite app_assoc.
    rewrite drop_app_length'; [done|]. rewrite length_app. simpl. lia. }
  destruct (lastIndexOfChar c r) as [j|] eqn:Ej; [|done].
  apply lastIndexOfChar_Some_split in Ej as (m & d & -> & <-).
  intros [= <-]. rewrite drop_app_length.
  exists a, m, d.
  assert (take (length m + 2) (o :: m ++ c :: d) = o :: m ++ [c]) as ->.
  { replace (length m + 2) with (S (length (m ++ [c])))
      by (rewrite length_app; simpl; lia).
    cbn [take]. f_equal.
    change (m ++ c :: d) with (m ++ [c] ++ d). rewrite app_assoc.
    by rewrite take_app_length. }
  split; [|done]. simpl. by rewrite <- app_assoc.
Qed.

Lemma pairIn_greedyMatch (o c : N) (t : jsstring) :
  pairIn o c t → is_Some (greedyMatch o c t).
Proof.
  intros (a & b & d & ->). unfold greedyMatch.
  destruct (indexOfChar_app_Some o a (b ++ c :: d)) as (i & Hi & Hle). rewrite Hi.
  assert (c ∈ drop (S i) (a ++ o :: b ++ c :: d)) as Hc.
  { replace (a ++ o :: b ++ c :: d) with ((a ++ o :: b) ++ c :: d)
      by (by rewrite <- app_assoc).
    rewrite drop_app_le by (rewrite length_app; simpl; lia).
    apply elem_of_app. right. left. }
  by destruct (lastIndexOfChar_elem c _ Hc) as [j ->].
Qed.

Lemma greedyMatch_None_iff (o c : N) (t : jsstring) :
  greedyMatch o c t = None ↔ ¬ pairIn o c t.
Proof.
  split.
  - intros E [x Hx]%pairIn_greedyMatch. by rewrite E in Hx.
  - intros Hn. destruct (greedyMatch o c t) as [x|] eqn:E; [|done].
    apply greedyMatch_Some in E as (a & m & d & -> & ->). destruct Hn.
    exists a, m, d. simpl. by rewrite <- app_assoc.
Qed.

Lemma closerAhead_true (s : jsstring) :
  closerAhead s = true →
  ∃ w c d, s = w ++ c :: d ∧ forallb isSpace w = true ∧ (c = 125%N ∨ c = 93%N).
Proof.
  induction s as [|x s IH]; [done|]. simpl. destruct (isSpace x) eqn:Ex.
  - intros (w & c & d & -> & Hw & Hc)%IH. exists (x :: w), c, d.
    split; [done|]. split; [|done]. simpl. by rewrite Ex.
  - intros [?%N.eqb_eq|?%N.eqb_eq]%orb_prop; exists [], x, s; auto.
Qed.

Lemma stripTrailingCommas_length (s : jsstring) :
  length (stripTrailingCommas s) ≤ length s.
Proof. apply sublist_length, stripTrailingCommas_sublist. Qed.

(** The normalization of line 94 changes exactly a text with a dangling
    comma. *)
Lemma stripTrailingCommas_id_iff (t : jsstring) :
  stripTrailingCommas t = t ↔ ¬ danglingComma t.
Proof.
  split.
  - intros E (a & w & c & d & -> & Hw & Hc).
    assert (length (stripTrailingCommas (a ++ 44%N :: w ++ c :: d))
            < length (a ++ 44%N :: w ++ c :: d)) as Hlt; [|rewrite E in Hlt; lia].
    clear E. induction a as [|x a IH].
    + simpl. rewrite closerAhead_spaces by done. simpl.
      pose proof (stripTrailingCommas_length (w ++ c :: d)). lia.
    + change ((x :: a) ++ 44%N :: w ++ c :: d) with (x :: (a ++ 44%N :: w ++ c :: d)).
      cbn [stripTrailingCommas]. destruct (_ && _); simpl; lia.
  - induction t as [|x t IH]; intros Hn; [done|]. cbn [stripTrailingCommas].
    destruct (N.eqb_spec x 44) as [->|_]; simpl.
    + destruct (closerAhead t) eqn:E.
      * apply closerAhead_true in E as (w & c & d & -> & Hw & Hc).
        destruct Hn. by exists [], w, c, d.
      * f_equal. apply IH. intros (a & w & c & d & -> & Hw & Hc).
        apply Hn. by exists (44%N :: a), w, c, d.
    + f_equal. apply IH. intros (a & w & c & d & -> & Hw & Hc).
      apply Hn. by exists (x :: a), w, c, d.
Qed.

Lemma stringify_first (v : json) :
  (∀ r, stringify v = 123%N :: r → ∃ kv, v = JObj kv)
  ∧ (∀ r, stringify v = 91%N :: r → ∃ l, v = JArr l).
Proof.
  destruct v as [| [|] | m e | s | l | kv]; try (by split; intros r [=]).
  - simpl. destruct (numChars_head m e) as (c & t & E & Hc). rewrite E.
    assert (c ≠ 123%N ∧ c ≠ 91%N) as [? ?].
    { destruct Hc as [Hc| ->]; [|done]. unfold isDigit in Hc.
      apply andb_prop in Hc as [_ Hc%N.leb_le]. lia. }
    split; intros r [= -> _]; done.
  - split; intros r E; [by rewrite stringify_JArr in E | by exists l].
  - split; intros r E; [by exists kv | by rewrite stringify_JObj in E].
Qed.

Lemma stringify_scalar (v : json) :
  match v with JStr _ | JArr _ | JObj _ => False | _ => True end →
  (123%N ∉ stringify v) ∧ 91%N ∉ stringify v.
Proof.
  destruct v as [| [|] | m e | s | l | kv]; try done; intros _;
    try (split; apply (bool_decide_unpack _); by vm_compute).
  split; intros Hc%numChars_chars%numChar_props; tauto.
Qed.

(** The candidate of lines 76-91 is the serialization itself. *)
Lemma extractCandidate_stringify (v : json) :
  ¬ fenced (stringify v) → spanWhole v →
  extractCandidate (stringify v) = stringify v.
Proof.
  intros Hf%fenceMatch_None_iff Hs. unfold extractCandidate. rewrite Hf.
  unfold objectMatch, arrayMatch.
  destruct v as [| b | m e | s | l | kv].
  - destruct (stringify_scalar JNull I). by rewrite !greedyMatch_absent.
  - destruct (stringify_scalar (JBool b) I). by rewrite !greedyMatch_absent.
  - destruct (stringify_scalar (JNum m e) I). by rewrite !greedyMatch_absent.
  - destruct Hs as [Ho%greedyMatch_None_iff Ha%greedyMatch_None_iff].
    by rewrite Ho, Ha.
  - apply greedyMatch_None_iff in Hs. rewrite Hs.
    rewrite stringify_JArr. by rewrite greedyMatch_whole.
  - rewrite stringify_JObj. by rewrite greedyMatch_whole.
Qed.

(** C1 (amended).  A value comes back from its serialization on every host
    that parses the serialization back, when the serialization holds no two
    code fences, holds no comma that only white space separates from a
    closing brace or bracket, and is not cut by the brace and bracket
    patterns: the value is an object, or an array without an opening brace
    before a closing one, or a string without such braces and without such
    brackets, or a number, a boolean or [null]. *)
Theorem generateJSON_roundtrip (v : json) :
  ¬ fenced (stringify v) →
  ¬ danglingComma (stringify v) →
  spanWhole v →
  JSON_parse (stringify v) = Some v →
  generateJSON (ReplyText (stringify v)) = Return v.
Proof.
  intros Hf Hc Hs Hparse. unfold generateJSON.
  rewrite extractCandidate_stringify by done.
  apply stripTrailingCommas_id_iff in Hc. by rewrite Hc, Hparse.
Qed.

(** The three conditions are exact: in every other case the text that is
    handed to [JSON.parse] is not the serialization. *)
Lemma roundtrip_conditions_exact (v : json) :
  stripTrailingCommas (extractCandidate (stringify v)) = stringify v
  ↔ (¬ fenced (stringify v)) ∧ (¬ danglingComma (stringify v)) ∧ spanWhole v.
Proof.
  split; cycle 1.
  { intros (Hf & Hc & Hs). rewrite extractCandidate_stringify by done.
    by apply stripTrailingCommas_id_iff. }
  assert (∀ x a d, stripTrailingCommas x = a ++ x ++ d → a = [] ∧ d = []) as Hfit.
  { intros x a d E. pose proof (stripTrailingCommas_length x) as Hl.
    rewrite E, !length_app in Hl.
    destruct a; [|simpl in Hl; lia]. destruct d; [done|]. simpl in Hl. lia. }
  set (t := stringify v). unfold extractCandidate.
  destruct (fenceMatch t) as [x|] eqn:Ef.
  { intros E. apply fenceMatch_Some_fenced in Ef as [_ Hlt].
    pose proof (stripTrailingCommas_length (trim x)) as H1.
    pose proof (sublist_length _ _ (trim_sublist x)) as H2.
    rewrite E in H1. lia. }
  apply fenceMatch_None_iff in Ef. unfold objectMatch, arrayMatch.
  destruct (greedyMatch 123 125 t) as [x|] eqn:Eo.
  { intros E. apply greedyMatch_Some in Eo as (a & m & d & Ht & Hx).
    rewrite Ht in E. destruct (Hfit _ _ _ E) as [-> ->].
    rewrite app_nil_l, app_nil_r in Ht, E.
    destruct (proj1 (stringify_first v) (m ++ [125%N])) as [kv ->].
    { fold t. by rewrite Ht, Hx. }
    split; [done|]. split; [|done]. apply stripTrailingCommas_id_iff.
    fold t. by rewrite Ht. }
  apply greedyMatch_None_iff in Eo.
  destruct (greedyMatch 91 93 t) as [x|] eqn:Ea.
  { intros E. apply greedyMatch_Some in Ea as (a & m & d & Ht & Hx).
    rewrite Ht in E. destruct (Hfit _ _ _ E) as [-> ->].
    rewrite app_nil_l, app_nil_r in Ht, E.
    destruct (proj2 (stringify_first v) (m ++ [93%N])) as [l ->].
    { fold t. by rewrite Ht, Hx. }
    split; [done|]. split; [|done]. apply stripTrailingCommas_id_iff.
    fold t. by rewrite Ht. }
  apply greedyMatch_None_iff in Ea.
  intros E%stripTrailingCommas_id_iff. split; [done|]. split; [done|].
  by destruct v.
Qed.

(** The values whose strings hold no backtick, comma, brace or bracket, and
    that are an object or hold no object, meet the three conditions. *)
Lemma plainValue_conditions (v : json) :
  plainValue v = true → extractable v = true →
  (¬ fenced (stringify v)) ∧ (¬ danglingComma (stringify v)) ∧ spanWhole v.
Proof.
  intros Hp He. apply roundtrip_conditions_exact.
  rewrite extractCandidate_whole.
  - pose proof (commaSafe_stringify v Hp []) as Hs. rewrite !app_nil_r in Hs.
    simpl in Hs. done.
  - intros Hc. by destruct (stringify_chars v _ Hp Hc).
  - by apply wholeCandidate_stringify.
Qed.

End RoundTripFacts.

(** * Closed examples on the reference host

    The theorems above hold on every host; what follows runs the embedding
    on [refHost]. *)

#[local] Existing Instance refHost.

(** ** [generateJSON] *)

(** C1, as stated, fails: the string ["a,}"] comes back as ["a}"], and an
    array of three objects does not come back at all, although the
    reference parser reads both serializations back. *)
Lemma generateJSON_roundtrip_counterexample :
  JSON.parse (stringify commaBrace) = Some commaBrace
  ∧ generateJSON (ReplyText (stringify commaBrace)) = Return (JStr (lit "a}"))
  ∧ JStr (lit "a}") ≠ commaBrace
  ∧ JSON.parse (stringify threeObjects) = Some threeObjects
  ∧ generateJSON (ReplyText (stringify threeObjects)) = Throw JsonParseFailed.
Proof.
  split; [by vm_compute|]. split; [by vm_compute|]. split; [by vm_compute|].
  split; by vm_compute.
Qed.

Lemma generateJSON_roundtrip_witness :
  stringify helloWorld
  = litq "{'title':'Hello, world {x} [y] ```','tags':['a, b',1]}"
  ∧ generateJSON (ReplyText (stringify helloWorld)) = Return helloWorld
  ∧ stringify commaArray = litq "['a, b }',1]"
  ∧ generateJSON (ReplyText (stringify commaArray)) = Return commaArray.
Proof.
  assert (¬ fenced (stringify helloWorld)) as Hf
    by (apply fenceMatch_None_iff; by vm_compute).
  assert (¬ danglingComma (stringify helloWorld)) as Hc
    by (apply stripTrailingCommas_id_iff; by vm_compute).
  assert (JSON_parse (stringify helloWorld) = Some helloWorld) as Hr
    by (by vm_compute).
  assert (¬ fenced (stringify commaArray)) as Hf'
    by (apply fenceMatch_None_iff; by vm_compute).
  assert (¬ danglingComma (stringify commaArray)) as Hc'
    by (apply stripTrailingCommas_id_iff; by vm_compute).
  assert (spanWhole commaArray) as Hs'
    by (apply greedyMatch_None_iff; by vm_compute).
  assert (JSON_parse (stringify commaArray) = Some commaArray) as Hr'
    by (by vm_compute).
  split; [by vm_compute|].
  split; [exact (generateJSON_roundtrip helloWorld Hf Hc I Hr)|].
  split; [by vm_compute|].
  exact (generateJSON_roundtrip commaArray Hf' Hc' Hs' Hr').
Defined.

(** C2.  The serialization of three objects cut after the second one,
    [[{"a":1},{"b":2},], is not recovered: the object pattern is tried
    first and takes [{"a":1},{"b":2}], which no strategy repairs.  Under a
    known key the cut text [{"gifts":[{"a":1},{"b":2},] gives back the first
    object only, and a cut text whose lines end in [},] is never answered:
    the [while] loop of the first strategy does not end. *)
Theorem generateJSON_truncated_array :
  take 17 (stringify threeObjects) = litq "[{'a':1},{'b':2},"
  ∧ generateJSON (ReplyText (take 17 (stringify threeObjects))) = Throw JsonParseFailed
  ∧ take 26 (stringify giftsObject) = litq "{'gifts':[{'a':1},{'b':2},"
  ∧ generateJSON (ReplyText (take 26 (stringify giftsObject)))
    = Return (JObj [(lit "gifts", JArr [JObj [(lit "a", JNum 1 0)]])])
  ∧ generateJSON (ReplyText (litq "{'gifts': [" ++ 10%N :: litq "{'a': 1}," ++ 10%N
                             :: litq "{'b': 2}," ++ 10%N :: litq "{'c'"))
    = Hang.
Proof. repeat split; by vm_compute. Qed.

(** ** [rerankGifts] *)

(** C3, as stated, fails: without the API key [rerankGifts] throws, and
    when the request itself fails the first gifts of the pool are returned,
    not the first gifts of the working set. *)
Lemma rerankGifts_fallback_counterexample :
  rerankGifts false pool5 persona noMemo 3 likesGolf RequestFailed
  = Throw ApiKeyNotConfigured
  ∧ rerankGifts true pool5 persona noMemo 3 likesGolf RequestFailed
    = Return [golfClubs; wineSet; golfBag]
  ∧ take 3 (prefilterGifts pool5 likesGolf) = [golfClubs; golfBag; wineSet].
Proof. repeat split; by vm_compute. Qed.

Lemma rerankGifts_degrades_to_working_set_witness :
  3 < length pool5
  ∧ readRanking (prefilterIndices pool5 likesGolf)
      (length (prefilterGifts pool5 likesGolf)) 3 (lit "Sorry, I cannot rank these.")
    = None
  ∧ rerankGifts true pool5 persona noMemo 3 likesGolf
      (Content (lit "Sorry, I cannot rank these."))
    = Return (take 3 (prefilterGifts pool5 likesGolf)).
Proof.
  assert (3 < length pool5) as Hlen by (simpl; lia).
  assert (readRanking (prefilterIndices pool5 likesGolf)
            (length (prefilterGifts pool5 likesGolf)) 3
            (lit "Sorry, I cannot rank these.") = None) as Hr by (by vm_compute).
  split; [done|]. split; [done|].
  exact (proj2 (rerankGifts_degrades_to_working_set pool5 persona noMemo 3 likesGolf
                  (Content (lit "Sorry, I cannot rank these.")))
           _ eq_refl Hlen Hr).
Defined.

(** C4, as stated, fails: without the API key the pool of five gifts is not
    returned for [topN = 5]; the guard of line 311 throws first. *)
Lemma rerankGifts_short_circuit_counterexample :
  length pool5 ≤ 5
  ∧ rerankGifts false pool5 persona noMemo 5 None RequestFailed
    = Throw ApiKeyNotConfigured.
Proof. split; [simpl; lia | by vm_compute]. Qed.

Lemma rerankGifts_short_circuit_witness :
  length pool5 ≤ 5
  ∧ rerankGifts true pool5 persona wineAndCandle 5 likesGolf RequestFailed
    = Return pool5
  ∧ rerankGifts false pool5 persona wineAndCandle 5 likesGolf RequestFailed
    = Throw ApiKeyNotConfigured.
Proof.
  assert (length pool5 ≤ 5) as Hlen by (simpl; lia).
  split; [done|].
  exact (rerankGifts_short_circuit pool5 persona wineAndCandle 5 likesGolf
           RequestFailed Hlen).
Defined.

(** C5, as stated, fails: the model names one index, one gift is returned,
    and the pool holds five different gifts.  Indices that are out of range
    are filtered out before the cut to [topN] (lines 740-750), repeated ones
    after it: the reply [[9, 9, 9, 0, 1, 2]] gives three gifts, the reply
    [[0, 0, 0, 1, 2]] one. *)
Lemma rerankGifts_size_counterexample :
  rerankGifts true pool5 persona noMemo 3 None (Content (lit "[0]"))
  = Return [golfClubs]
  ∧ dedupGifts pool5 = pool5
  ∧ rerankGifts true pool5 persona noMemo 3 None (Content (lit "[9, 9, 9, 0, 1, 2]"))
    = Return [golfClubs; wineSet; golfBag]
  ∧ rerankGifts true pool5 persona noMemo 3 None (Content (lit "[0, 0, 0, 1, 2]"))
    = Return [golfClubs].
Proof. repeat split; by vm_compute. Qed.

Lemma rerankGifts_at_most_topN_witness :
  rerankGifts true pool5 persona noMemo 3 None (Content (lit "[4, 1, 0, 2]"))
  = Return [backSupport; wineSet; golfClubs]
  ∧ length [backSupport; wineSet; golfClubs] ≤ 3.
Proof.
  assert (rerankGifts true pool5 persona noMemo 3 None (Content (lit "[4, 1, 0, 2]"))
          = Return [backSupport; wineSet; golfClubs]) as Hr by (by vm_compute).
  split; [done|].
  exact (proj2 (rerankGifts_at_most_topN pool5 persona noMemo 3 None
                  (Content (lit "[4, 1, 0, 2]"))) true _ Hr).
Defined.

(** C6, as stated, fails: the short-circuit and the fallback return the
    same product twice, by id and by name. *)
Lemma rerankGifts_dedup_counterexample :
  rerankGifts true [wineSet; wineSetAgain; wineSetCopy] persona noMemo 3 None
    RequestFailed
  = Return [wineSet; wineSetAgain; wineSetCopy]
  ∧ rerankGifts true [wineSet; wineSetAgain; wineSetCopy; golfBag] persona noMemo 3
      None (Content (lit "Sorry, I cannot rank these."))
    = Return [wineSet; wineSetAgain; wineSetCopy]
  ∧ ¬ noTwoSame [wineSet; wineSetAgain; wineSetCopy].
Proof.
  split; [by vm_compute|]. split; [by vm_compute|].
  intros Hn. apply (Hn 0 1 wineSet wineSetAgain); [lia | done | done |].
  left. by vm_compute.
Qed.

Lemma rerankGifts_ranked_no_duplicates_witness :
  3 < length [wineSet; wineSetAgain; wineSetCopy; golfBag]
  ∧ rankingUsable [wineSet; wineSetAgain; wineSetCopy; golfBag] 3 None
      (Content (lit "[0, 1, 2]"))
  ∧ ∃ res,
      rerankGifts true [wineSet; wineSetAgain; wineSetCopy; golfBag] persona noMemo 3
        None (Content (lit "[0, 1, 2]"))
      = Return res
      ∧ noTwoSame res.
Proof.
  assert (3 < length [wineSet; wineSetAgain; wineSetCopy; golfBag]) as Hlen
    by (simpl; lia).
  assert (rankingUsable [wineSet; wineSetAgain; wineSetCopy; golfBag] 3 None
            (Content (lit "[0, 1, 2]"))) as Hu by (by vm_compute; eexists).
  split; [done|]. split; [done|].
  exact (rerankGifts_ranked_no_duplicates _ persona noMemo 3 None _ Hlen Hu).
Defined.

(** C7, as stated, fails: the reply does not parse, the first two gifts of
    the pool are returned, and none of them is related to the additional
    memo, although the pool holds a candle set. *)
Lemma rerankGifts_coverage_counterexample :
  coverageApplies wineAndCandle = true
  ∧ memoRelated (keywords (trim (memo wineAndCandle))) wineSet = true
  ∧ memoRelated (keywords (trim (addMemo wineAndCandle))) candleSet = true
  ∧ rerankGifts true pool5 persona wineAndCandle 2 None
      (Content (lit "Sorry, I cannot rank these."))
    = Return [golfClubs; wineSet]
  ∧ memoRelated (keywords (trim (addMemo wineAndCandle))) golfClubs = false
  ∧ memoRelated (keywords (trim (addMemo wineAndCandle))) wineSet = false.
Proof. repeat split; by vm_compute. Qed.

Lemma pool5_noTwoSame : noTwoSame pool5.
Proof.
  apply allDistinct_noTwoSame. simpl.
  repeat split; try done; intros h Hh;
    repeat (apply elem_of_cons in Hh as [->|Hh]);
    try (by apply elem_of_nil in Hh);
    intros [[_ E]|[_ E]]; by vm_compute in E.
Qed.

Lemma rerankGifts_memo_coverage_witness :
  hasLikes None = false
  ∧ coverageApplies wineAndCandle = true
  ∧ 2 ≤ 3
  ∧ noTwoSame pool5
  ∧ wineSet ∈ pool5
  ∧ memoRelated (keywords (trim (memo wineAndCandle))) wineSet = true
  ∧ candleSet ∈ pool5
  ∧ memoRelated (keywords (trim (addMemo wineAndCandle))) candleSet = true
  ∧ rankingUsable pool5 3 None (Content (lit "[0, 2, 4]"))
  ∧ ∃ res,
      rerankGifts true pool5 persona wineAndCandle 3 None (Content (lit "[0, 2, 4]"))
      = Return res
      ∧ (∃ g, g ∈ res ∧ memoRelated (keywords (trim (memo wineAndCandle))) g = true)
      ∧ (∃ g, g ∈ res ∧ memoRelated (keywords (trim (addMemo wineAndCandle))) g = true).
Proof.
  assert (coverageApplies wineAndCandle = true) as Hc by (by vm_compute).
  assert (2 ≤ 3) as HN by lia.
  assert (wineSet ∈ pool5) as Hw by (right; left).
  assert (memoRelated (keywords (trim (memo wineAndCandle))) wineSet = true) as Hwr
    by (by vm_compute).
  assert (candleSet ∈ pool5) as Hk by (do 3 right; left).
  assert (memoRelated (keywords (trim (addMemo wineAndCandle))) candleSet = true) as Hkr
    by (by vm_compute).
  assert (rankingUsable pool5 3 None (Content (lit "[0, 2, 4]"))) as Hu
    by (by vm_compute; eexists).
  repeat (split; [done|]). split; [apply pool5_noTwoSame|]. repeat (split; [done|]).
  exact (rerankGifts_memo_coverage pool5 persona wineAndCandle 3 None
           (Content (lit "[0, 2, 4]")) wineSet candleSet
           eq_refl Hc HN pool5_noTwoSame Hw Hwr Hk Hkr (or_intror Hu)).
Defined.

Lemma rerankGifts_profile_authority_witness :
  hasLikes likesGolf = true
  ∧ rerankGifts true pool5 persona wineAndCandle 3 likesGolf (Content (lit "[0, 1, 4]"))
    = rerankGifts true pool5 persona noMemo 3 likesGolf (Content (lit "[0, 1, 4]"))
  ∧ rerankGifts true pool5 persona wineAndCandle 3 likesGolf (Content (lit "[0, 1, 4]"))
    = Return [golfClubs; golfBag; backSupport]
  ∧ rerankGifts true pool5 persona wineAndCandle 3 None (Content (lit "[0, 1, 4]"))
    = Return [candleSet; wineSet; golfClubs].
Proof.
  split; [done|]. split; [|split; by vm_compute].
  exact (proj1 (rerankGifts_profile_authority true pool5 persona 3 likesGolf
                  (Content (lit "[0, 1, 4]")) eq_refl)
           wineAndCandle noMemo).
Defined.

Lemma rerankGifts_pool_membership_witness :
  rerankGifts true pool5 persona wineAndCandle 3 None (Content (lit "[0, 2, 4]"))
  = Return [wineSet; candleSet; golfClubs]
  ∧ (∀ g, g ∈ [wineSet; candleSet; golfClubs] → g ∈ pool5)
  ∧ ∃ idxs, NoDup idxs ∧ selects pool5 idxs [wineSet; candleSet; golfClubs].
Proof.
  assert (rerankGifts true pool5 persona wineAndCandle 3 None
            (Content (lit "[0, 2, 4]"))
          = Return [wineSet; candleSet; golfClubs]) as Hr by (by vm_compute).
  split; [done|].
  exact (proj2 (rerankGifts_pool_membership pool5 persona wineAndCandle 3 None
                  (Content (lit "[0, 2, 4]"))) true _ Hr).
Defined.

(** ** [generateGiftRationale] *)



(** ** The other services *)

Lemma removeDuplicateGifts_reports_twin_witness :
  {| dup_gift := wineSetAgain; dup_reason := ID_DUPLICATE ++ lit "g2" |}
    ∈ (removeDuplicateGifts [wineSet; wineSetAgain; wineSetCopy; golfBag]).2
  ∧ duplicateOf [wineSet; wineSetAgain; wineSetCopy; golfBag]
      {| dup_gift := wineSetAgain; dup_reason := ID_DUPLICATE ++ lit "g2" |}.
Proof.
  assert ({| dup_gift := wineSetAgain; dup_reason := ID_DUPLICATE ++ lit "g2" |}
            ∈ (removeDuplicateGifts [wineSet; wineSetAgain; wineSetCopy; golfBag]).2)
    as Hin by (vm_compute; left).
  split; [done|].
  exact (removeDuplicateGifts_reports_twin _ _ Hin).
Defined.

Lemma performReranking_cards_from_rationale_witness :
  RERANK_THRESHOLD < length pool5
  ∧ ∃ recommendedGifts rationaleCards,
      rerankGifts true pool5 persona wineAndCandle 3 None (Content (lit "[0, 2, 4]"))
      = Return recommendedGifts
      ∧ performRerankingAndGenerateRationale true pool5 persona wineAndCandle None 3
          (lit "wine") [] (Content (lit "[0, 2, 4]")) (λ _, Content (lit "not json"))
        = Return (recommendedGifts, rationaleCards)
      ∧ Forall2 (λ '(i, gift) card,
                   ∃ rationale,
                     generateGiftRationale true gift persona wineAndCandle
                       (Content (lit "not json")) = Return rationale
                     ∧ card = {| card_id := i + 1;
                                 card_title := title rationale;
                                 card_description := description rationale |})
          (imap pair recommendedGifts) rationaleCards.
Proof.
  assert (RERANK_THRESHOLD < length pool5) as Hlen by (vm_compute; lia).
  split; [done|].
  exact (performReranking_cards_from_rationale pool5 persona wineAndCandle None 3
           (lit "wine") [] (Content (lit "[0, 2, 4]")) (λ _, Content (lit "not json"))
           Hlen).
Defined.

Lemma extractPreferencesFromMemo_null_entry_witness :
  JSON_parse (cleanReply (litq "{'likes': ['wine'], 'uncertain': [null]}"))
  = Some (JObj [(lit "likes", JArr [JStr (lit "wine")]);
                (lit "uncertain", JArr [JNull])])
  ∧ extractPreferencesFromMemo true
      (Content (litq "{'likes': ['wine'], 'uncertain': [null]}"))
    = noPreferences.
Proof.
  assert (JSON_parse (cleanReply (litq "{'likes': ['wine'], 'uncertain': [null]}"))
          = Some (JObj [(lit "likes", JArr [JStr (lit "wine")]);
                        (lit "uncertain", JArr [JNull])])) as Hp by (by vm_compute).
  split; [done|].
  refine (extractPreferencesFromMemo_null_entry _ _ "uncertain" [JNull] Hp _ _ _).
  - do 2 right. left.
  - done.
  - left.
Defined.

Lemma generateJSON_fenced_witness :
  plainValue threeObjects = true
  ∧ JSON_parse (stringify threeObjects) = Some threeObjects
  ∧ generateJSON
      (ReplyText (lit "Here is the data:" ++ fence ++ lit "json" ++ [10%N]
                  ++ stringify threeObjects ++ [10%N] ++ fence ++ lit " Done."))
    = Return threeObjects.
Proof.
  assert (plainValue threeObjects = true) as Hp by (by vm_compute).
  assert (JSON_parse (stringify threeObjects) = Some threeObjects) as Hr
    by (by vm_compute).
  assert (96%N ∉ lit "Here is the data:") as Hpre
    by (apply (bool_decide_unpack _); by vm_compute).
  split; [done|]. split; [done|].
  exact (generateJSON_fenced threeObjects (lit "Here is the data:") (lit " Done.")
           [10%N] [10%N] true Hp Hpre eq_refl eq_refl Hr).
Defined.

Lemma generateJSON_trailing_comma_witness :
  stringify plainObject = removelast (stringify plainObject) ++ [125%N]
  ∧ JSON_parse (removelast (stringify plainObject) ++ [10%N] ++ [125%N])
    = Some plainObject
  ∧ generateJSON
      (ReplyText (removelast (stringify plainObject) ++ 44%N :: [10%N] ++ [125%N]))
    = Return plainObject.
Proof.
  assert (plainValue plainObject = true) as Hp by (by vm_compute).
  assert (extractable plainObject = true) as He by (by vm_compute).
  assert (stringify plainObject = removelast (stringify plainObject) ++ [125%N]) as Hs
    by (by vm_compute).
  assert (JSON_parse (removelast (stringify plainObject) ++ [10%N] ++ [125%N])
          = Some plainObject) as Hr by (by vm_compute).
  split; [done|]. split; [done|].
  exact (generateJSON_trailing_comma plainObject _ [10%N] 125%N Hp He Hs
           (or_introl eq_refl) eq_refl Hr).
Defined.

Lemma generateJSON_salvaged_keys_witness :
  generateJSON (ReplyText (take 26 (stringify giftsObject)))
  = Return (JObj [(lit "gifts", JArr [JObj [(lit "a", JNum 1 0)]])])
  ∧ ∃ kv, JObj [(lit "gifts", JArr [JObj [(lit "a", JNum 1 0)]])] = JObj kv
          ∧ kv ≠ [] ∧ NoDup kv.*1 ∧ Forall (λ k, k ∈ knownKeys) kv.*1.
Proof.
  assert (JSON_parse (stripTrailingCommas
                        (extractCandidate (take 26 (stringify giftsObject)))) = None)
    as Hp by (by vm_compute).
  assert (strategy1 (stripTrailingCommas
                       (extractCandidate (take 26 (stringify giftsObject)))) = GiveUp)
    as Hs by (by vm_compute).
  assert (generateJSON (ReplyText (take 26 (stringify giftsObject)))
          = Return (JObj [(lit "gifts", JArr [JObj [(lit "a", JNum 1 0)]])])) as Hr
    by (by vm_compute).
  split; [done|].
  exact (generateJSON_salvaged_keys _ _ Hp Hs Hr).
Defined.

Lemma rerankGifts_ignores_prose_witness :
  indexListBody (lit "0, 2, 4") = true
  ∧ rerankGifts true pool5 persona noMemo 3 None
      (Content (lit "Sure! " ++ fenceJsonMarker ++ [10%N] ++ indexList (lit "0, 2, 4")
                ++ [10%N] ++ fenceMarker ++ lit " (see [1])"))
    = rerankGifts true pool5 persona noMemo 3 None (Content (indexList (lit "0, 2, 4"))).
Proof.
  assert (91%N ∉ lit "Sure! " ++ fenceJsonMarker ++ [10%N]) as Hpre
    by (apply (bool_decide_unpack _); by vm_compute).
  assert (indexListBody (lit "0, 2, 4") = true) as Hb by (by vm_compute).
  split; [done|].
  pose proof (rerankGifts_ignores_prose true pool5 persona noMemo 3 None
                (lit "Sure! " ++ fenceJsonMarker ++ [10%N])
                ([10%N] ++ fenceMarker ++ lit " (see [1])") (lit "0, 2, 4") Hpre Hb) as E.
  by rewrite <- !app_assoc in E.
Defined.

Lemma fenced_reply_is_read_bare_witness :
  generateGiftRationale true wineSet persona birthday
    (Content (fenceJsonMarker
              ++ 10%N :: litq "{'title': 'Wine lover', 'description': 'A fine set.'}"
              ++ 10%N :: fenceMarker))
  = generateGiftRationale true wineSet persona birthday
      (Content (litq "{'title': 'Wine lover', 'description': 'A fine set.'}")).
Proof.
  assert (96%N ∉ litq "{'title': 'Wine lover', 'description': 'A fine set.'}") as Ht
    by (apply (bool_decide_unpack _); by vm_compute).
  exact (proj1 (fenced_reply_is_read_bare _ Ht) true wineSet persona birthday).
Defined.

Lemma rerankGifts_follows_ranking_witness :
  JSON_parse (cleanRanking (lit "[4, 1, 0]")) = Some (JArr (indexValue <$> [4; 1; 0]))
  ∧ rerankGifts true pool5 persona noMemo 3 None (Content (lit "[4, 1, 0]"))
    = Return [backSupport; wineSet; golfClubs].
Proof.
  assert (JSON_parse (cleanRanking (lit "[4, 1, 0]"))
          = Some (JArr (indexValue <$> [4; 1; 0]))) as Hp by (by vm_compute).
  assert (NoDup [4; 1; 0]) as Hnd by (apply (bool_decide_unpack _); by vm_compute).
  assert (Forall (λ i, i < length pool5) [4; 1; 0]) as Hlt
    by (repeat constructor; simpl; lia).
  assert (3 < length pool5 ≤ maxGiftsForRerank) as Hlen by (vm_compute; lia).
  split; [done|].
  exact (proj1 (rerankGifts_follows_ranking pool5 persona noMemo 3 None
                  (lit "[4, 1, 0]") [4; 1; 0] eq_refl eq_refl Hlen pool5_noTwoSame
                  ltac:(done) Hnd ltac:(simpl; lia) Hlt Hp)).
Defined.
